(** * idb: a promise-returning layer over an event-based storage engine

    The development embeds the two module variants of the repository
    (src/idb.js and the module text in src/unnamed/part_000) over an
    explicit world: the caller's mutable arrays, the engine's databases,
    the request handles with their notification handlers, the promises and
    the trace of engine calls. *)

From stdpp Require Import gmap strings list fin_maps pretty.
From Stdlib Require Import ZArith Lia.

Open Scope Z_scope.
Open Scope string_scope.
Open Scope list_scope.

(** ** JavaScript values *)

Definition loc := nat.

(** The operations a facade exposes; a facade property holds the closure
    [VMethod m db] of one of them over the connection [db]. *)
Inductive method :=
| m_select | m_selectAll | m_selectAllKeys | m_selectIndex | m_delete
| m_insert | m_update | m_clear | m_count | m_close
| u_create | u_delete.

(** Values.  [VObj] is a plain data object (own properties in key order),
    [VRef] a reference to a mutable array of the heap, [VFun] a caller
    supplied upgrade callback given by the facade calls it makes. *)
#[warnings="-register-all"]
Inductive value :=
| VUndefined
| VNull
| VBool (b : bool)
| VNum (n : Z)
| VStr (s : string)
| VObj (fields : list (string * value))
| VRef (l : loc)
| VError (name : string) (message : string)
| VEvent (type : string) (target : value)
| VReq (r : nat)
| VDb (name : string)
| VStore (db : string) (name : string)
| VClient (db : value)
| VUpgrade (db : value)
| VMethod (m : method) (db : value)
| VPromise (p : nat)
| VFun (body : list uaction)
with uaction :=
| UCall (name : string) (args : list value)
| UThrow (v : value).

(** [typeof v === "function"] *)
Definition is_function (v : value) : bool :=
  match v with
  | VFun _ | VMethod _ _ => true
  | _ => false
  end.

(** JavaScript truthiness, as tested by [if (schema)]. *)
Definition truthy (v : value) : bool :=
  match v with
  | VUndefined | VNull => false
  | VBool b => b
  | VNum n => negb (Z.eqb n 0)
  | VStr s => negb (String.eqb s "")
  | _ => true
  end.

(** ToString, as the engine applies it to a name argument.  Arrays, which
    ToString joins, are not used as names in this development and read as
    any other object. *)
Definition to_string (v : value) : string :=
  match v with
  | VUndefined => "undefined"
  | VNull => "null"
  | VBool true => "true"
  | VBool false => "false"
  | VNum n => pretty n
  | VStr s => s
  | _ => "[object Object]"
  end.

(** Property read [o[k]] on a plain data object. *)
Fixpoint get_field (k : string) (fields : list (string * value)) : value :=
  match fields with
  | [] => VUndefined
  | (k', v) :: rest => if String.eqb k k' then v else get_field k rest
  end.

(** ** Keys of records *)

Inductive key :=
| KNum (n : Z)
| KStr (s : string).

#[global] Instance key_eq_dec : EqDecision key.
Proof. solve_decision. Defined.

#[global] Instance key_countable : Countable key.
Proof.
  refine (inj_countable'
            (fun k => match k with KNum n => inl n | KStr s => inr s end)
            (fun x => match x with inl n => KNum n | inr s => KStr s end) _).
  intros []; reflexivity.
Defined.

Definition to_key (v : value) : option key :=
  match v with
  | VNum n => Some (KNum n)
  | VStr s => Some (KStr s)
  | _ => None
  end.

Definition key_value (k : key) : value :=
  match k with
  | KNum n => VNum n
  | KStr s => VStr s
  end.

(** ** Promises *)

Inductive pstate :=
| Pending
| Fulfilled (v : value)
| Rejected (v : value).

Definition settled (s : pstate) : bool :=
  match s with
  | Pending => false
  | _ => true
  end.

(** ** Closures registered as notification handlers

    The arrow functions and the function expression that the two modules
    assign to [onsuccess], [onerror] and [onupgradeneeded], each with the
    variables it captures. *)
Inductive handler :=
| HResolveResult (p : nat) (r : nat)   (* () => resolve(request.result) *)
| HRejectError (p : nat) (r : nat)     (* () => reject(request.error) *)
| HReject (p : nat)                    (* (e) => reject(e) *)
| HResolveClient (p : nat)             (* (e) => resolve(client(e.target.result)) *)
| HUpgradeNeeded (p : nat) (fn : value).

(** ** The storage engine's data *)

Record index := {
  ix_keyPath : value;
  ix_options : value
}.

Record store := {
  st_options : value;
  st_records : gmap key value;
  st_indexes : gmap string index
}.

Record database := {
  db_version : Z;
  db_stores : gmap string store;
  db_closed : bool;
  db_onerror : option handler
}.

(** What the engine has decided for a request and will notify. *)
Inductive completion :=
| Succeeds (v : value)
| Fails (e : value).

Record request := {
  r_result : value;
  r_error : value;
  r_onsuccess : option handler;
  r_onerror : option handler;
  r_onupgradeneeded : option handler;
  r_pending : option completion
}.

(** The calls made to the engine, with their arguments. *)
Inductive call :=
| COpen (name version : value)
| CDeleteDatabase (name : value)
| CTransaction (db : string) (tables : list value) (mode : string)
| CObjectStore (db : string) (table : value)
| CGet (db table : string) (k : value)
| CGetAll (db table : string) (query count : value)
| CGetAllKeys (db table : string) (query count : value)
| CIndex (db table : string) (name : value)
| CIndexGet (db table index : string) (k : value)
| CDelete (db table : string) (k : value)
| CAdd (db table : string) (v : value) (k : option value)
| CPut (db table : string) (v : value) (k : option value)
| CClear (db table : string)
| CCount (db table : string) (query : value)
| CClose (db : string)
| CCreateObjectStore (db : string) (table options : value)
| CCreateIndex (db table : string) (args : list value)
| CDeleteObjectStore (db : string) (table : value).

(** ** The world *)

Record world := {
  w_heap : list (list value);
  w_dbs : gmap string database;
  w_reqs : list request;
  w_promises : list pstate;
  w_log : list call
}.

Definition empty_world : world :=
  {| w_heap := []; w_dbs := ∅; w_reqs := []; w_promises := []; w_log := [] |}.

Definition set_heap (h : list (list value)) (w : world) : world :=
  {| w_heap := h; w_dbs := w_dbs w; w_reqs := w_reqs w;
     w_promises := w_promises w; w_log := w_log w |}.

Definition set_dbs (d : gmap string database) (w : world) : world :=
  {| w_heap := w_heap w; w_dbs := d; w_reqs := w_reqs w;
     w_promises := w_promises w; w_log := w_log w |}.

Definition set_reqs (r : list request) (w : world) : world :=
  {| w_heap := w_heap w; w_dbs := w_dbs w; w_reqs := r;
     w_promises := w_promises w; w_log := w_log w |}.

Definition set_promises (p : list pstate) (w : world) : world :=
  {| w_heap := w_heap w; w_dbs := w_dbs w; w_reqs := w_reqs w;
     w_promises := p; w_log := w_log w |}.

Definition set_log (l : list call) (w : world) : world :=
  {| w_heap := w_heap w; w_dbs := w_dbs w; w_reqs := w_reqs w;
     w_promises := w_promises w; w_log := l |}.

(** ** Computations: a call returns or throws, and keeps its effects *)

Inductive outcome (A : Type) :=
| Return (a : A)
| Throw (e : value).
Arguments Return {A} a.
Arguments Throw {A} e.

Definition M (A : Type) : Type := world -> world * outcome A.

Definition ret {A} (a : A) : M A := fun w => (w, Return a).

Definition throw {A} (e : value) : M A := fun w => (w, Throw e).

Definition bind {A B} (c : M A) (k : A -> M B) : M B :=
  fun w =>
    match c w with
    | (w', Return a) => k a w'
    | (w', Throw e) => (w', Throw e)
    end.

Notation "'let!' x ':=' c 'in' k" := (bind c (fun x => k))
  (at level 10, x name, c at level 100, k at level 200).
Notation "c ';;;' k" := (bind c (fun _ => k))
  (at level 100, k at level 200, right associativity).

(** [try { c } catch (err) { h(err) }] *)
Definition try_catch {A} (c : M A) (h : value -> M A) : M A :=
  fun w =>
    match c w with
    | (w', Return a) => (w', Return a)
    | (w', Throw e) => h e w'
    end.

Definition modify (f : world -> world) : M unit := fun w => (f w, Return tt).

Definition log_call (c : call) : M unit :=
  modify (fun w => set_log (w_log w ++ [c]) w).

Definition type_error (message : string) : value := VError "TypeError" message.

Definition dom_exception (name : string) : value := VError name "".

Definition get_world : M world := fun w => (w, Return w).

(** ** Promise primitives

    [new Promise(executor)] allocates a pending promise; its [resolve] and
    [reject] functions act on a pending promise only.  The values that
    reach [resolve] here are results of the engine (structured clones,
    which hold no callable) and the frozen facade, none of which has a
    [then] method, so resolving is fulfilling. *)

Definition new_promise : M nat :=
  fun w => (set_promises (w_promises w ++ [Pending]) w,
            Return (length (w_promises w))).

Definition settle (p : nat) (s : pstate) (w : world) : world :=
  match w_promises w !! p with
  | Some Pending => set_promises (<[p := s]> (w_promises w)) w
  | _ => w
  end.

Definition resolve (p : nat) (v : value) : world -> world := settle p (Fulfilled v).

Definition reject (p : nat) (v : value) : world -> world := settle p (Rejected v).

Definition promise_state (w : world) (p : nat) : option pstate := w_promises w !! p.

(** ** Arrays of the caller

    An array literal allocates a fresh array; [a.unshift(x)] inserts [x] at
    position zero of the array itself, so every holder of the reference
    sees the change. *)

Definition alloc_array (elems : list value) : M loc :=
  fun w => (set_heap (w_heap w ++ [elems]) w, Return (length (w_heap w))).

Definition read_array (w : world) (l : loc) : option (list value) := w_heap w !! l.

Definition unshift (l : loc) (x : value) (w : world) : world :=
  match w_heap w !! l with
  | Some elems => set_heap (<[l := x :: elems]> (w_heap w)) w
  | None => w
  end.

(** ** Request handles *)

Definition new_request (pending : option completion) : M nat :=
  fun w =>
    (set_reqs (w_reqs w ++
                 [{| r_result := VUndefined; r_error := VNull;
                     r_onsuccess := None; r_onerror := None;
                     r_onupgradeneeded := None; r_pending := pending |}]) w,
     Return (length (w_reqs w))).

Definition set_onsuccess (r : nat) (h : handler) (w : world) : world :=
  set_reqs (alter (fun q =>
    {| r_result := r_result q; r_error := r_error q;
       r_onsuccess := Some h; r_onerror := r_onerror q;
       r_onupgradeneeded := r_onupgradeneeded q; r_pending := r_pending q |})
    r (w_reqs w)) w.

Definition set_onerror (r : nat) (h : handler) (w : world) : world :=
  set_reqs (alter (fun q =>
    {| r_result := r_result q; r_error := r_error q;
       r_onsuccess := r_onsuccess q; r_onerror := Some h;
       r_onupgradeneeded := r_onupgradeneeded q; r_pending := r_pending q |})
    r (w_reqs w)) w.

Definition set_onupgradeneeded (r : nat) (h : handler) (w : world) : world :=
  set_reqs (alter (fun q =>
    {| r_result := r_result q; r_error := r_error q;
       r_onsuccess := r_onsuccess q; r_onerror := r_onerror q;
       r_onupgradeneeded := Some h; r_pending := r_pending q |})
    r (w_reqs w)) w.

Definition set_result (r : nat) (v : value) (w : world) : world :=
  set_reqs (alter (fun q =>
    {| r_result := v; r_error := r_error q;
       r_onsuccess := r_onsuccess q; r_onerror := r_onerror q;
       r_onupgradeneeded := r_onupgradeneeded q; r_pending := None |})
    r (w_reqs w)) w.

Definition set_error (r : nat) (e : value) (w : world) : world :=
  set_reqs (alter (fun q =>
    {| r_result := r_result q; r_error := e;
       r_onsuccess := r_onsuccess q; r_onerror := r_onerror q;
       r_onupgradeneeded := r_onupgradeneeded q; r_pending := None |})
    r (w_reqs w)) w.

Definition request_result (w : world) (r : nat) : value :=
  match w_reqs w !! r with
  | Some q => r_result q
  | None => VUndefined
  end.

Definition request_error (w : world) (r : nat) : value :=
  match w_reqs w !! r with
  | Some q => r_error q
  | None => VUndefined
  end.

Definition set_db_onerror (db : string) (h : handler) (w : world) : world :=
  set_dbs (alter (fun d =>
    {| db_version := db_version d; db_stores := db_stores d;
       db_closed := db_closed d; db_onerror := Some h |}) db (w_dbs w)) w.

(** ** The host's storage engine *)

(** Modelled from the spec: the transactional storage engine of the host
    (the factory [indexedDB], connections, transactions, record
    collections and their indexes) is no code of this repository.  Its
    operations follow sections 3, 4.2, 4.3 and 6 of the specification: a
    record collection is a set of records addressed by one primary key,
    taken from a configured field path or supplied explicitly; adding
    fails on an existing primary key, putting creates or overwrites, and
    both fail when the record repeats, on a uniqueness-constrained index,
    the value of another record (sections 3 and 8); creating a collection
    fails when its name exists, removing one fails when it does not.
    Every operation is recorded in the call trace.  A field path is a
    single field name, a key is a number or a string, and the constraint
    flags of an index are stored as given. *)
Module Engine.

Record txn := { tx_db : string; tx_scope : list string; tx_mode : string }.

Record storeh := { sh_db : string; sh_name : string; sh_mode : string }.

Record indexh := { ih_store : storeh; ih_name : string }.

Definition lookup_store (w : world) (db table : string) : option store :=
  match w_dbs w !! db with
  | Some d => db_stores d !! table
  | None => None
  end.

Definition set_stores (s : gmap string store) (d : database) : database :=
  {| db_version := db_version d; db_stores := s;
     db_closed := db_closed d; db_onerror := db_onerror d |}.

Definition put_store (db table : string) (st : store) (w : world) : world :=
  set_dbs (alter (fun d => set_stores (<[table := st]> (db_stores d)) d) db (w_dbs w)) w.

Definition set_records (r : gmap key value) (st : store) : store :=
  {| st_options := st_options st; st_records := r; st_indexes := st_indexes st |}.

Definition set_indexes (i : gmap string index) (st : store) : store :=
  {| st_options := st_options st; st_records := st_records st; st_indexes := i |}.

(** The field a value is keyed by, read through a field path. *)
Definition extract_key (keyPath : value) (v : value) : option key :=
  match keyPath, v with
  | VStr f, VObj fields => to_key (get_field f fields)
  | _, _ => None
  end.

Definition key_path (options : value) : value :=
  match options with
  | VObj fields => get_field "keyPath" fields
  | _ => VUndefined
  end.

Definition primary_key (st : store) (v : value) (k : option value) : option key :=
  match k with
  | Some k => to_key k
  | None => extract_key (key_path (st_options st)) v
  end.

(** Modelled from the spec: the uniqueness constraint of a secondary
    index, the flag [unique] of the options the index was created with. *)
Definition index_unique (ix : index) : bool :=
  match ix_options ix with
  | VObj fields => truthy (get_field "unique" fields)
  | _ => false
  end.

(** The record [kv] is another record than the one of key [pk], and holds
    the key [ik] on the field path of [ix]. *)
Definition holds_index_key (ix : index) (pk ik : key) (kv : key * value) : bool :=
  negb (bool_decide (fst kv = pk)) &&
  bool_decide (extract_key (ix_keyPath ix) (snd kv) = Some ik).

(** Modelled from the spec: storing [v] under the primary key [pk] would
    break the uniqueness constraint of an index: on the field path of a
    unique index, [v] repeats the value of another record. *)
Definition unique_conflict (st : store) (pk : key) (v : value) : bool :=
  existsb (fun ni : string * index =>
             index_unique (snd ni) &&
             match extract_key (ix_keyPath (snd ni)) v with
             | Some ik => existsb (holds_index_key (snd ni) pk ik) (map_to_list (st_records st))
             | None => false
             end)
          (map_to_list (st_indexes st)).

(** [indexedDB.open(name, version)] *)
Definition open (name version : value) : M nat :=
  log_call (COpen name version) ;;;
  new_request None.

(** [indexedDB.deleteDatabase(name)] *)
Definition deleteDatabase (name : value) : M nat :=
  log_call (CDeleteDatabase name) ;;;
  modify (fun w => set_dbs (delete (to_string name) (w_dbs w)) w) ;;;
  new_request (Some (Succeeds VUndefined)).

(** [db.transaction([table], mode)] *)
Definition transaction (db : value) (tables : list value) (mode : string) : M txn :=
  match db with
  | VDb n =>
      log_call (CTransaction n tables mode) ;;;
      let! w := get_world in
      match w_dbs w !! n with
      | Some d =>
          if db_closed d then throw (dom_exception "InvalidStateError")
          else if forallb (fun t => bool_decide (is_Some (db_stores d !! to_string t))) tables
               then ret {| tx_db := n; tx_scope := to_string <$> tables; tx_mode := mode |}
               else throw (dom_exception "NotFoundError")
      | None => throw (dom_exception "InvalidStateError")
      end
  | _ => throw (type_error "db.transaction is not a function")
  end.

(** [tx.objectStore(table)] *)
Definition objectStore (tx : txn) (table : value) : M storeh :=
  log_call (CObjectStore (tx_db tx) table) ;;;
  if bool_decide (to_string table ∈ tx_scope tx)
  then ret {| sh_db := tx_db tx; sh_name := to_string table; sh_mode := tx_mode tx |}
  else throw (dom_exception "NotFoundError").

Definition the_store (sh : storeh) : M store :=
  let! w := get_world in
  match lookup_store w (sh_db sh) (sh_name sh) with
  | Some st => ret st
  | None => throw (dom_exception "InvalidStateError")
  end.

Definition writable (sh : storeh) : M unit :=
  if String.eqb (sh_mode sh) "readonly"
  then throw (dom_exception "ReadOnlyError")
  else ret tt.

(** The records a query selects: all of them without a query, the record
    of that key with one. *)
Definition select_records (st : store) (query : value) : option (list (key * value)) :=
  match query with
  | VUndefined | VNull => Some (map_to_list (st_records st))
  | _ =>
      match to_key query with
      | Some k =>
          match st_records st !! k with
          | Some v => Some [(k, v)]
          | None => Some []
          end
      | None => None
      end
  end.

Definition limit {A} (count : value) (l : list A) : list A :=
  match count with
  | VNum n => if Z.ltb 0 n then take (Z.to_nat n) l else l
  | _ => l
  end.

(** [store.get(key)] *)
Definition get (sh : storeh) (k : value) : M nat :=
  log_call (CGet (sh_db sh) (sh_name sh) k) ;;;
  let! st := the_store sh in
  match to_key k with
  | Some pk => new_request (Some (Succeeds (default VUndefined (st_records st !! pk))))
  | None => throw (dom_exception "DataError")
  end.

(** [store.getAll(query, count)] *)
Definition getAll (sh : storeh) (query count : value) : M nat :=
  log_call (CGetAll (sh_db sh) (sh_name sh) query count) ;;;
  let! st := the_store sh in
  match select_records st query with
  | Some rs =>
      let! a := alloc_array (limit count (snd <$> rs)) in
      new_request (Some (Succeeds (VRef a)))
  | None => throw (dom_exception "DataError")
  end.

(** [store.getAllKeys(query, count)] *)
Definition getAllKeys (sh : storeh) (query count : value) : M nat :=
  log_call (CGetAllKeys (sh_db sh) (sh_name sh) query count) ;;;
  let! st := the_store sh in
  match select_records st query with
  | Some rs =>
      let! a := alloc_array (limit count ((fun kv => key_value (fst kv)) <$> rs)) in
      new_request (Some (Succeeds (VRef a)))
  | None => throw (dom_exception "DataError")
  end.

(** [store.index(name)] *)
Definition index (sh : storeh) (name : value) : M indexh :=
  log_call (CIndex (sh_db sh) (sh_name sh) name) ;;;
  let! st := the_store sh in
  match st_indexes st !! to_string name with
  | Some _ => ret {| ih_store := sh; ih_name := to_string name |}
  | None => throw (dom_exception "NotFoundError")
  end.

(** [index.get(key)]: the first record whose indexed field is the key. *)
Definition index_get (ih : indexh) (k : value) : M nat :=
  log_call (CIndexGet (sh_db (ih_store ih)) (sh_name (ih_store ih)) (ih_name ih) k) ;;;
  let! st := the_store (ih_store ih) in
  match st_indexes st !! ih_name ih, to_key k with
  | Some ix, Some ik =>
      let hits := filter (fun kv => extract_key (ix_keyPath ix) (snd kv) = Some ik)
                         (map_to_list (st_records st)) in
      new_request (Some (Succeeds (default VUndefined (snd <$> head hits))))
  | Some _, None => throw (dom_exception "DataError")
  | None, _ => throw (dom_exception "InvalidStateError")
  end.

(** [store.delete(key)] *)
Definition delete (sh : storeh) (k : value) : M nat :=
  log_call (CDelete (sh_db sh) (sh_name sh) k) ;;;
  let! st := the_store sh in
  writable sh ;;;
  match to_key k with
  | Some pk =>
      modify (put_store (sh_db sh) (sh_name sh)
                (set_records (base.delete pk (st_records st)) st)) ;;;
      new_request (Some (Succeeds VUndefined))
  | None => throw (dom_exception "DataError")
  end.

(** Modelled from the spec: [store.add(value)] and [store.add(value, key)];
    the request fails when a record with the same primary key exists, and
    when the record repeats a value on a unique index. *)
Definition add (sh : storeh) (v : value) (k : option value) : M nat :=
  log_call (CAdd (sh_db sh) (sh_name sh) v k) ;;;
  let! st := the_store sh in
  writable sh ;;;
  match primary_key st v k with
  | Some pk =>
      match st_records st !! pk with
      | Some _ => new_request (Some (Fails (dom_exception "ConstraintError")))
      | None =>
          if unique_conflict st pk v
          then new_request (Some (Fails (dom_exception "ConstraintError")))
          else
            modify (put_store (sh_db sh) (sh_name sh)
                      (set_records (<[pk := v]> (st_records st)) st)) ;;;
            new_request (Some (Succeeds (key_value pk)))
      end
  | None => throw (dom_exception "DataError")
  end.

(** Modelled from the spec: [store.put(value)] and [store.put(value, key)];
    the record is created or overwritten; the request fails when the
    record repeats, on a unique index, the value of another record. *)
Definition put (sh : storeh) (v : value) (k : option value) : M nat :=
  log_call (CPut (sh_db sh) (sh_name sh) v k) ;;;
  let! st := the_store sh in
  writable sh ;;;
  match primary_key st v k with
  | Some pk =>
      if unique_conflict st pk v
      then new_request (Some (Fails (dom_exception "ConstraintError")))
      else
        modify (put_store (sh_db sh) (sh_name sh)
                  (set_records (<[pk := v]> (st_records st)) st)) ;;;
        new_request (Some (Succeeds (key_value pk)))
  | None => throw (dom_exception "DataError")
  end.

(** [store.clear()] *)
Definition clear (sh : storeh) : M nat :=
  log_call (CClear (sh_db sh) (sh_name sh)) ;;;
  let! st := the_store sh in
  writable sh ;;;
  modify (put_store (sh_db sh) (sh_name sh) (set_records ∅ st)) ;;;
  new_request (Some (Succeeds VUndefined)).

(** [store.count(query)] *)
Definition count (sh : storeh) (query : value) : M nat :=
  log_call (CCount (sh_db sh) (sh_name sh) query) ;;;
  let! st := the_store sh in
  match select_records st query with
  | Some rs => new_request (Some (Succeeds (VNum (Z.of_nat (length rs)))))
  | None => throw (dom_exception "DataError")
  end.

(** [db.close()] *)
Definition close (db : value) : M value :=
  match db with
  | VDb n =>
      log_call (CClose n) ;;;
      modify (fun w => set_dbs (alter (fun d =>
        {| db_version := db_version d; db_stores := db_stores d;
           db_closed := true; db_onerror := db_onerror d |}) n (w_dbs w)) w) ;;;
      ret VUndefined
  | _ => throw (type_error "db.close is not a function")
  end.

(** Modelled from the spec: [db.createObjectStore(table, options)]; fails
    when a collection of that name exists. *)
Definition createObjectStore (db : value) (table options : value) : M storeh :=
  match db with
  | VDb n =>
      log_call (CCreateObjectStore n table options) ;;;
      let! w := get_world in
      match w_dbs w !! n with
      | Some d =>
          match db_stores d !! to_string table with
          | Some _ => throw (dom_exception "ConstraintError")
          | None =>
              modify (put_store n (to_string table)
                        {| st_options := options; st_records := ∅; st_indexes := ∅ |}) ;;;
              ret {| sh_db := n; sh_name := to_string table; sh_mode := "versionchange" |}
          end
      | None => throw (dom_exception "InvalidStateError")
      end
  | _ => throw (type_error "db.createObjectStore is not a function")
  end.

(** Modelled from the spec: [store.createIndex(name, keyPath, options)],
    called with the argument list [args]; arguments past the third are
    ignored. *)
Definition createIndex (sh : storeh) (args : list value) : M unit :=
  log_call (CCreateIndex (sh_db sh) (sh_name sh) args) ;;;
  let! st := the_store sh in
  match args with
  | name :: keyPath :: rest =>
      match st_indexes st !! to_string name with
      | Some _ => throw (dom_exception "ConstraintError")
      | None =>
          modify (put_store (sh_db sh) (sh_name sh)
                    (set_indexes (<[to_string name :=
                                     {| ix_keyPath := keyPath;
                                        ix_options := default VUndefined (head rest) |}]>
                                    (st_indexes st)) st))
      end
  | _ => throw (type_error "2 arguments required")
  end.

(** Modelled from the spec: [db.deleteObjectStore(table)]; fails when no
    collection of that name exists. *)
Definition deleteObjectStore (db : value) (table : value) : M unit :=
  match db with
  | VDb n =>
      log_call (CDeleteObjectStore n table) ;;;
      let! w := get_world in
      match w_dbs w !! n with
      | Some d =>
          match db_stores d !! to_string table with
          | Some _ =>
              modify (fun w => set_dbs (alter (fun d =>
                set_stores (base.delete (to_string table) (db_stores d)) d) n (w_dbs w)) w)
          | None => throw (dom_exception "NotFoundError")
          end
      | None => throw (dom_exception "InvalidStateError")
      end
  | _ => throw (type_error "db.deleteObjectStore is not a function")
  end.

End Engine.

(** ** Objects with property attributes, and [Object.freeze] *)

Record property := {
  p_value : value;
  p_writable : bool;
  p_enumerable : bool;
  p_configurable : bool
}.

Record jsobject := {
  o_props : list (string * property);
  o_extensible : bool
}.

Definition data_property (v : value) : property :=
  {| p_value := v; p_writable := true; p_enumerable := true; p_configurable := true |}.

(** An object literal [{k1: v1, ...}] *)
Definition object_literal (fields : list (string * value)) : jsobject :=
  {| o_props := (fun kv => (fst kv, data_property (snd kv))) <$> fields;
     o_extensible := true |}.

Definition freeze_property (p : property) : property :=
  {| p_value := p_value p; p_writable := false;
     p_enumerable := p_enumerable p; p_configurable := false |}.

(** [Object.freeze(o)] *)
Definition freeze (o : jsobject) : jsobject :=
  {| o_props := (fun kp => (fst kp, freeze_property (snd kp))) <$> o_props o;
     o_extensible := false |}.

Fixpoint prop_lookup (k : string) (props : list (string * property)) : option property :=
  match props with
  | [] => None
  | (k', p) :: rest => if String.eqb k k' then Some p else prop_lookup k rest
  end.

Fixpoint prop_update (k : string) (f : property -> property)
    (props : list (string * property)) : list (string * property) :=
  match props with
  | [] => []
  | (k', p) :: rest =>
      if String.eqb k k' then (k', f p) :: rest else (k', p) :: prop_update k f rest
  end.

Fixpoint prop_remove (k : string) (props : list (string * property)) : list (string * property) :=
  match props with
  | [] => []
  | (k', p) :: rest =>
      if String.eqb k k' then rest else (k', p) :: prop_remove k rest
  end.

Definition own_keys (o : jsobject) : list string := fst <$> o_props o.

(** What a program can try on an object it holds. *)
Inductive mutation :=
| MutSet (k : string) (v : value)          (* o[k] = v *)
| MutDelete (k : string)                   (* delete o[k] *)
| MutDefine (k : string) (p : property).   (* Object.defineProperty(o, k, p) *)

Definition with_value (v : value) (p : property) : property :=
  {| p_value := v; p_writable := p_writable p;
     p_enumerable := p_enumerable p; p_configurable := p_configurable p |}.

(** The object after an attempted mutation; an attempt the object refuses
    (a [TypeError] in strict code) leaves it as it was. *)
Definition apply_mutation (m : mutation) (o : jsobject) : jsobject :=
  match m with
  | MutSet k v =>
      match prop_lookup k (o_props o) with
      | Some p =>
          if p_writable p
          then {| o_props := prop_update k (with_value v) (o_props o);
                  o_extensible := o_extensible o |}
          else o
      | None =>
          if o_extensible o
          then {| o_props := o_props o ++ [(k, data_property v)];
                  o_extensible := o_extensible o |}
          else o
      end
  | MutDelete k =>
      match prop_lookup k (o_props o) with
      | Some p =>
          if p_configurable p
          then {| o_props := prop_remove k (o_props o); o_extensible := o_extensible o |}
          else o
      | None => o
      end
  | MutDefine k d =>
      match prop_lookup k (o_props o) with
      | Some p =>
          if p_configurable p
          then {| o_props := prop_update k (fun _ => d) (o_props o);
                  o_extensible := o_extensible o |}
          else if p_writable p && negb (p_configurable d)
                  && Bool.eqb (p_enumerable d) (p_enumerable p)
          then {| o_props := prop_update k (fun _ => d) (o_props o);
                  o_extensible := o_extensible o |}
          else o
      | None =>
          if o_extensible o
          then {| o_props := o_props o ++ [(k, d)]; o_extensible := o_extensible o |}
          else o
      end
  end.

Definition apply_mutations (ms : list mutation) (o : jsobject) : jsobject :=
  fold_left (fun o m => apply_mutation m o) ms o.

(** ** Notifications of the engine *)

Inductive notification :=
| NSuccess (r : nat) (v : value)
| NError (r : nat) (e : value)
| NUpgradeNeeded (r : nat) (name : string) (version : Z)
| NDbError (db : string) (ev : value).

(** The engine opens the connection it hands to an upgrade. *)
Definition ensure_database (name : string) (version : Z) (w : world) : world :=
  match w_dbs w !! name with
  | Some d =>
      set_dbs (<[name := {| db_version := version; db_stores := db_stores d;
                            db_closed := false; db_onerror := db_onerror d |}]> (w_dbs w)) w
  | None =>
      set_dbs (<[name := {| db_version := version; db_stores := ∅;
                            db_closed := false; db_onerror := None |}]> (w_dbs w)) w
  end.

Definition nth_arg (i : nat) (args : list value) : value := nth i args VUndefined.

Fixpoint for_each {A} (l : list A) (f : A -> M unit) : M unit :=
  match l with
  | [] => ret tt
  | x :: rest => f x ;;; for_each rest f
  end.

(** [Object.keys(o)]: the own enumerable string keys, in order, of a data
    object, an array or a string.  The other values have none here: the
    host objects of this model (errors, events, handles, facades) are not
    used as schemas. *)
Definition object_keys (o : value) : M (list string) :=
  match o with
  | VObj fields => ret (fst <$> fields)
  | VRef l =>
      let! w := get_world in
      ret ((fun i : nat => pretty i) <$> seq 0 (length (default [] (read_array w l))))
  | VStr s => ret ((fun i : nat => pretty i) <$> seq 0 (String.length s))
  | _ => ret []
  end.

(** [o[k]] *)
Definition get_prop (o : value) (k : string) : M value :=
  match o with
  | VObj fields => ret (get_field k fields)
  | VRef l =>
      let! w := get_world in
      let elems := default [] (read_array w l) in
      ret (default VUndefined
             (snd <$> head (filter (fun iv => pretty (fst iv) = k) (imap pair elems))))
  | VStr s =>
      ret (default VUndefined
             (snd <$> head (filter (fun iv => pretty (fst iv) = k)
                                   (imap (fun i a => (i, VStr (String a EmptyString)))
                                         (String.list_ascii_of_string s)))))
  | _ => ret VUndefined
  end.

(** [a.unshift(x)] on whatever [a] is. *)
Definition call_unshift (a : value) (x : value) : M unit :=
  match a with
  | VRef l => modify (unshift l x)
  | VUndefined | VNull => throw (type_error "Cannot read properties of undefined")
  | _ => throw (type_error "unshift is not a function")
  end.

(** The argument list of a spread [...a]. *)
Definition spread (a : value) : M (list value) :=
  match a with
  | VRef l =>
      let! w := get_world in
      ret (default [] (read_array w l))
  | VStr s => ret ((fun c => VStr (String c EmptyString)) <$> String.list_ascii_of_string s)
  | _ => throw (type_error "not iterable")
  end.

(** ** Delivery of notifications

    The host's event dispatch, for a module whose registered closures are
    run by [run_handler]: the engine updates the handle, then the handler
    registered for the event runs. *)
Section Dispatch.

Variable run_handler : handler -> value -> world -> world.

Definition dispatch (h : option handler) (ev : value) (w : world) : world :=
  match h with
  | Some h => run_handler h ev w
  | None => w
  end.

Definition notify_with (n : notification) (w : world) : world :=
  match n with
  | NSuccess r v =>
      let w1 := set_result r v w in
      dispatch (w_reqs w1 !! r ≫= r_onsuccess) (VEvent "success" (VReq r)) w1
  | NError r e =>
      let w1 := set_error r e w in
      dispatch (w_reqs w1 !! r ≫= r_onerror) (VEvent "error" (VReq r)) w1
  | NUpgradeNeeded r name version =>
      let w1 := set_result r (VDb name) (ensure_database name version w) in
      dispatch (w_reqs w1 !! r ≫= r_onupgradeneeded) (VEvent "upgradeneeded" (VReq r)) w1
  | NDbError db ev =>
      dispatch (w_dbs w !! db ≫= db_onerror) ev w
  end.

Definition run_with (ns : list notification) (w : world) : world :=
  fold_left (fun w n => notify_with n w) ns w.

(** The engine notifies the outcome it decided for a data request. *)
Definition deliver_with (r : nat) (w : world) : world :=
  match w_reqs w !! r ≫= r_pending with
  | Some (Succeeds v) => notify_with (NSuccess r v) w
  | Some (Fails e) => notify_with (NError r e) w
  | None => w
  end.

End Dispatch.

(** ** src/idb.js *)
Module Idb.

(** [promisify]: the executor runs at once and registers the two handlers. *)
Definition promisify (request : nat) : M nat :=
  let! p := new_promise in
  modify (set_onsuccess request (HResolveResult p request)) ;;;
  modify (set_onerror request (HRejectError p request)) ;;;
  ret p.

Definition client_select (db table k : value) : M nat :=
  let! tx := Engine.transaction db [table] "readonly" in
  let! st := Engine.objectStore tx table in
  let! r := Engine.get st k in
  promisify r.

Definition client_selectAll (db table query count : value) : M nat :=
  let! tx := Engine.transaction db [table] "readonly" in
  let! st := Engine.objectStore tx table in
  let! r := Engine.getAll st query count in
  promisify r.

Definition client_selectAllKeys (db table query count : value) : M nat :=
  let! tx := Engine.transaction db [table] "readonly" in
  let! st := Engine.objectStore tx table in
  let! r := Engine.getAllKeys st query count in
  promisify r.

Definition client_selectIndex (db table index k : value) : M nat :=
  let! tx := Engine.transaction db [table] "readonly" in
  let! st := Engine.objectStore tx table in
  let! ix := Engine.index st index in
  let! r := Engine.index_get ix k in
  promisify r.

Definition client_delete (db table k : value) : M nat :=
  let! tx := Engine.transaction db [table] "readwrite" in
  let! st := Engine.objectStore tx table in
  let! r := Engine.delete st k in
  promisify r.

Definition client_insert (db table v k : value) : M nat :=
  let! r :=
    match k with
    | VUndefined =>
        let! tx := Engine.transaction db [table] "readwrite" in
        let! st := Engine.objectStore tx table in
        Engine.add st v None
    | _ =>
        let! tx := Engine.transaction db [table] "readwrite" in
        let! st := Engine.objectStore tx table in
        Engine.add st v (Some k)
    end in
  promisify r.

Definition client_update (db table v k : value) : M nat :=
  let! r :=
    match k with
    | VUndefined =>
        let! tx := Engine.transaction db [table] "readwrite" in
        let! st := Engine.objectStore tx table in
        Engine.put st v None
    | _ =>
        let! tx := Engine.transaction db [table] "readwrite" in
        let! st := Engine.objectStore tx table in
        Engine.put st v (Some k)
    end in
  promisify r.

Definition client_clear (db table : value) : M nat :=
  let! tx := Engine.transaction db [table] "readwrite" in
  let! st := Engine.objectStore tx table in
  let! r := Engine.clear st in
  promisify r.

Definition client_count (db table query : value) : M nat :=
  let! tx := Engine.transaction db [table] "readonly" in
  let! st := Engine.objectStore tx table in
  let! r := Engine.count st query in
  promisify r.

Definition client_close (db : value) : M value := Engine.close db.

(** [client(db)]: the frozen object literal, properties in source order. *)
Definition client (db : value) : jsobject :=
  freeze (object_literal
    [("select", VMethod m_select db);
     ("selectAll", VMethod m_selectAll db);
     ("selectAllKeys", VMethod m_selectAllKeys db);
     ("selectIndex", VMethod m_selectIndex db);
     ("delete", VMethod m_delete db);
     ("insert", VMethod m_insert db);
     ("update", VMethod m_update db);
     ("clear", VMethod m_clear db);
     ("count", VMethod m_count db);
     ("close", VMethod m_close db)]).

Definition upgrade_create (db table options schema : value) : M value :=
  let! store_ := Engine.createObjectStore db table options in
  (if truthy schema
   then
     let! keys := object_keys schema in
     for_each keys (fun k =>
       let! a := get_prop schema k in
       call_unshift a (VStr k) ;;;
       let! a' := get_prop schema k in
       let! args := spread a' in
       Engine.createIndex store_ args)
   else ret tt) ;;;
  ret (VStore (Engine.sh_db store_) (Engine.sh_name store_)).

Definition upgrade_delete (db table : value) : M value :=
  Engine.deleteObjectStore db table ;;;
  ret VUndefined.

(** [upgrade(db)] *)
Definition upgrade (db : value) : jsobject :=
  freeze (object_literal
    [("create", VMethod u_create db);
     ("delete", VMethod u_delete db)]).

Definition idb_open (name version fn : value) : M nat :=
  let version := match version with VUndefined => VNum 1 | _ => version end in
  let fn := match fn with VUndefined => VFun [] | _ => fn end in
  let fn := if is_function version then version else fn in
  let version := if is_function version then VNum 1 else version in
  let! request := Engine.open name version in
  let! p := new_promise in
  modify (set_onerror request (HReject p)) ;;;
  modify (set_onsuccess request (HResolveClient p)) ;;;
  modify (set_onupgradeneeded request (HUpgradeNeeded p fn)) ;;;
  ret p.

Definition idb_delete (name : value) : M nat :=
  let! r := Engine.deleteDatabase name in
  promisify r.

(** Calling the closure a facade property holds. *)
Definition invoke (m : method) (db : value) (args : list value) : M value :=
  let promise (c : M nat) : M value := let! p := c in ret (VPromise p) in
  match m with
  | m_select => promise (client_select db (nth_arg 0 args) (nth_arg 1 args))
  | m_selectAll =>
      promise (client_selectAll db (nth_arg 0 args) (nth_arg 1 args) (nth_arg 2 args))
  | m_selectAllKeys =>
      promise (client_selectAllKeys db (nth_arg 0 args) (nth_arg 1 args) (nth_arg 2 args))
  | m_selectIndex =>
      promise (client_selectIndex db (nth_arg 0 args) (nth_arg 1 args) (nth_arg 2 args))
  | m_delete => promise (client_delete db (nth_arg 0 args) (nth_arg 1 args))
  | m_insert => promise (client_insert db (nth_arg 0 args) (nth_arg 1 args) (nth_arg 2 args))
  | m_update => promise (client_update db (nth_arg 0 args) (nth_arg 1 args) (nth_arg 2 args))
  | m_clear => promise (client_clear db (nth_arg 0 args))
  | m_count => promise (client_count db (nth_arg 0 args) (nth_arg 1 args))
  | m_close => client_close db
  | u_create => upgrade_create db (nth_arg 0 args) (nth_arg 1 args) (nth_arg 2 args)
  | u_delete => upgrade_delete db (nth_arg 0 args)
  end.

(** [o.name(args)] on a facade object. *)
Definition call_method (o : jsobject) (name : string) (args : list value) : M value :=
  match prop_lookup name (o_props o) with
  | Some {| p_value := VMethod m db |} => invoke m db args
  | _ => throw (type_error (name +:+ " is not a function"))
  end.

(** The upgrade callback at work on the facade it is given. *)
Definition run_action (u : jsobject) (a : uaction) : M unit :=
  match a with
  | UCall name args => call_method u name args ;;; ret tt
  | UThrow v => throw v
  end.

(** [fn(e, upgrade(db))] *)
Definition call_function (fn : value) (e : value) (db : value) : M unit :=
  match fn with
  | VFun body => for_each body (run_action (upgrade db))
  | VMethod m d => invoke m d [e; VUpgrade db] ;;; ret tt
  | _ => throw (type_error "fn is not a function")
  end.

(** The body of each registered closure, run on the event it receives. *)
Definition run_handler (h : handler) (ev : value) (w : world) : world :=
  match h with
  | HResolveResult p r => resolve p (request_result w r) w
  | HRejectError p r => reject p (request_error w r) w
  | HReject p => reject p ev w
  | HResolveClient p =>
      match ev with
      | VEvent _ (VReq r) => resolve p (VClient (request_result w r)) w
      | _ => w
      end
  | HUpgradeNeeded p fn =>
      match ev with
      | VEvent _ (VReq r) =>
          match request_result w r with
          | VDb n =>
              let w1 := set_db_onerror n (HReject p) w in
              match call_function fn ev (VDb n) w1 with
              | (w2, Return _) => w2
              | (w2, Throw err) => reject p err w2
              end
          | _ => w
          end
      | _ => w
      end
  end.

Definition notify : notification -> world -> world := notify_with run_handler.

Definition run : list notification -> world -> world := run_with run_handler.

Definition deliver : nat -> world -> world := deliver_with run_handler.

End Idb.

(** ** The module of src/unnamed/part_000 *)
Module Part000.

(** [assertName(name, label)] *)
Definition assertName (name : value) (label : string) : M unit :=
  match name with
  | VStr s =>
      if String.eqb s ""
      then throw (type_error (label +:+ " must be a non-empty string"))
      else ret tt
  | _ => throw (type_error (label +:+ " must be a non-empty string"))
  end.

Definition promisify (request : nat) : M nat :=
  let! p := new_promise in
  modify (set_onsuccess request (HResolveResult p request)) ;;;
  modify (set_onerror request (HRejectError p request)) ;;;
  ret p.

Definition client_clear (db table : value) : M nat :=
  assertName table "Table name" ;;;
  let! tx := Engine.transaction db [table] "readwrite" in
  let! st := Engine.objectStore tx table in
  let! r := Engine.clear st in
  promisify r.

Definition client_close (db : value) : M value := Engine.close db.

Definition client_count (db table query : value) : M nat :=
  assertName table "Table name" ;;;
  let! tx := Engine.transaction db [table] "readonly" in
  let! st := Engine.objectStore tx table in
  let! r := Engine.count st query in
  promisify r.

Definition client_delete (db table k : value) : M nat :=
  assertName table "Table name" ;;;
  let! tx := Engine.transaction db [table] "readwrite" in
  let! st := Engine.objectStore tx table in
  let! r := Engine.delete st k in
  promisify r.

Definition client_select (db table k : value) : M nat :=
  assertName table "Table name" ;;;
  let! tx := Engine.transaction db [table] "readonly" in
  let! st := Engine.objectStore tx table in
  let! r := Engine.get st k in
  promisify r.

Definition client_selectAll (db table query count : value) : M nat :=
  assertName table "Table name" ;;;
  let! tx := Engine.transaction db [table] "readonly" in
  let! st := Engine.objectStore tx table in
  let! r := Engine.getAll st query count in
  promisify r.

Definition client_selectAllKeys (db table query count : value) : M nat :=
  assertName table "Table name" ;;;
  let! tx := Engine.transaction db [table] "readonly" in
  let! st := Engine.objectStore tx table in
  let! r := Engine.getAllKeys st query count in
  promisify r.

Definition client_selectIndex (db table index k : value) : M nat :=
  assertName table "Table name" ;;;
  let! tx := Engine.transaction db [table] "readonly" in
  let! st := Engine.objectStore tx table in
  let! ix := Engine.index st index in
  let! r := Engine.index_get ix k in
  promisify r.

Definition client_insert (db table v k : value) : M nat :=
  assertName table "Table name" ;;;
  let! tx := Engine.transaction db [table] "readwrite" in
  let! st := Engine.objectStore tx table in
  let! request :=
    match k with
    | VUndefined => Engine.add st v None
    | _ => Engine.add st v (Some k)
    end in
  promisify request.

Definition client_update (db table v k : value) : M nat :=
  assertName table "Table name" ;;;
  let! tx := Engine.transaction db [table] "readwrite" in
  let! st := Engine.objectStore tx table in
  let! request :=
    match k with
    | VUndefined => Engine.put st v None
    | _ => Engine.put st v (Some k)
    end in
  promisify request.

(** [client(db)]: the frozen object literal, properties in source order. *)
Definition client (db : value) : jsobject :=
  freeze (object_literal
    [("clear", VMethod m_clear db);
     ("close", VMethod m_close db);
     ("count", VMethod m_count db);
     ("delete", VMethod m_delete db);
     ("select", VMethod m_select db);
     ("selectAll", VMethod m_selectAll db);
     ("selectAllKeys", VMethod m_selectAllKeys db);
     ("selectIndex", VMethod m_selectIndex db);
     ("insert", VMethod m_insert db);
     ("update", VMethod m_update db)]).

Definition upgrade_create (db table options schema : value) : M value :=
  assertName table "Object store name" ;;;
  let! store_ := Engine.createObjectStore db table options in
  (if truthy schema
   then
     let! keys := object_keys schema in
     for_each keys (fun k =>
       let! a := get_prop schema k in
       call_unshift a (VStr k) ;;;
       let! a' := get_prop schema k in
       let! args := spread a' in
       Engine.createIndex store_ args)
   else ret tt) ;;;
  ret (VStore (Engine.sh_db store_) (Engine.sh_name store_)).

Definition upgrade_delete (db table : value) : M value :=
  assertName table "Object store name" ;;;
  Engine.deleteObjectStore db table ;;;
  ret VUndefined.

(** [upgrade(db)] *)
Definition upgrade (db : value) : jsobject :=
  freeze (object_literal
    [("create", VMethod u_create db);
     ("delete", VMethod u_delete db)]).

Definition idb_delete (name : value) : M nat :=
  assertName name "Database name" ;;;
  let! r := Engine.deleteDatabase name in
  promisify r.

Definition idb_open (name version fn : value) : M nat :=
  let version := match version with VUndefined => VNum 1 | _ => version end in
  let fn := match fn with VUndefined => VFun [] | _ => fn end in
  let fn := if is_function version then version else fn in
  let version := if is_function version then VNum 1 else version in
  assertName name "Database name" ;;;
  let! request := Engine.open name version in
  let! p := new_promise in
  modify (set_onerror request (HReject p)) ;;;
  modify (set_onsuccess request (HResolveClient p)) ;;;
  modify (set_onupgradeneeded request (HUpgradeNeeded p fn)) ;;;
  ret p.

(** Calling the closure a facade property holds. *)
Definition invoke (m : method) (db : value) (args : list value) : M value :=
  let promise (c : M nat) : M value := let! p := c in ret (VPromise p) in
  match m with
  | m_select => promise (client_select db (nth_arg 0 args) (nth_arg 1 args))
  | m_selectAll =>
      promise (client_selectAll db (nth_arg 0 args) (nth_arg 1 args) (nth_arg 2 args))
  | m_selectAllKeys =>
      promise (client_selectAllKeys db (nth_arg 0 args) (nth_arg 1 args) (nth_arg 2 args))
  | m_selectIndex =>
      promise (client_selectIndex db (nth_arg 0 args) (nth_arg 1 args) (nth_arg 2 args))
  | m_delete => promise (client_delete db (nth_arg 0 args) (nth_arg 1 args))
  | m_insert => promise (client_insert db (nth_arg 0 args) (nth_arg 1 args) (nth_arg 2 args))
  | m_update => promise (client_update db (nth_arg 0 args) (nth_arg 1 args) (nth_arg 2 args))
  | m_clear => promise (client_clear db (nth_arg 0 args))
  | m_count => promise (client_count db (nth_arg 0 args) (nth_arg 1 args))
  | m_close => client_close db
  | u_create => upgrade_create db (nth_arg 0 args) (nth_arg 1 args) (nth_arg 2 args)
  | u_delete => upgrade_delete db (nth_arg 0 args)
  end.

(** [o.name(args)] on a facade object. *)
Definition call_method (o : jsobject) (name : string) (args : list value) : M value :=
  match prop_lookup name (o_props o) with
  | Some {| p_value := VMethod m db |} => invoke m db args
  | _ => throw (type_error (name +:+ " is not a function"))
  end.

Definition run_action (u : jsobject) (a : uaction) : M unit :=
  match a with
  | UCall name args => call_method u name args ;;; ret tt
  | UThrow v => throw v
  end.

(** [fn(e, upgrade(db))] *)
Definition call_function (fn : value) (e : value) (db : value) : M unit :=
  match fn with
  | VFun body => for_each body (run_action (upgrade db))
  | VMethod m d => invoke m d [e; VUpgrade db] ;;; ret tt
  | _ => throw (type_error "fn is not a function")
  end.

(** The body of each registered closure, run on the event it receives. *)
Definition run_handler (h : handler) (ev : value) (w : world) : world :=
  match h with
  | HResolveResult p r => resolve p (request_result w r) w
  | HRejectError p r => reject p (request_error w r) w
  | HReject p => reject p ev w
  | HResolveClient p =>
      match ev with
      | VEvent _ (VReq r) => resolve p (VClient (request_result w r)) w
      | _ => w
      end
  | HUpgradeNeeded p fn =>
      match ev with
      | VEvent _ (VReq r) =>
          match request_result w r with
          | VDb n =>
              let w1 := set_db_onerror n (HReject p) w in
              match call_function fn ev (VDb n) w1 with
              | (w2, Return _) => w2
              | (w2, Throw err) => reject p err w2
              end
          | _ => w
          end
      | _ => w
      end
  end.

Definition notify : notification -> world -> world := notify_with run_handler.

Definition run : list notification -> world -> world := run_with run_handler.

Definition deliver : nat -> world -> world := deliver_with run_handler.

End Part000.

(** ** Notions used by the statements *)

(** The names [assertName] accepts. *)
Definition valid_name (name : value) : bool :=
  match name with
  | VStr s => negb (String.eqb s "")
  | _ => false
  end.

(** The optional key of [insert] and [update] as the engine receives it. *)
Definition key_arg (k : value) : option value :=
  match k with
  | VUndefined => None
  | _ => Some k
  end.

(** [w'] has the promises of [w], unchanged, and maybe new ones. *)
Definition extends (w w' : world) : Prop :=
  exists extra, w_promises w' = w_promises w ++ extra.

(** A computation that settles no promise. *)
Definition mono {A} (c : M A) : Prop :=
  forall w w' o, c w = (w', o) -> extends w w'.

(** Every promise settled in [w] has the same outcome in [w']. *)
Definition stable (w w' : world) : Prop :=
  forall p s, w_promises w !! p = Some s -> settled s = true ->
              w_promises w' !! p = Some s.

Definition is_settled (w : world) (p : nat) : bool :=
  match w_promises w !! p with
  | Some s => settled s
  | None => false
  end.

Definition newly_settled (p : nat) (w w' : world) : bool :=
  negb (is_settled w p) && is_settled w' p.

(** How many notifications of a sequence settle promise [p]. *)
Fixpoint settlements (notify : notification -> world -> world)
    (p : nat) (ns : list notification) (w : world) : nat :=
  match ns with
  | [] => 0%nat
  | n :: rest =>
      ((if newly_settled p w (notify n w) then 1 else 0)
       + settlements notify p rest (notify n w))%nat
  end.

(** A call through the facade, then the engine's notification for the
    request the call placed: the world reached and the promise's state. *)
Definition completed (deliver : nat -> world -> world) (c : M nat) (w : world)
    : world * option pstate :=
  match c w with
  | (w1, Return p) =>
      let w2 := deliver (length (w_reqs w)) w1 in
      (w2, w_promises w2 !! p)
  | (w1, Throw _) => (w1, None)
  end.

(** The records of a collection. *)
Definition records (w : world) (db table : string) : gmap key value :=
  match Engine.lookup_store w db table with
  | Some st => st_records st
  | None => ∅
  end.

(** The indexes of a collection. *)
Definition indexes (w : world) (db table : string) : gmap string index :=
  match Engine.lookup_store w db table with
  | Some st => st_indexes st
  | None => ∅
  end.

(** One round of the loop of [create] on an entry whose array is at [l]:
    the name goes to position zero of the array, and the array is the
    argument list of [createIndex]. *)
Definition index_of_args (args : list value) : index :=
  {| ix_keyPath := nth_arg 1 args; ix_options := nth_arg 2 args |}.

Definition create_round (db table : string) (w : world) (entry : string * loc) : world :=
  let w1 := unshift (snd entry) (VStr (fst entry)) w in
  let args := default [] (read_array w1 (snd entry)) in
  let w2 := set_log (w_log w1 ++ [CCreateIndex db table args]) w1 in
  match Engine.lookup_store w2 db table with
  | Some st =>
      Engine.put_store db table
        (Engine.set_indexes (<[fst entry := index_of_args args]> (st_indexes st)) st) w2
  | None => w2
  end.

(** A schema object whose entries are arrays of the heap. *)
Definition schema_of (entries : list (string * loc)) : value :=
  VObj ((fun e => (fst e, VRef (snd e))) <$> entries).

(** Callbacks that call the upgrade facade with names [assertName] accepts. *)
Definition valid_action (a : uaction) : bool :=
  match a with
  | UCall name args => valid_name (nth_arg 0 args)
  | UThrow _ => true
  end.

Definition valid_fn (fn : value) : bool :=
  match fn with
  | VFun body => forallb valid_action body
  | VMethod m _ => match m with m_close => true | _ => false end
  | _ => true
  end.

Definition valid_handler (h : handler) : bool :=
  match h with
  | HUpgradeNeeded _ fn => valid_fn fn
  | _ => true
  end.

(** The callback [open] retains: the third argument, the second one when
    that is a function, and the empty function by default. *)
Definition callback_of (version fn : value) : value :=
  let version := match version with VUndefined => VNum 1 | _ => version end in
  let fn := match fn with VUndefined => VFun [] | _ => fn end in
  if is_function version then version else fn.

(** The world in which the upgrade callback of the open request [r] with
    promise [p] starts, when the engine enters the upgrade of [name]. *)
Definition upgrade_entry (p r : nat) (name : string) (version : Z) (w : world) : world :=
  set_db_onerror name (HReject p)
    (set_result r (VDb name) (ensure_database name version w)).

Definition sample_request : request :=
  {| r_result := VUndefined; r_error := VNull; r_onsuccess := None;
     r_onerror := None; r_onupgradeneeded := None; r_pending := None |}.

(** The result of a completed call: the promise's state and the records
    the collection then holds. *)
Definition outcome_is (res : world * option pstate) (s : pstate)
    (db table : string) (rs : gmap key value) : Prop :=
  snd res = Some s /\ records (fst res) db table = rs.

(** ** Sample worlds *)

Definition sample_record : value := VObj [("id", VNum 1); ("name", VStr "a")].

Definition sample_store : store :=
  {| st_options := VObj [("keyPath", VStr "id")];
     st_records := {[ KNum 1 := sample_record ]};
     st_indexes := ∅ |}.

(** A connection "T" with a collection "items" and a collection whose
    name is the empty string. *)
Definition sample_db : database :=
  {| db_version := 1;
     db_stores := <["items" := sample_store]> {[ "" := sample_store ]};
     db_closed := false;
     db_onerror := None |}.

Definition sample_world : world :=
  set_dbs {[ "T" := sample_db ]} empty_world.

(** A connection "U" with a collection "users" that has a
    uniqueness-constrained index on the field "email" and holds two
    records. *)
Definition unique_store : store :=
  {| st_options := VObj [("keyPath", VStr "id")];
     st_records := <[ KNum 2 := VObj [("id", VNum 2); ("email", VStr "b@x")] ]>
                     {[ KNum 1 := VObj [("id", VNum 1); ("email", VStr "a@x")] ]};
     st_indexes := {[ "byEmail" := {| ix_keyPath := VStr "email";
                                      ix_options := VObj [("unique", VBool true)] |} ]} |}.

Definition unique_db : database :=
  {| db_version := 1;
     db_stores := {[ "users" := unique_store ]};
     db_closed := false;
     db_onerror := None |}.

Definition unique_world : world :=
  set_dbs {[ "U" := unique_db ]} empty_world.

(** The world after [db.createObjectStore(table, options)] on a new name. *)
Definition store_created (n : string) (table options : value) (w : world) : world :=
  Engine.put_store n (to_string table)
    {| st_options := options; st_records := ∅; st_indexes := ∅ |}
    (set_log (w_log w ++ [CCreateObjectStore n table options]) w).

(** The array an entry holds before the call. *)
Definition entry_array (w : world) (entry : string * loc) : list value :=
  default [] (read_array w (snd entry)).

(** The [createIndex] call of an entry: the name, then the array. *)
Definition index_call (n t : string) (w : world) (entry : string * loc) : call :=
  CCreateIndex n t (VStr (fst entry) :: entry_array w entry).

(** An array on its own and a schema with one entry that holds it. *)
Definition sample_heap_world : world :=
  set_heap [[VStr "name"; VObj [("unique", VBool true)]]]
    (set_dbs {[ "T" := {| db_version := 1; db_stores := ∅;
                          db_closed := false; db_onerror := None |} ]} empty_world).

(** The arrays after the names of the entries have been put at their
    position zero, one entry after the other. *)
Definition unshift_names (entries : list (string * loc)) (w : world) : world :=
  fold_left (fun w e => unshift (snd e) (VStr (fst e)) w) entries w.

(** The [createIndex] call of an entry whose array already starts with
    its name. *)
Definition shifted_call (n t : string) (w : world) (entry : string * loc) : call :=
  CCreateIndex n t (VStr (fst entry) :: VStr (fst entry) :: entry_array w entry).

(** Worlds in which every registered upgrade callback calls the facade
    with names [assertName] accepts. *)
Definition valid_slot (h : option handler) : bool :=
  match h with
  | Some h => valid_handler h
  | None => true
  end.

Definition valid_request (q : request) : bool :=
  valid_slot (r_onsuccess q) && valid_slot (r_onerror q)
  && valid_slot (r_onupgradeneeded q).

Definition handlers_valid (w : world) : Prop :=
  (forall r q, w_reqs w !! r = Some q -> valid_request q = true) /\
  (forall n d, w_dbs w !! n = Some d -> valid_slot (db_onerror d) = true).

(** A computation that registers no other callback. *)
Definition keeps_valid {A} (c : M A) : Prop :=
  forall w w' o, c w = (w', o) -> handlers_valid w -> handlers_valid w'.

(** ** Auxiliary worlds and handles of the statements *)

(** The handle of an open request once [open] has registered its handlers. *)
Definition open_handle (p : nat) (version fn : value) : request :=
  {| r_result := VUndefined; r_error := VNull;
     r_onsuccess := Some (HResolveClient p);
     r_onerror := Some (HReject p);
     r_onupgradeneeded := Some (HUpgradeNeeded p (callback_of version fn));
     r_pending := None |}.

(** The world after the calls that lead to the collection. *)
Definition at_store (n t mode : string) (w : world) : world :=
  set_log (w_log w ++ [CTransaction n [VStr t] mode; CObjectStore n (VStr t)]) w.

(** A request the engine has just placed, with the outcome it decided. *)
Definition fresh_request (c : completion) : request :=
  {| r_result := VUndefined; r_error := VNull; r_onsuccess := None;
     r_onerror := None; r_onupgradeneeded := None; r_pending := Some c |}.

(** The handle of a collection in a read-write transaction. *)
Definition rw_store (n t : string) : Engine.storeh :=
  {| Engine.sh_db := n; Engine.sh_name := t; Engine.sh_mode := "readwrite" |}.

(** The handle of a collection during an upgrade. *)
Definition upgrade_store (n t : string) : Engine.storeh :=
  {| Engine.sh_db := n; Engine.sh_name := t; Engine.sh_mode := "versionchange" |}.

(** ** Notions of the statements on the facades at work *)

(** The nine operations of the connection facade that work on one
    collection, and the mode of the transaction each one opens. *)
Definition data_method (m : method) : bool :=
  match m with
  | m_close | u_create | u_delete => false
  | _ => true
  end.

Definition method_mode (m : method) : string :=
  match m with
  | m_select | m_selectAll | m_selectAllKeys | m_selectIndex | m_count => "readonly"
  | _ => "readwrite"
  end.

(** The engine calls of a data operation on connection [n], in order, when
    none of them throws. *)
Definition method_calls (m : method) (n : string) (args : list value) : list call :=
  let table := nth_arg 0 args in
  let t := to_string table in
  [CTransaction n [table] (method_mode m); CObjectStore n table] ++
  match m with
  | m_select => [CGet n t (nth_arg 1 args)]
  | m_selectAll => [CGetAll n t (nth_arg 1 args) (nth_arg 2 args)]
  | m_selectAllKeys => [CGetAllKeys n t (nth_arg 1 args) (nth_arg 2 args)]
  | m_selectIndex =>
      [CIndex n t (nth_arg 1 args);
       CIndexGet n t (to_string (nth_arg 1 args)) (nth_arg 2 args)]
  | m_delete => [CDelete n t (nth_arg 1 args)]
  | m_insert => [CAdd n t (nth_arg 1 args) (key_arg (nth_arg 2 args))]
  | m_update => [CPut n t (nth_arg 1 args) (key_arg (nth_arg 2 args))]
  | m_clear => [CClear n t]
  | m_count => [CCount n t (nth_arg 1 args)]
  | _ => []
  end.

(** A request once [promisify] has wrapped it for promise [p]. *)
Definition wrapped_request (p r : nat) (c : completion) : request :=
  {| r_result := VUndefined; r_error := VNull;
     r_onsuccess := Some (HResolveResult p r);
     r_onerror := Some (HRejectError p r);
     r_onupgradeneeded := None; r_pending := Some c |}.

(** The state in which the engine's notification leaves a promise. *)
Definition state_of (c : completion) : pstate :=
  match c with
  | Succeeds v => Fulfilled v
  | Fails e => Rejected e
  end.

(** An engine step that places no request and touches no promise. *)
Definition quiet {A} (c : M A) : Prop :=
  forall w w' o, c w = (w', o) ->
    w_reqs w' = w_reqs w /\ w_promises w' = w_promises w.

(** An engine operation that, when it returns, has placed one request, the
    one it returns, and otherwise none; it touches no promise. *)
Definition places (c : M nat) : Prop :=
  forall w w' o, c w = (w', o) ->
    w_promises w' = w_promises w /\
    match o with
    | Return r =>
        r = length (w_reqs w) /\
        exists c0, w_reqs w' = w_reqs w ++ [fresh_request c0]
    | Throw _ => w_reqs w' = w_reqs w
    end.

(** A facade operation that, when it returns, has placed one request and
    returns a new pending promise wrapped around it, and that otherwise
    leaves requests and promises as they were. *)
Definition promised (c : M nat) : Prop :=
  forall w w' o, c w = (w', o) ->
    match o with
    | Return p =>
        p = length (w_promises w) /\
        w_promises w' = w_promises w ++ [Pending] /\
        exists c0, w_reqs w' = w_reqs w ++ [wrapped_request p (length (w_reqs w)) c0]
    | Throw _ => w_promises w' = w_promises w /\ w_reqs w' = w_reqs w
    end.

(** The connection [n] after [db.close()]. *)
Definition closed_world (n : string) (w : world) : world :=
  set_dbs (alter (fun d =>
    {| db_version := db_version d; db_stores := db_stores d;
       db_closed := true; db_onerror := db_onerror d |}) n (w_dbs w))
    (set_log (w_log w ++ [CClose n]) w).

(** The collection [t] of the open connection [n] is [st] in [w]. *)
Definition holds (w : world) (n t : string) (st : store) : Prop :=
  exists d, w_dbs w !! n = Some d /\ db_closed d = false /\ db_stores d !! t = Some st.

(** The handle of a collection in a read-only transaction. *)
Definition ro_store (n t : string) : Engine.storeh :=
  {| Engine.sh_db := n; Engine.sh_name := t; Engine.sh_mode := "readonly" |}.

(** A facade operation completed by the engine: it returned a promise that
    the notification left in state [s], and the collection is then [st]. *)
Definition completes (res : world * option pstate) (s : pstate)
    (n t : string) (st : store) : Prop :=
  snd res = Some s /\ holds (fst res) n t st.

(** Two facade operations one after the other, each completed by the
    engine before the next starts: the state of the second one's promise. *)
Definition then_settles (deliver : nat -> world -> world) (first next : M nat)
    (w : world) (s : pstate) : Prop :=
  snd (completed deliver next (fst (completed deliver first w))) = Some s.

(** A computation that takes a world to one related to it by [R]. *)
Definition preserves (R : world -> world -> Prop) {A} (c : M A) : Prop :=
  forall w w' o, c w = (w', o) -> R w w'.

(** The requests of [w] are those of [w'], followed by the new ones. *)
Definition requests_kept (w w' : world) : Prop :=
  exists extra, w_reqs w' = w_reqs w ++ extra.

(** Every connection of [w] is one of [w'], with its error handler. *)
Definition onerror_kept (w w' : world) : Prop :=
  forall n d, w_dbs w !! n = Some d ->
    exists d', w_dbs w' !! n = Some d' /\ db_onerror d' = db_onerror d.

(** The world in which the upgrade callback of [open] starts: [open] has
    returned, and the engine has entered the upgrade of [n]. *)
Definition upgrade_start (name version fn : value) (n : string) (ver : Z) (w : world) : world :=
  upgrade_entry (length (w_promises w)) (length (w_reqs w)) n ver
    (fst (Idb.idb_open name version fn w)).

(** The version [open] asks the engine for: 1 when none is given, or when
    the callback stands in the place of the version. *)
Definition version_of (version : value) : value :=
  let version := match version with VUndefined => VNum 1 | _ => version end in
  if is_function version then VNum 1 else version.

(** A connection without the collection [t]. *)
Definition drop_store (t : string) (d : database) : database :=
  Engine.set_stores (delete t (db_stores d)) d.

(** The world after [db.deleteObjectStore(table)] on a collection there is. *)
Definition store_dropped (n : string) (table : value) (w : world) : world :=
  set_dbs (alter (drop_store (to_string table)) n (w_dbs w))
    (set_log (w_log w ++ [CDeleteObjectStore n table]) w).

(** The fields of a schema whose first entries are arrays of the heap. *)
Definition schema_fields (entries : list (string * loc)) : list (string * value) :=
  (fun e => (fst e, VRef (snd e))) <$> entries.

(** Values on which [unshift] can be called: arrays, and objects that
    carry a function of that name. *)
Definition has_unshift (v : value) : bool :=
  match v with
  | VRef _ => true
  | VObj fields => is_function (get_field "unshift" fields)
  | _ => false
  end.

(** * Properties *)

(** ** Computations that settle no promise *)

Lemma extends_refl w : extends w w.
Proof. exists []. by rewrite app_nil_r. Qed.

Lemma extends_trans w1 w2 w3 : extends w1 w2 -> extends w2 w3 -> extends w1 w3.
Proof.
  intros [e1 H1] [e2 H2]. exists (e1 ++ e2).
  by rewrite H2, H1, app_assoc.
Qed.

Lemma extends_same w w' : w_promises w' = w_promises w -> extends w w'.
Proof. intros H. exists []. by rewrite H, app_nil_r. Qed.

Lemma mono_ret {A} (a : A) : mono (ret a).
Proof. intros w w' o [= <- _]. apply extends_refl. Qed.

Lemma mono_throw {A} e : mono (@throw A e).
Proof. intros w w' o [= <- _]. apply extends_refl. Qed.

Lemma mono_bind {A B} (c : M A) (k : A -> M B) :
  mono c -> (forall a, mono (k a)) -> mono (bind c k).
Proof.
  intros Hc Hk w w' o. unfold bind.
  destruct (c w) as [w1 [a|e]] eqn:E; intros H.
  - eapply extends_trans; [eapply Hc, E | eapply Hk, H].
  - injection H as <- _. eapply Hc, E.
Qed.

Lemma mono_modify f : (forall w, w_promises (f w) = w_promises w) -> mono (modify f).
Proof. intros Hf w w' o [= <- _]. by apply extends_same. Qed.

Lemma mono_get_world : mono get_world.
Proof. intros w w' o [= <- _]. apply extends_refl. Qed.

Lemma mono_log_call c : mono (log_call c).
Proof. by apply mono_modify. Qed.

Lemma mono_new_request pe : mono (new_request pe).
Proof. intros w w' o [= <- _]. by apply extends_same. Qed.

Lemma mono_new_promise : mono new_promise.
Proof. intros w w' o [= <- _]. by exists [Pending]. Qed.

Lemma mono_alloc_array l : mono (alloc_array l).
Proof. intros w w' o [= <- _]. by apply extends_same. Qed.

Lemma mono_for_each {A} (l : list A) (f : A -> M unit) :
  (forall a, mono (f a)) -> mono (for_each l f).
Proof.
  intros Hf. induction l as [|a l IH]; simpl.
  - apply mono_ret.
  - apply mono_bind; [apply Hf | intros _; apply IH].
Qed.

Lemma promises_put_store db t st w :
  w_promises (Engine.put_store db t st w) = w_promises w.
Proof. reflexivity. Qed.

Lemma promises_unshift l x w : w_promises (unshift l x w) = w_promises w.
Proof. unfold unshift. by destruct (w_heap w !! l). Qed.

Lemma promises_set_onsuccess r h w : w_promises (set_onsuccess r h w) = w_promises w.
Proof. reflexivity. Qed.

Lemma promises_set_onerror r h w : w_promises (set_onerror r h w) = w_promises w.
Proof. reflexivity. Qed.

Lemma promises_set_onupgradeneeded r h w :
  w_promises (set_onupgradeneeded r h w) = w_promises w.
Proof. reflexivity. Qed.

Create HintDb mono.

#[local] Hint Resolve mono_ret mono_throw mono_get_world mono_log_call
  mono_new_request mono_new_promise mono_alloc_array promises_put_store
  promises_unshift promises_set_onsuccess promises_set_onerror
  promises_set_onupgradeneeded : mono.

(** Breaks a computation into its steps and closes each with the hints. *)
Ltac mono_step :=
  match goal with
  | |- mono (bind _ _) => apply mono_bind; [| intros ?]
  | |- mono (for_each _ _) => apply mono_for_each; intros ?
  | |- mono (modify _) => apply mono_modify; intros ?
  | |- mono (match ?x with _ => _ end) => destruct x
  | |- mono (if ?b then _ else _) => destruct b
  | |- mono _ => solve [eauto with mono]
  | |- _ = _ => solve [eauto with mono]
  end.

Ltac mono_solve := repeat mono_step.

Lemma mono_transaction db tables mode : mono (Engine.transaction db tables mode).
Proof. unfold Engine.transaction. mono_solve. Qed.

Lemma mono_objectStore tx table : mono (Engine.objectStore tx table).
Proof. unfold Engine.objectStore. mono_solve. Qed.

Lemma mono_the_store sh : mono (Engine.the_store sh).
Proof. unfold Engine.the_store. mono_solve. Qed.

Lemma mono_writable sh : mono (Engine.writable sh).
Proof. unfold Engine.writable. mono_solve. Qed.

#[local] Hint Resolve mono_transaction mono_objectStore mono_the_store mono_writable : mono.

Lemma mono_get sh k : mono (Engine.get sh k).
Proof. unfold Engine.get. mono_solve. Qed.

Lemma mono_getAll sh q c : mono (Engine.getAll sh q c).
Proof. unfold Engine.getAll. mono_solve. Qed.

Lemma mono_getAllKeys sh q c : mono (Engine.getAllKeys sh q c).
Proof. unfold Engine.getAllKeys. mono_solve. Qed.

Lemma mono_index sh name : mono (Engine.index sh name).
Proof. unfold Engine.index. mono_solve. Qed.

Lemma mono_index_get ih k : mono (Engine.index_get ih k).
Proof. unfold Engine.index_get. mono_solve. Qed.

Lemma mono_delete sh k : mono (Engine.delete sh k).
Proof. unfold Engine.delete. mono_solve. Qed.

Lemma mono_add sh v k : mono (Engine.add sh v k).
Proof. unfold Engine.add. mono_solve. Qed.

Lemma mono_put sh v k : mono (Engine.put sh v k).
Proof. unfold Engine.put. mono_solve. Qed.

Lemma mono_clear sh : mono (Engine.clear sh).
Proof. unfold Engine.clear. mono_solve. Qed.

Lemma mono_count sh q : mono (Engine.count sh q).
Proof. unfold Engine.count. mono_solve. Qed.

Lemma mono_close db : mono (Engine.close db).
Proof. unfold Engine.close. mono_solve. Qed.

Lemma mono_createObjectStore db t o : mono (Engine.createObjectStore db t o).
Proof. unfold Engine.createObjectStore. mono_solve. Qed.

Lemma mono_createIndex sh args : mono (Engine.createIndex sh args).
Proof. unfold Engine.createIndex. mono_solve. Qed.

Lemma mono_deleteObjectStore db t : mono (Engine.deleteObjectStore db t).
Proof. unfold Engine.deleteObjectStore. mono_solve. Qed.

Lemma mono_open name version : mono (Engine.open name version).
Proof. unfold Engine.open. mono_solve. Qed.

Lemma mono_deleteDatabase name : mono (Engine.deleteDatabase name).
Proof. unfold Engine.deleteDatabase. mono_solve. Qed.

Lemma mono_object_keys o : mono (object_keys o).
Proof. unfold object_keys. mono_solve. Qed.

Lemma mono_get_prop o k : mono (get_prop o k).
Proof. unfold get_prop. mono_solve. Qed.

Lemma mono_call_unshift a x : mono (call_unshift a x).
Proof. unfold call_unshift. mono_solve. Qed.

Lemma mono_spread a : mono (spread a).
Proof. unfold spread. mono_solve. Qed.

#[local] Hint Resolve mono_get mono_getAll mono_getAllKeys mono_index mono_index_get
  mono_delete mono_add mono_put mono_clear mono_count mono_close
  mono_createObjectStore mono_createIndex mono_deleteObjectStore mono_open
  mono_deleteDatabase mono_object_keys mono_get_prop mono_call_unshift
  mono_spread : mono.

(** ** The facades settle no promise *)

Lemma mono_assertName name label : mono (Part000.assertName name label).
Proof. unfold Part000.assertName. mono_solve. Qed.

#[local] Hint Resolve mono_assertName : mono.

Lemma mono_promisify_idb r : mono (Idb.promisify r).
Proof. unfold Idb.promisify. mono_solve. Qed.

Lemma mono_promisify_part000 r : mono (Part000.promisify r).
Proof. unfold Part000.promisify. mono_solve. Qed.

#[local] Hint Resolve mono_promisify_idb mono_promisify_part000 : mono.

Lemma mono_invoke_idb m db args : mono (Idb.invoke m db args).
Proof.
  unfold Idb.invoke; destruct m;
    unfold Idb.client_select, Idb.client_selectAll, Idb.client_selectAllKeys,
      Idb.client_selectIndex, Idb.client_delete, Idb.client_insert,
      Idb.client_update, Idb.client_clear, Idb.client_count, Idb.client_close,
      Idb.upgrade_create, Idb.upgrade_delete;
    mono_solve.
Qed.

Lemma mono_invoke_part000 m db args : mono (Part000.invoke m db args).
Proof.
  unfold Part000.invoke; destruct m;
    unfold Part000.client_select, Part000.client_selectAll,
      Part000.client_selectAllKeys, Part000.client_selectIndex,
      Part000.client_delete, Part000.client_insert, Part000.client_update,
      Part000.client_clear, Part000.client_count, Part000.client_close,
      Part000.upgrade_create, Part000.upgrade_delete;
    mono_solve.
Qed.

#[local] Hint Resolve mono_invoke_idb mono_invoke_part000 : mono.

Lemma mono_call_function_idb fn e db : mono (Idb.call_function fn e db).
Proof.
  unfold Idb.call_function. destruct fn; mono_solve.
  unfold Idb.run_action, Idb.call_method. mono_solve.
Qed.

Lemma mono_call_function_part000 fn e db : mono (Part000.call_function fn e db).
Proof.
  unfold Part000.call_function. destruct fn; mono_solve.
  unfold Part000.run_action, Part000.call_method. mono_solve.
Qed.

Lemma mono_idb_open_idb name version fn : mono (Idb.idb_open name version fn).
Proof. unfold Idb.idb_open. mono_solve. Qed.

Lemma mono_idb_open_part000 name version fn : mono (Part000.idb_open name version fn).
Proof. unfold Part000.idb_open. mono_solve. Qed.

(** ** Settled promises stay as they are *)

Lemma stable_refl w : stable w w.
Proof. by intros p s H _. Qed.

Lemma stable_trans w1 w2 w3 : stable w1 w2 -> stable w2 w3 -> stable w1 w3.
Proof. intros H1 H2 p s Hp Hs. eapply H2; [eapply H1|]; eauto. Qed.

Lemma extends_stable w w' : extends w w' -> stable w w'.
Proof.
  intros [extra H] p s Hp _. rewrite H. by apply lookup_app_l_Some.
Qed.

Lemma stable_same w w' : w_promises w' = w_promises w -> stable w w'.
Proof. intros H. apply extends_stable. by apply extends_same. Qed.

Lemma stable_settle p s w : stable w (settle p s w).
Proof.
  unfold settle. destruct (w_promises w !! p) as [[]|] eqn:E; try apply stable_refl.
  intros q t Hq Ht. simpl.
  destruct (decide (p = q)) as [->|Hne].
  - rewrite E in Hq. injection Hq as <-. discriminate.
  - by rewrite list_lookup_insert_ne.
Qed.

Lemma settle_pending p s w :
  w_promises w !! p = Some Pending -> w_promises (settle p s w) !! p = Some s.
Proof.
  intros H. unfold settle. rewrite H. simpl.
  apply list_lookup_insert_eq. by eapply lookup_lt_Some.
Qed.

Lemma stable_run_handler_idb h ev w : stable w (Idb.run_handler h ev w).
Proof.
  destruct h; simpl; try apply stable_settle.
  - destruct ev; try apply stable_refl. destruct ev; try apply stable_refl.
    apply stable_settle.
  - destruct ev; try apply stable_refl. destruct ev; try apply stable_refl.
    destruct (request_result w r); try apply stable_refl.
    destruct (Idb.call_function _ _ _ _) as [w2 [u|err]] eqn:E.
    + apply extends_stable. eapply extends_trans; [|eapply mono_call_function_idb, E].
      by apply extends_same.
    + eapply stable_trans; [|apply stable_settle].
      apply extends_stable. eapply extends_trans; [|eapply mono_call_function_idb, E].
      by apply extends_same.
Qed.

Lemma stable_run_handler_part000 h ev w : stable w (Part000.run_handler h ev w).
Proof.
  destruct h; simpl; try apply stable_settle.
  - destruct ev; try apply stable_refl. destruct ev; try apply stable_refl.
    apply stable_settle.
  - destruct ev; try apply stable_refl. destruct ev; try apply stable_refl.
    destruct (request_result w r); try apply stable_refl.
    destruct (Part000.call_function _ _ _ _) as [w2 [u|err]] eqn:E.
    + apply extends_stable. eapply extends_trans; [|eapply mono_call_function_part000, E].
      by apply extends_same.
    + eapply stable_trans; [|apply stable_settle].
      apply extends_stable. eapply extends_trans; [|eapply mono_call_function_part000, E].
      by apply extends_same.
Qed.

Section Stability.

Variable run_handler : handler -> value -> world -> world.
Hypothesis run_handler_stable : forall h ev w, stable w (run_handler h ev w).

Lemma stable_dispatch h ev w : stable w (dispatch run_handler h ev w).
Proof. destruct h; simpl; [apply run_handler_stable | apply stable_refl]. Qed.

Lemma stable_notify n w : stable w (notify_with run_handler n w).
Proof.
  destruct n; simpl.
  - eapply stable_trans; [|apply stable_dispatch]. by apply stable_same.
  - eapply stable_trans; [|apply stable_dispatch]. by apply stable_same.
  - eapply stable_trans; [|apply stable_dispatch]. apply stable_same.
    unfold ensure_database. by destruct (w_dbs w !! name).
  - apply stable_dispatch.
Qed.

Lemma stable_run ns w : stable w (run_with run_handler ns w).
Proof.
  revert w. induction ns as [|n ns IH]; intros w; simpl.
  - apply stable_refl.
  - eapply stable_trans; [apply stable_notify | apply IH].
Qed.

Lemma is_settled_stable w w' p :
  stable w w' -> is_settled w p = true -> is_settled w' p = true.
Proof.
  unfold is_settled. intros H.
  destruct (w_promises w !! p) as [s|] eqn:E; [|done].
  intros Hs. by rewrite (H p s E Hs).
Qed.

Lemma settlements_settled p ns w :
  is_settled w p = true -> settlements (notify_with run_handler) p ns w = 0%nat.
Proof.
  revert w. induction ns as [|n ns IH]; intros w Hs; simpl; [done|].
  unfold newly_settled. rewrite Hs. simpl.
  apply IH. eapply is_settled_stable; [apply stable_notify | done].
Qed.

Lemma settlements_le_1 p ns w :
  (settlements (notify_with run_handler) p ns w <= 1)%nat.
Proof.
  revert w. induction ns as [|n ns IH]; intros w; simpl; [lia|].
  destruct (newly_settled p w _) eqn:E.
  - rewrite settlements_settled; [lia|].
    unfold newly_settled in E. by apply andb_prop in E as [_ ?].
  - apply IH.
Qed.

End Stability.

Lemma promisify_spec_idb w r :
  Idb.promisify r w =
    (set_onerror r (HRejectError (length (w_promises w)) r)
       (set_onsuccess r (HResolveResult (length (w_promises w)) r)
          (set_promises (w_promises w ++ [Pending]) w)),
     Return (length (w_promises w))).
Proof. reflexivity. Qed.

Lemma promisify_same r w : Part000.promisify r w = Idb.promisify r w.
Proof. reflexivity. Qed.

Lemma lookup_fresh_promise (ps : list pstate) : (ps ++ [Pending]) !! length ps = Some Pending.
Proof. by rewrite lookup_app_r, Nat.sub_diag. Qed.

Section Promisified.

Variable run_handler : handler -> value -> world -> world.
Hypothesis resolve_result : forall p r w,
  run_handler (HResolveResult p r) (VEvent "success" (VReq r)) w
  = resolve p (request_result w r) w.
Hypothesis reject_error : forall p r w,
  run_handler (HRejectError p r) (VEvent "error" (VReq r)) w
  = reject p (request_error w r) w.

Lemma promisified_success w r v :
  (r < length (w_reqs w))%nat ->
  let p := length (w_promises w) in
  let w1 := fst (Idb.promisify r w) in
  let w2 := notify_with run_handler (NSuccess r v) w1 in
  promise_state w1 p = Some Pending /\
  request_result w2 r = v /\
  promise_state w2 p = Some (Fulfilled v).
Proof.
  intros Hr p w1 w2.
  destruct (lookup_lt_is_Some_2 _ _ Hr) as [q Hq].
  assert (H1 : promise_state w1 p = Some Pending) by apply lookup_fresh_promise.
  split; [done|].
  subst w2. unfold notify_with. cbn zeta.
  set (w1' := set_result r v w1).
  assert (Hreq : w_reqs w1' !! r ≫= r_onsuccess = Some (HResolveResult p r)).
  { subst w1' w1. rewrite promisify_spec_idb. simpl.
    rewrite !list_lookup_alter_eq, Hq. reflexivity. }
  assert (Hres : request_result w1' r = v).
  { subst w1' w1. unfold request_result. rewrite promisify_spec_idb. simpl.
    rewrite !list_lookup_alter_eq, Hq. reflexivity. }
  rewrite Hreq. simpl. rewrite resolve_result, Hres.
  split.
  - unfold request_result, resolve, settle.
    change (w_promises w1' !! p) with (promise_state w1 p). rewrite H1.
    simpl. exact Hres.
  - apply settle_pending. exact H1.
Qed.

Lemma promisified_error w r e :
  (r < length (w_reqs w))%nat ->
  let p := length (w_promises w) in
  let w1 := fst (Idb.promisify r w) in
  let w3 := notify_with run_handler (NError r e) w1 in
  request_error w3 r = e /\
  promise_state w3 p = Some (Rejected e).
Proof.
  intros Hr p w1 w3.
  destruct (lookup_lt_is_Some_2 _ _ Hr) as [q Hq].
  assert (H1 : promise_state w1 p = Some Pending) by apply lookup_fresh_promise.
  subst w3. unfold notify_with. cbn zeta.
  set (w1' := set_error r e w1).
  assert (Hreq : w_reqs w1' !! r ≫= r_onerror = Some (HRejectError p r)).
  { subst w1' w1. rewrite promisify_spec_idb. simpl.
    rewrite !list_lookup_alter_eq, Hq. reflexivity. }
  assert (Hres : request_error w1' r = e).
  { subst w1' w1. unfold request_error. rewrite promisify_spec_idb. simpl.
    rewrite !list_lookup_alter_eq, Hq. reflexivity. }
  rewrite Hreq. simpl. rewrite reject_error, Hres.
  split.
  - unfold request_error, reject, settle.
    change (w_promises w1' !! p) with (promise_state w1 p). rewrite H1.
    simpl. exact Hres.
  - apply settle_pending. exact H1.
Qed.

Lemma promisified_notify_success w r v :
  (r < length (w_reqs w))%nat ->
  notify_with run_handler (NSuccess r v) (fst (Idb.promisify r w))
  = resolve (length (w_promises w)) v (set_result r v (fst (Idb.promisify r w))).
Proof.
  intros Hr. destruct (lookup_lt_is_Some_2 _ _ Hr) as [q Hq].
  unfold notify_with. cbn zeta.
  set (w1' := set_result r v (fst (Idb.promisify r w))).
  assert (Hreq : w_reqs w1' !! r ≫= r_onsuccess
                 = Some (HResolveResult (length (w_promises w)) r)).
  { subst w1'. rewrite promisify_spec_idb. simpl.
    rewrite !list_lookup_alter_eq, Hq. reflexivity. }
  assert (Hres : request_result w1' r = v).
  { subst w1'. unfold request_result. rewrite promisify_spec_idb. simpl.
    rewrite !list_lookup_alter_eq, Hq. reflexivity. }
  rewrite Hreq. simpl. by rewrite resolve_result, Hres.
Qed.

Lemma promisified_notify_error w r e :
  (r < length (w_reqs w))%nat ->
  notify_with run_handler (NError r e) (fst (Idb.promisify r w))
  = reject (length (w_promises w)) e (set_error r e (fst (Idb.promisify r w))).
Proof.
  intros Hr. destruct (lookup_lt_is_Some_2 _ _ Hr) as [q Hq].
  unfold notify_with. cbn zeta.
  set (w1' := set_error r e (fst (Idb.promisify r w))).
  assert (Hreq : w_reqs w1' !! r ≫= r_onerror
                 = Some (HRejectError (length (w_promises w)) r)).
  { subst w1'. rewrite promisify_spec_idb. simpl.
    rewrite !list_lookup_alter_eq, Hq. reflexivity. }
  assert (Hres : request_error w1' r = e).
  { subst w1'. unfold request_error. rewrite promisify_spec_idb. simpl.
    rewrite !list_lookup_alter_eq, Hq. reflexivity. }
  rewrite Hreq. simpl. by rewrite reject_error, Hres.
Qed.

Lemma dbs_settle p s w : w_dbs (settle p s w) = w_dbs w.
Proof. unfold settle. by destruct (w_promises w !! p) as [[]|]. Qed.

(** The engine's own notification for a request that [promisify] wraps. *)
Lemma promisified_deliver w r q c :
  w_reqs w !! r = Some q -> r_pending q = Some c ->
  let w2 := deliver_with run_handler r (fst (Idb.promisify r w)) in
  promise_state w2 (length (w_promises w))
  = Some (match c with Succeeds v => Fulfilled v | Fails e => Rejected e end) /\
  w_dbs w2 = w_dbs w.
Proof.
  intros Hq Hc. cbn zeta.
  assert (Hr : (r < length (w_reqs w))%nat) by (by eapply lookup_lt_Some).
  unfold deliver_with.
  assert (Hp : w_reqs (fst (Idb.promisify r w)) !! r ≫= r_pending = Some c).
  { rewrite promisify_spec_idb. simpl. rewrite !list_lookup_alter_eq, Hq. by simpl. }
  rewrite Hp. destruct c as [v|e].
  - rewrite promisified_notify_success by done. split.
    + apply settle_pending. apply lookup_fresh_promise.
    + unfold resolve. by rewrite dbs_settle.
  - rewrite promisified_notify_error by done. split.
    + apply settle_pending. apply lookup_fresh_promise.
    + unfold reject. by rewrite dbs_settle.
Qed.

End Promisified.

(** C1. For every request handle of the world, [promisify] returns a fresh
    pending promise; the success notification fulfils it with exactly the
    value the handle then holds as its result, and the failure
    notification rejects it with exactly the value the handle then holds
    as its error.  This holds in both modules. *)
Theorem promisify_settles_with_handle_value (w : world) (r : nat) (v e : value) :
  (r < length (w_reqs w))%nat ->
  let p := length (w_promises w) in
  (snd (Idb.promisify r w) = Return p /\
   let w1 := fst (Idb.promisify r w) in
   promise_state w1 p = Some Pending /\
   (let w2 := Idb.notify (NSuccess r v) w1 in
    request_result w2 r = v /\ promise_state w2 p = Some (Fulfilled (request_result w2 r))) /\
   (let w3 := Idb.notify (NError r e) w1 in
    request_error w3 r = e /\ promise_state w3 p = Some (Rejected (request_error w3 r)))) /\
  (snd (Part000.promisify r w) = Return p /\
   let w1 := fst (Part000.promisify r w) in
   promise_state w1 p = Some Pending /\
   (let w2 := Part000.notify (NSuccess r v) w1 in
    request_result w2 r = v /\ promise_state w2 p = Some (Fulfilled (request_result w2 r))) /\
   (let w3 := Part000.notify (NError r e) w1 in
    request_error w3 r = e /\ promise_state w3 p = Some (Rejected (request_error w3 r)))).
Proof.
  intros Hr p. split.
  - split; [reflexivity|]. cbn zeta.
    destruct (promisified_success Idb.run_handler (fun _ _ _ => eq_refl) w r v Hr)
      as (HP & HR & HS).
    destruct (promisified_error Idb.run_handler (fun _ _ _ => eq_refl) w r e Hr)
      as (HE & HJ).
    unfold Idb.notify. repeat split; try assumption.
    + by rewrite HR.
    + by rewrite HE.
  - split; [reflexivity|]. cbn zeta.
    destruct (promisified_success Part000.run_handler (fun _ _ _ => eq_refl) w r v Hr)
      as (HP & HR & HS).
    destruct (promisified_error Part000.run_handler (fun _ _ _ => eq_refl) w r e Hr)
      as (HE & HJ).
    unfold Part000.notify. rewrite !promisify_same. repeat split; try assumption.
    + by rewrite HR.
    + by rewrite HE.
Qed.

Lemma promisify_settles_with_handle_value_witness :
  let w := set_reqs [sample_request] empty_world in
  (0 < length (w_reqs w))%nat /\
  promise_state (Idb.notify (NSuccess 0 (VNum 7)) (fst (Idb.promisify 0 w))) 0
  = Some (Fulfilled (VNum 7)).
Proof.
  intros w.
  assert (Hr : (0 < length (w_reqs w))%nat) by (simpl; lia).
  split; [exact Hr|].
  destruct (promisify_settles_with_handle_value w 0 (VNum 7) VNull Hr)
    as [(_ & _ & HSucc & _) _].
  cbn zeta in HSucc. destruct HSucc as [HR HS].
  rewrite HR in HS. exact HS.
Defined.

(** C7. In both modules, for every promise and every sequence of success,
    error, upgrade and connection-error notifications, at most one
    notification of the sequence settles the promise, and once it is
    settled no later sequence changes its outcome. *)
Theorem promise_settles_once (p : nat) (ns : list notification) (w : world) :
  ((settlements Idb.notify p ns w <= 1)%nat /\
   forall more s,
     promise_state (Idb.run ns w) p = Some s -> settled s = true ->
     promise_state (Idb.run more (Idb.run ns w)) p = Some s) /\
  ((settlements Part000.notify p ns w <= 1)%nat /\
   forall more s,
     promise_state (Part000.run ns w) p = Some s -> settled s = true ->
     promise_state (Part000.run more (Part000.run ns w)) p = Some s).
Proof.
  split; split.
  - apply settlements_le_1, stable_run_handler_idb.
  - intros more s Hp Hs.
    exact (stable_run _ stable_run_handler_idb more _ p s Hp Hs).
  - apply settlements_le_1, stable_run_handler_part000.
  - intros more s Hp Hs.
    exact (stable_run _ stable_run_handler_part000 more _ p s Hp Hs).
Qed.

(** ** Opening a connection *)

Lemma idb_open_world_idb w name version fn :
  let w1 := fst (Idb.idb_open name version fn w) in
  snd (Idb.idb_open name version fn w) = Return (length (w_promises w)) /\
  w_reqs w1 !! length (w_reqs w) = Some (open_handle (length (w_promises w)) version fn) /\
  w_promises w1 = w_promises w ++ [Pending].
Proof.
  cbn zeta. unfold Idb.idb_open, Engine.open. cbn.
  split; [reflexivity|]. split; [|reflexivity].
  rewrite !list_lookup_alter_eq.
  rewrite lookup_app_r, Nat.sub_diag by lia. reflexivity.
Qed.

Lemma idb_open_same w name version fn :
  valid_name name = true ->
  Part000.idb_open name version fn w = Idb.idb_open name version fn w.
Proof.
  intros Hn. unfold Part000.idb_open, Idb.idb_open, Part000.assertName.
  destruct name; try discriminate. simpl in Hn.
  destruct (String.eqb s "") eqn:E; [discriminate|]. reflexivity.
Qed.

Lemma lookup_set_error r e w q :
  w_reqs w !! r = Some q ->
  w_reqs (set_error r e w) !! r =
    Some {| r_result := r_result q; r_error := e; r_onsuccess := r_onsuccess q;
            r_onerror := r_onerror q; r_onupgradeneeded := r_onupgradeneeded q;
            r_pending := None |}.
Proof. intros H. unfold set_error. simpl. by rewrite list_lookup_alter_eq, H. Qed.

Lemma lookup_set_result r v w q :
  w_reqs w !! r = Some q ->
  w_reqs (set_result r v w) !! r =
    Some {| r_result := v; r_error := r_error q; r_onsuccess := r_onsuccess q;
            r_onerror := r_onerror q; r_onupgradeneeded := r_onupgradeneeded q;
            r_pending := None |}.
Proof. intros H. unfold set_result. simpl. by rewrite list_lookup_alter_eq, H. Qed.

Lemma reqs_ensure_database n v w : w_reqs (ensure_database n v w) = w_reqs w.
Proof. unfold ensure_database. by destruct (w_dbs w !! n). Qed.

Lemma promises_ensure_database n v w : w_promises (ensure_database n v w) = w_promises w.
Proof. unfold ensure_database. by destruct (w_dbs w !! n). Qed.

Section Opened.

Variable run_handler : handler -> value -> world -> world.
Variable call_function : value -> value -> value -> M unit.

Hypothesis handler_reject : forall p ev w, run_handler (HReject p) ev w = reject p ev w.
Hypothesis handler_upgrade : forall p fn t r w n,
  request_result w r = VDb n ->
  run_handler (HUpgradeNeeded p fn) (VEvent t (VReq r)) w =
    match call_function fn (VEvent t (VReq r)) (VDb n) (set_db_onerror n (HReject p) w) with
    | (w2, Return _) => w2
    | (w2, Throw err) => reject p err w2
    end.
Hypothesis call_function_mono : forall fn e db, mono (call_function fn e db).
Hypothesis run_handler_stable : forall h ev w, stable w (run_handler h ev w).

Lemma opened_error w name version fn e :
  let r := length (w_reqs w) in
  let p := length (w_promises w) in
  let w2 := notify_with run_handler (NError r e) (fst (Idb.idb_open name version fn w)) in
  request_error w2 r = e /\
  promise_state w2 p = Some (Rejected (VEvent "error" (VReq r))).
Proof.
  cbn zeta.
  destruct (idb_open_world_idb w name version fn) as (_ & Hq & Hp).
  cbn zeta in Hq, Hp.
  set (w1 := fst (Idb.idb_open name version fn w)) in *. clearbody w1.
  set (r := length (w_reqs w)) in *. set (p := length (w_promises w)) in *.
  unfold notify_with.
  pose proof (lookup_set_error r e w1 _ Hq) as Hq'.
  set (w1' := set_error r e w1) in *.
  rewrite Hq'. simpl.
  rewrite handler_reject.
  assert (Hpend : w_promises w1' !! p = Some Pending).
  { subst w1'. simpl. rewrite Hp. apply lookup_fresh_promise. }
  split.
  - unfold request_error, reject, settle. rewrite Hpend.
    change (w_reqs (set_promises _ w1')) with (w_reqs w1').
    by rewrite Hq'.
  - by apply settle_pending.
Qed.

Lemma upgrade_throws w r p q fn exn dbname dbver ns :
  w_reqs w !! r = Some q ->
  r_onupgradeneeded q = Some (HUpgradeNeeded p fn) ->
  promise_state w p = Some Pending ->
  snd (call_function fn (VEvent "upgradeneeded" (VReq r))
         (VDb dbname) (upgrade_entry p r dbname dbver w)) = Throw exn ->
  promise_state (run_with run_handler (NUpgradeNeeded r dbname dbver :: ns) w) p
  = Some (Rejected exn).
Proof.
  intros Hq Hh Hpend Hthrow.
  change (run_with run_handler (NUpgradeNeeded r dbname dbver :: ns) w)
    with (run_with run_handler ns (notify_with run_handler (NUpgradeNeeded r dbname dbver) w)).
  apply (stable_run _ run_handler_stable ns); [|reflexivity].
  unfold notify_with.
  rewrite <- (reqs_ensure_database dbname dbver) in Hq.
  pose proof (lookup_set_result r (VDb dbname) _ _ Hq) as Hq'.
  set (w' := set_result r (VDb dbname) (ensure_database dbname dbver w)) in *.
  rewrite Hq'. simpl. rewrite Hh. simpl.
  rewrite (handler_upgrade _ _ _ _ _ dbname)
    by (unfold request_result; by rewrite Hq').
  change (set_db_onerror dbname (HReject p) w') with (upgrade_entry p r dbname dbver w).
  destruct (call_function _ _ _ _) as [w2 o] eqn:E. simpl in Hthrow. subst o.
  apply settle_pending.
  destruct (call_function_mono _ _ _ _ _ _ E) as [extra ->].
  apply lookup_app_l_Some. unfold upgrade_entry. simpl.
  rewrite promises_ensure_database. exact Hpend.
Qed.

End Opened.

(** Whatever error [e] the engine reports on the open request, the
    promise of [open] is rejected with the error event delivered to the
    handler, whose target is the request; [e] stays on the request.  In
    both modules. *)
Lemma open_error_rejects_with_event (w : world) (name version fn e : value) :
  let r := length (w_reqs w) in
  let p := length (w_promises w) in
  let failed (res : world * outcome nat) (notify : notification -> world -> world) :=
    let w2 := notify (NError r e) (fst res) in
    request_error w2 r = e /\
    promise_state w2 p = Some (Rejected (VEvent "error" (VReq r))) in
  failed (Idb.idb_open name version fn w) Idb.notify /\
  (valid_name name = true -> failed (Part000.idb_open name version fn w) Part000.notify).
Proof.
  intros r p failed. split.
  - apply (opened_error Idb.run_handler); reflexivity.
  - intros Hn. rewrite idb_open_same by done.
    apply (opened_error Part000.run_handler); reflexivity.
Qed.

(** C3. At an open request that the engine fails with a version error, in
    both modules: the request carries the engine's error, and the promise
    of [open] is rejected with the error event, which is another value. *)
Theorem open_error_value_differs :
  let failed (open : value -> value -> value -> M nat)
             (notify : notification -> world -> world) :=
    let w2 := notify (NError 0 (VError "VersionError" ""))
                (fst (open (VStr "T") (VNum 1) VUndefined empty_world)) in
    request_error w2 0 = VError "VersionError" "" /\
    promise_state w2 0 = Some (Rejected (VEvent "error" (VReq 0))) /\
    promise_state w2 0 <> Some (Rejected (request_error w2 0)) in
  failed Idb.idb_open Idb.notify /\ failed Part000.idb_open Part000.notify.
Proof. cbn. repeat split; discriminate. Qed.

(** The handle of the request that [open] places carries the handlers that
    [open] registered, among them the upgrade handler with the callback
    retained, and the promise returned is pending.  In both modules (the
    second one for a name it accepts). *)
Lemma open_registers_upgrade (w : world) (name version fn : value) :
  let r := length (w_reqs w) in
  let p := length (w_promises w) in
  let opened (res : world * outcome nat) :=
    snd res = Return p /\
    w_reqs (fst res) !! r = Some (open_handle p version fn) /\
    promise_state (fst res) p = Some Pending in
  opened (Idb.idb_open name version fn w) /\
  (valid_name name = true -> opened (Part000.idb_open name version fn w)).
Proof.
  intros r p opened.
  assert (H : opened (Idb.idb_open name version fn w)).
  { destruct (idb_open_world_idb w name version fn) as (Hr & Hq & Hp).
    split; [exact Hr|]. split; [exact Hq|].
    unfold promise_state. rewrite Hp. apply lookup_fresh_promise. }
  split; [exact H|]. intros Hn. by rewrite idb_open_same.
Qed.



(** ** Reads and writes through the connection facade *)

Lemma transaction_ok w n d t st mode :
  w_dbs w !! n = Some d -> db_closed d = false -> db_stores d !! t = Some st ->
  Engine.transaction (VDb n) [VStr t] mode w =
    (set_log (w_log w ++ [CTransaction n [VStr t] mode]) w,
     Return {| Engine.tx_db := n; Engine.tx_scope := [t]; Engine.tx_mode := mode |}).
Proof.
  intros Hd Hc Hs. unfold Engine.transaction, bind, log_call, modify, get_world.
  simpl. rewrite Hd, Hc. simpl. rewrite Hs. reflexivity.
Qed.

Lemma objectStore_ok w n t mode :
  Engine.objectStore {| Engine.tx_db := n; Engine.tx_scope := [t]; Engine.tx_mode := mode |}
    (VStr t) w =
    (set_log (w_log w ++ [CObjectStore n (VStr t)]) w,
     Return {| Engine.sh_db := n; Engine.sh_name := t; Engine.sh_mode := mode |}).
Proof.
  unfold Engine.objectStore, bind, log_call, modify. simpl.
  rewrite bool_decide_true by set_solver. reflexivity.
Qed.

Lemma open_store w n d t st mode {A} (k : Engine.storeh -> M A) :
  w_dbs w !! n = Some d -> db_closed d = false -> db_stores d !! t = Some st ->
  (let! tx := Engine.transaction (VDb n) [VStr t] mode in
   let! s := Engine.objectStore tx (VStr t) in
   k s) w
  = k {| Engine.sh_db := n; Engine.sh_name := t; Engine.sh_mode := mode |}
      (at_store n t mode w).
Proof.
  intros Hd Hc Hs. unfold bind at 1. rewrite (transaction_ok _ _ _ _ _ _ Hd Hc Hs).
  unfold bind at 1. rewrite objectStore_ok. unfold at_store. simpl.
  by rewrite <- app_assoc.
Qed.

Lemma lookup_store_at_store w n t mode db table :
  Engine.lookup_store (at_store n t mode w) db table = Engine.lookup_store w db table.
Proof. reflexivity. Qed.

Lemma lookup_store_known w n d t st :
  w_dbs w !! n = Some d -> db_stores d !! t = Some st ->
  Engine.lookup_store w n t = Some st.
Proof. intros Hd Hs. unfold Engine.lookup_store. by rewrite Hd. Qed.

Lemma records_put_store w n d t st' :
  w_dbs w !! n = Some d ->
  records (Engine.put_store n t st' w) n t = st_records st'.
Proof.
  intros Hd. unfold records, Engine.lookup_store, Engine.put_store. simpl.
  rewrite lookup_alter_eq, Hd. simpl. by rewrite lookup_insert_eq.
Qed.

Lemma records_same_dbs w w' n t : w_dbs w' = w_dbs w -> records w' n t = records w n t.
Proof. intros H. unfold records, Engine.lookup_store. by rewrite H. Qed.

Ltac run_store_op Hd Hs :=
  unfold log_call, modify, Engine.the_store, get_world, Engine.writable,
    Engine.lookup_store, bind;
  simpl; rewrite Hd; simpl; rewrite Hs; simpl.

Lemma add_existing w n d t st v k pk old :
  w_dbs w !! n = Some d -> db_stores d !! t = Some st ->
  Engine.primary_key st v k = Some pk ->
  st_records st !! pk = Some old ->
  exists w',
    Engine.add {| Engine.sh_db := n; Engine.sh_name := t; Engine.sh_mode := "readwrite" |} v k w
    = (w', Return (length (w_reqs w))) /\
    w_reqs w' = w_reqs w ++ [fresh_request (Fails (dom_exception "ConstraintError"))] /\
    w_promises w' = w_promises w /\
    records w' n t = st_records st.
Proof.
  intros Hd Hs Hpk Hold. eexists. split; [|split; [|split]].
  - unfold Engine.add. run_store_op Hd Hs. rewrite Hpk, Hold. reflexivity.
  - reflexivity.
  - reflexivity.
  - unfold records, Engine.lookup_store. simpl. by rewrite Hd, Hs.
Qed.

Lemma add_fresh w n d t st v k pk :
  w_dbs w !! n = Some d -> db_stores d !! t = Some st ->
  Engine.primary_key st v k = Some pk ->
  Engine.unique_conflict st pk v = false ->
  st_records st !! pk = None ->
  exists w',
    Engine.add {| Engine.sh_db := n; Engine.sh_name := t; Engine.sh_mode := "readwrite" |} v k w
    = (w', Return (length (w_reqs w))) /\
    w_reqs w' = w_reqs w ++ [fresh_request (Succeeds (key_value pk))] /\
    w_promises w' = w_promises w /\
    records w' n t = <[pk := v]> (st_records st).
Proof.
  intros Hd Hs Hpk Hu Hnew. eexists. split; [|split; [|split]].
  - unfold Engine.add. run_store_op Hd Hs. rewrite Hpk, Hnew, Hu. reflexivity.
  - reflexivity.
  - reflexivity.
  - unfold records, Engine.lookup_store, Engine.put_store. simpl.
    rewrite lookup_alter_eq, Hd. simpl. by rewrite lookup_insert_eq.
Qed.

Lemma add_conflict w n d t st v k pk :
  w_dbs w !! n = Some d -> db_stores d !! t = Some st ->
  Engine.primary_key st v k = Some pk ->
  Engine.unique_conflict st pk v = true ->
  exists w',
    Engine.add {| Engine.sh_db := n; Engine.sh_name := t; Engine.sh_mode := "readwrite" |} v k w
    = (w', Return (length (w_reqs w))) /\
    w_reqs w' = w_reqs w ++ [fresh_request (Fails (dom_exception "ConstraintError"))] /\
    w_promises w' = w_promises w /\
    w_dbs w' = w_dbs w.
Proof.
  intros Hd Hs Hpk Hu. eexists. split; [|split; [|split]].
  - unfold Engine.add. run_store_op Hd Hs. rewrite Hpk, Hu.
    destruct (st_records st !! pk); reflexivity.
  - reflexivity.
  - reflexivity.
  - reflexivity.
Qed.

Lemma put_any w n d t st v k pk :
  w_dbs w !! n = Some d -> db_stores d !! t = Some st ->
  Engine.primary_key st v k = Some pk ->
  Engine.unique_conflict st pk v = false ->
  exists w',
    Engine.put {| Engine.sh_db := n; Engine.sh_name := t; Engine.sh_mode := "readwrite" |} v k w
    = (w', Return (length (w_reqs w))) /\
    w_reqs w' = w_reqs w ++ [fresh_request (Succeeds (key_value pk))] /\
    w_promises w' = w_promises w /\
    records w' n t = <[pk := v]> (st_records st).
Proof.
  intros Hd Hs Hpk Hu. eexists. split; [|split; [|split]].
  - unfold Engine.put. run_store_op Hd Hs. rewrite Hpk, Hu. reflexivity.
  - reflexivity.
  - reflexivity.
  - unfold records, Engine.lookup_store, Engine.put_store. simpl.
    rewrite lookup_alter_eq, Hd. simpl. by rewrite lookup_insert_eq.
Qed.

Lemma put_conflict w n d t st v k pk :
  w_dbs w !! n = Some d -> db_stores d !! t = Some st ->
  Engine.primary_key st v k = Some pk ->
  Engine.unique_conflict st pk v = true ->
  exists w',
    Engine.put {| Engine.sh_db := n; Engine.sh_name := t; Engine.sh_mode := "readwrite" |} v k w
    = (w', Return (length (w_reqs w))) /\
    w_reqs w' = w_reqs w ++ [fresh_request (Fails (dom_exception "ConstraintError"))] /\
    w_promises w' = w_promises w /\
    w_dbs w' = w_dbs w.
Proof.
  intros Hd Hs Hpk Hu. eexists. split; [|split; [|split]].
  - unfold Engine.put. run_store_op Hd Hs. rewrite Hpk, Hu. reflexivity.
  - reflexivity.
  - reflexivity.
  - reflexivity.
Qed.

(** A request placed on the collection and wrapped by [promisify], then
    notified by the engine. *)
Lemma completed_request run_handler (op : M nat) w w' c rs n t :
  (forall p r w, run_handler (HResolveResult p r) (VEvent "success" (VReq r)) w
                 = resolve p (request_result w r) w) ->
  (forall p r w, run_handler (HRejectError p r) (VEvent "error" (VReq r)) w
                 = reject p (request_error w r) w) ->
  op w = (w', Return (length (w_reqs w))) ->
  w_reqs w' = w_reqs w ++ [fresh_request c] ->
  w_promises w' = w_promises w ->
  records w' n t = rs ->
  outcome_is (completed (deliver_with run_handler) (let! r := op in Idb.promisify r) w)
    (match c with Succeeds v => Fulfilled v | Fails e => Rejected e end) n t rs.
Proof.
  intros H1 H2 Hop Hreqs Hproms Hrs.
  unfold completed, bind. rewrite Hop.
  assert (Hq : w_reqs w' !! length (w_reqs w) = Some (fresh_request c)).
  { rewrite Hreqs, lookup_app_r, Nat.sub_diag by lia. reflexivity. }
  destruct (promisified_deliver run_handler H1 H2 w' _ _ c Hq eq_refl) as [Hp Hd].
  rewrite promisify_spec_idb. unfold outcome_is. simpl fst. simpl snd.
  rewrite promisify_spec_idb in Hp, Hd. simpl fst in Hp, Hd.
  rewrite Hproms in *. split.
  - exact Hp.
  - rewrite <- Hrs. by apply records_same_dbs.
Qed.

Lemma assertName_valid name label w :
  valid_name name = true -> Part000.assertName name label w = (w, Return tt).
Proof.
  destruct name; try discriminate. simpl. by destruct (String.eqb s "").
Qed.

Lemma valid_name_str t : t <> "" -> valid_name (VStr t) = true.
Proof. intros H. simpl. destruct (String.eqb_spec t ""); [done|reflexivity]. Qed.

Lemma client_insert_shape_idb w n d t st v k :
  w_dbs w !! n = Some d -> db_closed d = false -> db_stores d !! t = Some st ->
  Idb.client_insert (VDb n) (VStr t) v k w
  = (let! r := fun w => Engine.add (rw_store n t) v (key_arg k) (at_store n t "readwrite" w) in
     Idb.promisify r) w.
Proof.
  intros Hd Hc Hs. unfold Idb.client_insert. unfold bind at 1. symmetry. unfold bind at 1.
  destruct k; simpl key_arg; by rewrite (open_store w n d t st "readwrite").
Qed.

Lemma client_update_shape_idb w n d t st v k :
  w_dbs w !! n = Some d -> db_closed d = false -> db_stores d !! t = Some st ->
  Idb.client_update (VDb n) (VStr t) v k w
  = (let! r := fun w => Engine.put (rw_store n t) v (key_arg k) (at_store n t "readwrite" w) in
     Idb.promisify r) w.
Proof.
  intros Hd Hc Hs. unfold Idb.client_update. unfold bind at 1. symmetry. unfold bind at 1.
  destruct k; simpl key_arg; by rewrite (open_store w n d t st "readwrite").
Qed.

Lemma client_insert_shape_part000 w n d t st v k :
  w_dbs w !! n = Some d -> db_closed d = false -> db_stores d !! t = Some st ->
  t <> "" ->
  Part000.client_insert (VDb n) (VStr t) v k w
  = (let! r := fun w => Engine.add (rw_store n t) v (key_arg k) (at_store n t "readwrite" w) in
     Idb.promisify r) w.
Proof.
  intros Hd Hc Hs Ht. unfold Part000.client_insert. unfold bind at 1.
  rewrite assertName_valid by (by apply valid_name_str).
  rewrite (open_store w n d t st "readwrite") by done.
  unfold bind. destruct k; reflexivity.
Qed.

Lemma client_update_shape_part000 w n d t st v k :
  w_dbs w !! n = Some d -> db_closed d = false -> db_stores d !! t = Some st ->
  t <> "" ->
  Part000.client_update (VDb n) (VStr t) v k w
  = (let! r := fun w => Engine.put (rw_store n t) v (key_arg k) (at_store n t "readwrite" w) in
     Idb.promisify r) w.
Proof.
  intros Hd Hc Hs Ht. unfold Part000.client_update. unfold bind at 1.
  rewrite assertName_valid by (by apply valid_name_str).
  rewrite (open_store w n d t st "readwrite") by done.
  unfold bind. destruct k; reflexivity.
Qed.

Lemma completed_ext deliver (c c' : M nat) w :
  c w = c' w -> completed deliver c w = completed deliver c' w.
Proof. intros H. unfold completed. by rewrite H. Qed.

Section InsertUpdate.

Variables (w : world) (n t : string) (d : database) (st : store) (v k : value) (pk : key).
Hypothesis Hd : w_dbs w !! n = Some d.
Hypothesis Hc : db_closed d = false.
Hypothesis Hs : db_stores d !! t = Some st.
Hypothesis Hpk : Engine.primary_key st v (key_arg k) = Some pk.
Hypothesis Hu : Engine.unique_conflict st pk v = false.

Variable run_handler : handler -> value -> world -> world.
Hypothesis resolve_result : forall p r w,
  run_handler (HResolveResult p r) (VEvent "success" (VReq r)) w
  = resolve p (request_result w r) w.
Hypothesis reject_error : forall p r w,
  run_handler (HRejectError p r) (VEvent "error" (VReq r)) w
  = reject p (request_error w r) w.

Let add_op : M nat :=
  fun w => Engine.add (rw_store n t) v (key_arg k) (at_store n t "readwrite" w).
Let put_op : M nat :=
  fun w => Engine.put (rw_store n t) v (key_arg k) (at_store n t "readwrite" w).

Lemma add_on_existing old :
  st_records st !! pk = Some old ->
  outcome_is (completed (deliver_with run_handler) (let! r := add_op in Idb.promisify r) w)
    (Rejected (dom_exception "ConstraintError")) n t (st_records st).
Proof.
  intros Hold.
  destruct (add_existing (at_store n t "readwrite" w) n d t st v (key_arg k) pk old)
    as (w' & Hop & Hreqs & Hproms & Hrs); try done.
  exact (completed_request run_handler add_op w w' (Fails _) _ n t
           resolve_result reject_error Hop Hreqs Hproms Hrs).
Qed.

Lemma add_on_fresh :
  st_records st !! pk = None ->
  outcome_is (completed (deliver_with run_handler) (let! r := add_op in Idb.promisify r) w)
    (Fulfilled (key_value pk)) n t (<[pk := v]> (st_records st)).
Proof.
  intros Hnew.
  destruct (add_fresh (at_store n t "readwrite" w) n d t st v (key_arg k) pk)
    as (w' & Hop & Hreqs & Hproms & Hrs); try done.
  exact (completed_request run_handler add_op w w' (Succeeds _) _ n t
           resolve_result reject_error Hop Hreqs Hproms Hrs).
Qed.

Lemma put_on_any :
  outcome_is (completed (deliver_with run_handler) (let! r := put_op in Idb.promisify r) w)
    (Fulfilled (key_value pk)) n t (<[pk := v]> (st_records st)).
Proof.
  destruct (put_any (at_store n t "readwrite" w) n d t st v (key_arg k) pk)
    as (w' & Hop & Hreqs & Hproms & Hrs); try done.
  exact (completed_request run_handler put_op w w' (Succeeds _) _ n t
           resolve_result reject_error Hop Hreqs Hproms Hrs).
Qed.

End InsertUpdate.

(** At a collection with a uniqueness-constrained index on "email" that
    holds the records 1 and 2: inserting a record with the new primary key
    3 that repeats the email of record 1 is rejected and creates nothing,
    and updating record 2 to the email of record 1 is rejected and
    overwrites nothing, in both modules. *)
Lemma insert_update_reject_on_unique_index :
  let v3 := VObj [("id", VNum 3); ("email", VStr "a@x")] in
  let v2 := VObj [("id", VNum 2); ("email", VStr "a@x")] in
  let rejected (res : world * option pstate) :=
    outcome_is res (Rejected (dom_exception "ConstraintError")) "U" "users"
      (st_records unique_store) in
  st_records unique_store !! KNum 3 = None /\
  is_Some (st_records unique_store !! KNum 2) /\
  rejected (completed Idb.deliver
              (Idb.client_insert (VDb "U") (VStr "users") v3 VUndefined) unique_world) /\
  rejected (completed Idb.deliver
              (Idb.client_update (VDb "U") (VStr "users") v3 VUndefined) unique_world) /\
  rejected (completed Idb.deliver
              (Idb.client_update (VDb "U") (VStr "users") v2 VUndefined) unique_world) /\
  rejected (completed Part000.deliver
              (Part000.client_insert (VDb "U") (VStr "users") v3 VUndefined) unique_world) /\
  rejected (completed Part000.deliver
              (Part000.client_update (VDb "U") (VStr "users") v3 VUndefined) unique_world) /\
  rejected (completed Part000.deliver
              (Part000.client_update (VDb "U") (VStr "users") v2 VUndefined) unique_world).
Proof.
  cbv zeta. unfold outcome_is.
  split; [reflexivity|]. split; [by eexists|].
  repeat split; vm_compute; reflexivity.
Qed.

(** C2, amended.  On a collection of an open connection and a record whose
    primary key is [pk] (the explicit key when one is given, the field of
    the key path otherwise), and which does not repeat, on a
    uniqueness-constrained index, the value of another record: when a
    record with key [pk] exists, [insert] is rejected (with the engine's
    constraint error, the records unchanged) while [update] with the same
    arguments is fulfilled and the record at [pk] is overwritten; when
    none exists, both are fulfilled and the record is created.  In both
    modules (the second one for a collection name it accepts). *)
Theorem insert_rejects_update_overwrites
    (w : world) (n t : string) (d : database) (st : store) (v k : value) (pk : key) :
  w_dbs w !! n = Some d -> db_closed d = false -> db_stores d !! t = Some st ->
  Engine.primary_key st v (key_arg k) = Some pk ->
  Engine.unique_conflict st pk v = false ->
  let insert1 := completed Idb.deliver (Idb.client_insert (VDb n) (VStr t) v k) w in
  let update1 := completed Idb.deliver (Idb.client_update (VDb n) (VStr t) v k) w in
  let insert2 := completed Part000.deliver (Part000.client_insert (VDb n) (VStr t) v k) w in
  let update2 := completed Part000.deliver (Part000.client_update (VDb n) (VStr t) v k) w in
  match st_records st !! pk with
  | Some _ =>
      outcome_is insert1 (Rejected (dom_exception "ConstraintError")) n t (st_records st) /\
      outcome_is update1 (Fulfilled (key_value pk)) n t (<[pk := v]> (st_records st)) /\
      (t <> "" ->
       outcome_is insert2 (Rejected (dom_exception "ConstraintError")) n t (st_records st) /\
       outcome_is update2 (Fulfilled (key_value pk)) n t (<[pk := v]> (st_records st)))
  | None =>
      outcome_is insert1 (Fulfilled (key_value pk)) n t (<[pk := v]> (st_records st)) /\
      outcome_is update1 (Fulfilled (key_value pk)) n t (<[pk := v]> (st_records st)) /\
      (t <> "" ->
       outcome_is insert2 (Fulfilled (key_value pk)) n t (<[pk := v]> (st_records st)) /\
       outcome_is update2 (Fulfilled (key_value pk)) n t (<[pk := v]> (st_records st)))
  end.
Proof.
  intros Hd Hc Hs Hpk Hu. cbn zeta.
  rewrite (completed_ext _ _ _ _ (client_insert_shape_idb w n d t st v k Hd Hc Hs)).
  rewrite (completed_ext _ _ _ _ (client_update_shape_idb w n d t st v k Hd Hc Hs)).
  destruct (st_records st !! pk) as [old|] eqn:E.
  - split; [|split].
    + by eapply (add_on_existing w n t d st v k pk Hd Hs Hpk Idb.run_handler).
    + by eapply (put_on_any w n t d st v k pk Hd Hs Hpk Hu Idb.run_handler).
    + intros Ht.
      rewrite (completed_ext _ _ _ _ (client_insert_shape_part000 w n d t st v k Hd Hc Hs Ht)).
      rewrite (completed_ext _ _ _ _ (client_update_shape_part000 w n d t st v k Hd Hc Hs Ht)).
      split.
      * by eapply (add_on_existing w n t d st v k pk Hd Hs Hpk Part000.run_handler).
      * by eapply (put_on_any w n t d st v k pk Hd Hs Hpk Hu Part000.run_handler).
  - split; [|split].
    + by eapply (add_on_fresh w n t d st v k pk Hd Hs Hpk Hu Idb.run_handler).
    + by eapply (put_on_any w n t d st v k pk Hd Hs Hpk Hu Idb.run_handler).
    + intros Ht.
      rewrite (completed_ext _ _ _ _ (client_insert_shape_part000 w n d t st v k Hd Hc Hs Ht)).
      rewrite (completed_ext _ _ _ _ (client_update_shape_part000 w n d t st v k Hd Hc Hs Ht)).
      split.
      * by eapply (add_on_fresh w n t d st v k pk Hd Hs Hpk Hu Part000.run_handler).
      * by eapply (put_on_any w n t d st v k pk Hd Hs Hpk Hu Part000.run_handler).
Qed.

Lemma insert_rejects_update_overwrites_witness :
  let v := VObj [("id", VNum 1); ("email", VStr "c@x")] in
  w_dbs unique_world !! "U" = Some unique_db /\
  db_closed unique_db = false /\
  db_stores unique_db !! "users" = Some unique_store /\
  Engine.primary_key unique_store v (key_arg VUndefined) = Some (KNum 1) /\
  Engine.unique_conflict unique_store (KNum 1) v = false /\
  outcome_is
    (completed Idb.deliver
       (Idb.client_insert (VDb "U") (VStr "users") v VUndefined) unique_world)
    (Rejected (dom_exception "ConstraintError")) "U" "users" (st_records unique_store) /\
  outcome_is
    (completed Idb.deliver
       (Idb.client_update (VDb "U") (VStr "users") v VUndefined) unique_world)
    (Fulfilled (VNum 1)) "U" "users" (<[KNum 1 := v]> (st_records unique_store)) /\
  outcome_is
    (completed Part000.deliver
       (Part000.client_update (VDb "U") (VStr "users") v VUndefined) unique_world)
    (Fulfilled (VNum 1)) "U" "users" (<[KNum 1 := v]> (st_records unique_store)).
Proof.
  intros v.
  assert (H1 : w_dbs unique_world !! "U" = Some unique_db) by reflexivity.
  assert (H2 : db_closed unique_db = false) by reflexivity.
  assert (H3 : db_stores unique_db !! "users" = Some unique_store) by reflexivity.
  assert (H4 : Engine.primary_key unique_store v (key_arg VUndefined) = Some (KNum 1))
    by reflexivity.
  assert (H5 : Engine.unique_conflict unique_store (KNum 1) v = false)
    by (vm_compute; reflexivity).
  pose proof (insert_rejects_update_overwrites unique_world "U" "users" unique_db
                unique_store v VUndefined (KNum 1) H1 H2 H3 H4 H5) as H.
  cbn zeta in H.
  assert (H6 : st_records unique_store !! KNum 1
               = Some (VObj [("id", VNum 1); ("email", VStr "a@x")])) by reflexivity.
  rewrite H6 in H.
  destruct H as (Hi & Hu & Hp).
  assert (Ht : "users" <> "") by discriminate.
  destruct (Hp Ht) as [_ Hu2].
  repeat split; try assumption; apply Hi || apply Hu || apply Hu2.
Defined.

(** ** Validation of names *)

(** Against C4 as stated, at a collection whose name is the empty
    string: [select] of src/idb.js raises nothing, calls the engine three
    times and returns a promise. *)
Lemma idb_select_skips_validation :
  let res := Idb.client_select (VDb "T") (VStr "") (VNum 1) sample_world in
  valid_name (VStr "") = false /\
  snd res = Return 0%nat /\
  w_log (fst res) =
    [CTransaction "T" [VStr ""] "readonly"; CObjectStore "T" (VStr ""); CGet "T" "" (VNum 1)].
Proof. vm_compute. repeat split. Qed.

(** The index name of [selectIndex] reaches the engine unchecked in the
    second module as well. *)
Lemma part000_selectIndex_index_unchecked :
  let res := Part000.client_selectIndex (VDb "T") (VStr "items") (VStr "") (VNum 1)
               sample_world in
  snd res = Throw (dom_exception "NotFoundError") /\
  w_log (fst res) =
    [CTransaction "T" [VStr "items"] "readonly"; CObjectStore "T" (VStr "items");
     CIndex "T" "items" (VStr "")].
Proof. vm_compute. repeat split. Qed.

Lemma assertName_invalid name label w :
  valid_name name = false ->
  Part000.assertName name label w
  = (w, Throw (type_error (label +:+ " must be a non-empty string"))).
Proof.
  destruct name; try reflexivity. simpl.
  destruct (String.eqb s ""); [reflexivity | discriminate].
Qed.

(** C4, amended.  In the module of src/unnamed/part_000 every public
    operation that takes a database name or a collection name checks it
    with [assertName] first: when the name is not a non-empty string the
    operation throws a [TypeError] at once, returns no promise, and leaves
    the world as it was, so that no engine call has been made. *)
Theorem part000_validates_names
    (db name a b c : value) (w : world) :
  valid_name name = false ->
  let table_error := type_error "Table name must be a non-empty string" in
  let store_error := type_error "Object store name must be a non-empty string" in
  let database_error := type_error "Database name must be a non-empty string" in
  Part000.client_clear db name w = (w, Throw table_error) /\
  Part000.client_count db name a w = (w, Throw table_error) /\
  Part000.client_delete db name a w = (w, Throw table_error) /\
  Part000.client_select db name a w = (w, Throw table_error) /\
  Part000.client_selectAll db name a b w = (w, Throw table_error) /\
  Part000.client_selectAllKeys db name a b w = (w, Throw table_error) /\
  Part000.client_selectIndex db name a b w = (w, Throw table_error) /\
  Part000.client_insert db name a b w = (w, Throw table_error) /\
  Part000.client_update db name a b w = (w, Throw table_error) /\
  Part000.upgrade_create db name a b w = (w, Throw store_error) /\
  Part000.upgrade_delete db name w = (w, Throw store_error) /\
  Part000.idb_delete name w = (w, Throw database_error) /\
  Part000.idb_open name a b w = (w, Throw database_error).
Proof.
  intros Hn. cbn zeta.
  repeat split;
    unfold Part000.client_clear, Part000.client_count, Part000.client_delete,
      Part000.client_select, Part000.client_selectAll, Part000.client_selectAllKeys,
      Part000.client_selectIndex, Part000.client_insert, Part000.client_update,
      Part000.upgrade_create, Part000.upgrade_delete, Part000.idb_delete,
      Part000.idb_open;
    unfold bind at 1; rewrite assertName_invalid by done; reflexivity.
Qed.

Lemma part000_validates_names_witness :
  valid_name (VStr "") = false /\
  Part000.client_select (VDb "T") (VStr "") (VNum 1) sample_world
  = (sample_world, Throw (type_error "Table name must be a non-empty string")).
Proof.
  split; [reflexivity|].
  exact (proj1 (proj2 (proj2 (proj2
           (part000_validates_names (VDb "T") (VStr "") (VNum 1) VUndefined VUndefined
              sample_world eq_refl))))).
Defined.

(** ** Frozen facades *)

Lemma prop_lookup_freeze k props :
  prop_lookup k ((fun kp => (fst kp, freeze_property (snd kp))) <$> props)
  = freeze_property <$> prop_lookup k props.
Proof.
  induction props as [|[k' p] props IH]; simpl; [done|].
  by destruct (String.eqb k k').
Qed.

Lemma frozen_refuses m o : apply_mutation m (freeze o) = freeze o.
Proof.
  destruct m as [k v|k|k d]; unfold apply_mutation; simpl o_props;
    rewrite prop_lookup_freeze; destruct (prop_lookup k (o_props o)); reflexivity.
Qed.

Lemma frozen_refuses_all ms o : apply_mutations ms (freeze o) = freeze o.
Proof.
  unfold apply_mutations. induction ms as [|m ms IH]; simpl; [done|].
  by rewrite frozen_refuses.
Qed.

(** C8. The connection facade and the upgrade facade of both modules are
    frozen: whatever sequence of assignments, deletions and property
    definitions is tried on one, the object stays as constructed, with
    the same property names holding the same operations. *)
Theorem facades_are_immutable (db : value) (ms : list mutation) :
  apply_mutations ms (Idb.client db) = Idb.client db /\
  apply_mutations ms (Idb.upgrade db) = Idb.upgrade db /\
  apply_mutations ms (Part000.client db) = Part000.client db /\
  apply_mutations ms (Part000.upgrade db) = Part000.upgrade db /\
  own_keys (apply_mutations ms (Idb.client db))
  = ["select"; "selectAll"; "selectAllKeys"; "selectIndex"; "delete"; "insert";
     "update"; "clear"; "count"; "close"] /\
  own_keys (apply_mutations ms (Idb.upgrade db)) = ["create"; "delete"] /\
  own_keys (apply_mutations ms (Part000.client db))
  = ["clear"; "close"; "count"; "delete"; "select"; "selectAll"; "selectAllKeys";
     "selectIndex"; "insert"; "update"] /\
  own_keys (apply_mutations ms (Part000.upgrade db)) = ["create"; "delete"].
Proof.
  unfold Idb.client, Idb.upgrade, Part000.client, Part000.upgrade.
  rewrite !frozen_refuses_all. repeat split.
Qed.

(** ** Creating a collection and its indexes *)

Lemma createObjectStore_fresh w n d table options :
  w_dbs w !! n = Some d -> db_stores d !! to_string table = None ->
  Engine.createObjectStore (VDb n) table options w
  = (store_created n table options w, Return (upgrade_store n (to_string table))).
Proof.
  intros Hd Hs. unfold Engine.createObjectStore, log_call, modify, get_world, bind.
  simpl. rewrite Hd, Hs. reflexivity.
Qed.

Lemma store_created_lookup w n d table options :
  w_dbs w !! n = Some d ->
  Engine.lookup_store (store_created n table options w) n (to_string table)
  = Some {| st_options := options; st_records := ∅; st_indexes := ∅ |}.
Proof.
  intros Hd. unfold Engine.lookup_store, store_created, Engine.put_store. simpl.
  rewrite lookup_alter_eq, Hd. simpl. by rewrite lookup_insert_eq.
Qed.

Lemma get_field_schema k l entries :
  NoDup (fst <$> entries) -> (k, l) ∈ entries ->
  get_field k ((fun e => (fst e, VRef (snd e))) <$> entries) = VRef l.
Proof.
  induction entries as [|[k' l'] entries IH]; intros Hnd Hin.
  - by apply elem_of_nil in Hin.
  - simpl in *. apply NoDup_cons in Hnd as [Hk' Hnd].
    apply elem_of_cons in Hin as [[= -> ->]|Hin].
    + by rewrite String.eqb_refl.
    + destruct (String.eqb_spec k k') as [->|Hne].
      * exfalso. apply Hk'. apply list_elem_of_fmap. by exists (k', l).
      * by apply IH.
Qed.

Lemma lookup_store_frame w' w n t :
  w_dbs w' = w_dbs w -> Engine.lookup_store w' n t = Engine.lookup_store w n t.
Proof. intros H. unfold Engine.lookup_store. by rewrite H. Qed.

Section Round.

Variables (n t : string).

Lemma create_round_eq w k l elems st :
  read_array w l = Some elems ->
  Engine.lookup_store w n t = Some st ->
  create_round n t w (k, l)
  = Engine.put_store n t
      (Engine.set_indexes (<[k := index_of_args (VStr k :: elems)]> (st_indexes st)) st)
      (set_log (w_log w ++ [CCreateIndex n t (VStr k :: elems)])
         (set_heap (<[l := VStr k :: elems]> (w_heap w)) w)).
Proof.
  intros Ha Hst. unfold read_array in Ha.
  assert (Hlt : (l < length (w_heap w))%nat) by (by eapply lookup_lt_Some).
  unfold create_round. simpl fst. simpl snd. unfold unshift. rewrite Ha.
  assert (Hr : read_array (set_heap (<[l := VStr k :: elems]> (w_heap w)) w) l
               = Some (VStr k :: elems)).
  { unfold read_array. simpl. by apply list_lookup_insert_eq. }
  rewrite Hr. simpl default.
  change (Engine.lookup_store (set_log _ (set_heap _ w)) n t)
    with (Engine.lookup_store w n t).
  by rewrite Hst.
Qed.

Lemma round_facts w k l elems st :
  read_array w l = Some elems ->
  Engine.lookup_store w n t = Some st ->
  let w' := create_round n t w (k, l) in
  (forall l', read_array w' l'
              = if decide (l' = l) then Some (VStr k :: elems) else read_array w l') /\
  Engine.lookup_store w' n t
  = Some (Engine.set_indexes (<[k := index_of_args (VStr k :: elems)]> (st_indexes st)) st) /\
  (forall t', t' <> t -> Engine.lookup_store w' n t' = Engine.lookup_store w n t') /\
  w_log w' = w_log w ++ [CCreateIndex n t (VStr k :: elems)] /\
  w_promises w' = w_promises w /\ w_reqs w' = w_reqs w.
Proof.
  intros Ha Hst. cbn zeta. rewrite (create_round_eq w k l elems st Ha Hst).
  unfold read_array in Ha.
  assert (Hlt : (l < length (w_heap w))%nat) by (by eapply lookup_lt_Some).
  unfold Engine.lookup_store in Hst.
  destruct (w_dbs w !! n) as [d|] eqn:Hd; [|discriminate].
  repeat split.
  - intros l'. unfold read_array. simpl.
    destruct (decide (l' = l)) as [->|Hne].
    + by rewrite list_lookup_insert_eq.
    + by rewrite list_lookup_insert_ne.
  - unfold Engine.lookup_store, Engine.put_store. simpl.
    rewrite lookup_alter_eq, Hd. simpl. by rewrite lookup_insert_eq.
  - intros t' Hne. unfold Engine.lookup_store, Engine.put_store. simpl.
    rewrite lookup_alter_eq, Hd. simpl. by rewrite lookup_insert_ne.
Qed.

(** One round of the loop, as the modules write it. *)
Lemma round_runs fields w k l x xs st :
  get_field k fields = VRef l ->
  read_array w l = Some (x :: xs) ->
  Engine.lookup_store w n t = Some st ->
  st_indexes st !! k = None ->
  (let! a := get_prop (VObj fields) k in
   call_unshift a (VStr k) ;;;
   let! a' := get_prop (VObj fields) k in
   let! args := spread a' in
   Engine.createIndex (upgrade_store n t) args) w
  = (create_round n t w (k, l), Return tt).
Proof.
  intros Hf Ha Hst Hix.
  rewrite (create_round_eq w k l (x :: xs) st Ha Hst).
  unfold get_prop, bind, ret. rewrite Hf. simpl call_unshift. unfold modify.
  unfold spread, get_world, bind, ret.
  unfold unshift. unfold read_array in Ha. rewrite Ha.
  assert (Hlt : (l < length (w_heap w))%nat) by (by eapply lookup_lt_Some).
  assert (Hr : read_array (set_heap (<[l := VStr k :: x :: xs]> (w_heap w)) w) l
               = Some (VStr k :: x :: xs)).
  { unfold read_array. simpl. by apply list_lookup_insert_eq. }
  rewrite Hr. simpl default.
  unfold Engine.createIndex, log_call, modify, Engine.the_store, get_world, bind, ret.
  unfold upgrade_store. cbn [Engine.sh_db Engine.sh_name].
  rewrite (lookup_store_frame _ w) by reflexivity.
  rewrite Hst. cbv beta iota. change (to_string (VStr k)) with k. rewrite Hix.
  unfold index_of_args, nth_arg. simpl nth.
  destruct xs; reflexivity.
Qed.

Lemma loop_runs fields sfx : forall w st,
  NoDup (fst <$> sfx) ->
  (forall k l, (k, l) ∈ sfx -> get_field k fields = VRef l) ->
  (forall k l, (k, l) ∈ sfx -> exists x xs, read_array w l = Some (x :: xs)) ->
  Engine.lookup_store w n t = Some st ->
  (forall k, k ∈ fst <$> sfx -> st_indexes st !! k = None) ->
  for_each (fst <$> sfx) (fun k =>
    let! a := get_prop (VObj fields) k in
    call_unshift a (VStr k) ;;;
    let! a' := get_prop (VObj fields) k in
    let! args := spread a' in
    Engine.createIndex (upgrade_store n t) args) w
  = (fold_left (create_round n t) sfx w, Return tt).
Proof.
  induction sfx as [|[k l] sfx IH]; intros w st Hnd Hf Ha Hst Hix; [reflexivity|].
  simpl in Hnd. apply NoDup_cons in Hnd as [Hk Hnd].
  destruct (Ha k l) as (x & xs & Hx); [left|].
  cbn [fmap list_fmap for_each fst fold_left]. unfold bind at 1.
  rewrite (round_runs fields w k l x xs st); try done.
  2:{ apply Hf. left. }
  2:{ apply Hix. simpl. left. }
  destruct (round_facts w k l (x :: xs) st Hx Hst) as (Hh & Hst' & _ & _).
  eapply IH; try done.
  - intros k' l' Hin. apply Hf. by right.
  - intros k' l' Hin. rewrite Hh. case_decide.
    + eauto.
    + apply (Ha k'). by right.
  - simpl. intros k' Hin. rewrite lookup_insert_ne.
    + apply Hix. simpl. by right.
    + intros ->. done.
Qed.

(** The loop's effect on arrays held by one entry each. *)
Lemma loop_facts entries : forall w st,
  NoDup (fst <$> entries) -> NoDup (snd <$> entries) ->
  (forall k l, (k, l) ∈ entries -> is_Some (read_array w l)) ->
  Engine.lookup_store w n t = Some st ->
  let w' := fold_left (create_round n t) entries w in
  (forall k l, (k, l) ∈ entries ->
     read_array w' l = Some (VStr k :: entry_array w (k, l))) /\
  (forall l, l ∉ snd <$> entries -> read_array w' l = read_array w l) /\
  (exists st', Engine.lookup_store w' n t = Some st' /\
     st_options st' = st_options st /\ st_records st' = st_records st /\
     (forall k l, (k, l) ∈ entries ->
        st_indexes st' !! k = Some (index_of_args (VStr k :: entry_array w (k, l)))) /\
     (forall k, k ∉ fst <$> entries -> st_indexes st' !! k = st_indexes st !! k)) /\
  (forall t', t' <> t -> Engine.lookup_store w' n t' = Engine.lookup_store w n t') /\
  w_log w' = w_log w ++ (index_call n t w <$> entries) /\
  w_promises w' = w_promises w /\ w_reqs w' = w_reqs w.
Proof.
  induction entries as [|[k l] entries IH]; intros w st Hnk Hnl Ha Hst; cbn zeta.
  - simpl. repeat split; try done.
    + intros k l Hin. by apply elem_of_nil in Hin.
    + exists st. repeat split; try done. intros k l Hin. by apply elem_of_nil in Hin.
    + by rewrite app_nil_r.
  - simpl in Hnk, Hnl.
    apply NoDup_cons in Hnk as [Hk Hnk]. apply NoDup_cons in Hnl as [Hl Hnl].
    destruct (Ha k l) as [elems He]; [left|].
    destruct (round_facts w k l elems st He Hst) as (Hh & Hst1 & Hoth1 & Hlog1 & Hp1 & Hr1).
    set (w1 := create_round n t w (k, l)) in *.
    assert (Hsame : forall k' l', (k', l') ∈ entries -> read_array w1 l' = read_array w l').
    { intros k' l' Hin. rewrite Hh. case_decide as Heq; [|done].
      subst l'. exfalso. apply Hl. apply list_elem_of_fmap. by exists (k', l). }
    assert (Ha1 : forall k' l', (k', l') ∈ entries -> is_Some (read_array w1 l')).
    { intros k' l' Hin. rewrite (Hsame k' l' Hin). apply (Ha k'). by right. }
    destruct (IH w1 _ Hnk Hnl Ha1 Hst1)
      as (Hheap & Hfar & (st' & Hst' & Hopt & Hrec & Hin' & Hout') & Hoth & Hlog & Hp & Hr).
    simpl fold_left. fold w1. repeat split.
    + intros k' l' Hin. apply elem_of_cons in Hin as [[= -> ->]|Hin].
      * rewrite Hfar by done. rewrite Hh. rewrite decide_True by done.
        unfold entry_array. simpl. by rewrite He.
      * rewrite (Hheap k' l' Hin). unfold entry_array. simpl.
        by rewrite (Hsame k' l' Hin).
    + intros l' Hnin. simpl in Hnin. apply not_elem_of_cons in Hnin as [Hne Hnin].
      rewrite Hfar by done. rewrite Hh. by rewrite decide_False.
    + exists st'. split; [done|]. split; [done|]. split; [done|]. split.
      * intros k' l' Hin. apply elem_of_cons in Hin as [[= -> ->]|Hin].
        -- rewrite Hout' by done. simpl. rewrite lookup_insert_eq.
           unfold entry_array. simpl. by rewrite He.
        -- rewrite (Hin' k' l' Hin). unfold entry_array. simpl.
           by rewrite (Hsame k' l' Hin).
      * intros k' Hnin. simpl in Hnin. apply not_elem_of_cons in Hnin as [Hne Hnin].
        rewrite Hout' by done. simpl. by rewrite lookup_insert_ne.
    + intros t' Hne. rewrite Hoth by done. by apply Hoth1.
    + rewrite Hlog, Hlog1. rewrite <- app_assoc. simpl. f_equal. f_equal.
      * unfold index_call, entry_array. simpl. by rewrite He.
      * apply list_fmap_ext. intros i [k' l'] Hi.
        unfold index_call, entry_array. simpl.
        rewrite (Hsame k' l'); [done|]. by eapply list_elem_of_lookup_2.
    + by rewrite Hp.
    + by rewrite Hr.
Qed.

End Round.

Lemma schema_keys (entries : list (string * loc)) :
  fst <$> ((fun e : string * loc => (fst e, VRef (snd e))) <$> entries) = fst <$> entries.
Proof. rewrite <- list_fmap_compose. by apply list_fmap_ext. Qed.

(** [create] on a new name and a schema whose entries hold non-empty
    arrays: the collection is created, then one round per entry. *)
Lemma upgrade_create_world w n d table options entries :
  w_dbs w !! n = Some d -> db_stores d !! to_string table = None ->
  NoDup (fst <$> entries) ->
  (forall k l, (k, l) ∈ entries -> exists x xs, read_array w l = Some (x :: xs)) ->
  Idb.upgrade_create (VDb n) table options (schema_of entries) w
  = (fold_left (create_round n (to_string table)) entries (store_created n table options w),
     Return (VStore n (to_string table))).
Proof.
  intros Hd Hs Hnk Ha. unfold Idb.upgrade_create. unfold bind at 1.
  rewrite (createObjectStore_fresh w n d table options Hd Hs).
  unfold schema_of. cbn [truthy]. unfold object_keys.
  unfold bind at 1. unfold bind at 1. unfold ret at 1.
  rewrite schema_keys.
  rewrite (loop_runs n (to_string table) _ entries (store_created n table options w)
             {| st_options := options; st_records := ∅; st_indexes := ∅ |}); try done.
  - intros k l Hin. by apply get_field_schema.
  - by eapply store_created_lookup.
Qed.

Lemma upgrade_create_same db table options schema w :
  valid_name table = true ->
  Part000.upgrade_create db table options schema w
  = Idb.upgrade_create db table options schema w.
Proof.
  intros Hn. unfold Part000.upgrade_create. unfold bind at 1.
  by rewrite assertName_valid.
Qed.

Lemma upgrade_create_no_schema w n d table options :
  w_dbs w !! n = Some d -> db_stores d !! to_string table = None ->
  Idb.upgrade_create (VDb n) table options VUndefined w
  = (store_created n table options w, Return (VStore n (to_string table))).
Proof.
  intros Hd Hs. unfold Idb.upgrade_create. unfold bind at 1.
  by rewrite (createObjectStore_fresh w n d table options Hd Hs).
Qed.

Section Created.

Variables (w : world) (n : string) (d : database) (table options : value)
          (entries : list (string * loc)).
Hypothesis Hd : w_dbs w !! n = Some d.
Hypothesis Hs : db_stores d !! to_string table = None.
Hypothesis Hnk : NoDup (fst <$> entries).
Hypothesis Hnl : NoDup (snd <$> entries).
Hypothesis Ha : forall k l, (k, l) ∈ entries -> exists x xs, read_array w l = Some (x :: xs).

Let t := to_string table.
Let w' := fst (Idb.upgrade_create (VDb n) table options (schema_of entries) w).

Lemma created_returns :
  snd (Idb.upgrade_create (VDb n) table options (schema_of entries) w) = Return (VStore n t).
Proof. by rewrite (upgrade_create_world w n d table options entries). Qed.

Lemma created_facts :
  (forall k l, (k, l) ∈ entries ->
     read_array w' l = Some (VStr k :: entry_array w (k, l))) /\
  (forall l, l ∉ snd <$> entries -> read_array w' l = read_array w l) /\
  (exists st', Engine.lookup_store w' n t = Some st' /\
     st_options st' = options /\ st_records st' = ∅ /\
     (forall k l, (k, l) ∈ entries ->
        st_indexes st' !! k = Some (index_of_args (VStr k :: entry_array w (k, l)))) /\
     (forall k, k ∉ fst <$> entries -> st_indexes st' !! k = None)) /\
  (exists d', w_dbs w' !! n = Some d' /\
     forall t', t' <> t -> db_stores d' !! t' = db_stores d !! t') /\
  w_log w' = w_log w ++ CCreateObjectStore n table options :: (index_call n t w <$> entries) /\
  w_promises w' = w_promises w /\ w_reqs w' = w_reqs w.
Proof.
  subst w' t. rewrite (upgrade_create_world w n d table options entries); try done.
  simpl fst.
  pose proof (store_created_lookup w n d table options Hd) as Hst0.
  assert (Ha0 : forall k l, (k, l) ∈ entries ->
                 is_Some (read_array (store_created n table options w) l)).
  { intros k l Hin. destruct (Ha k l Hin) as (x & xs & Hx).
    change (read_array (store_created n table options w) l) with (read_array w l).
    rewrite Hx. eauto. }
  destruct (loop_facts n (to_string table) entries (store_created n table options w)
              _ Hnk Hnl Ha0 Hst0)
    as (Hheap & Hfar & (st' & Hst' & Hopt & Hrec & Hin & Hout) & Hoth & Hlog & Hp & Hr).
  split; [exact Hheap|]. split; [exact Hfar|]. split; [|split; [|split; [|split]]].
  - exists st'. split; [exact Hst'|]. split; [exact Hopt|]. split; [exact Hrec|].
    split; [exact Hin|].
    intros k Hk. rewrite Hout by done. simpl. apply lookup_empty.
  - unfold Engine.lookup_store in Hst'.
    destruct (w_dbs (fold_left (create_round n (to_string table)) entries
                       (store_created n table options w))
                !! n) as [d'|] eqn:Hd'; [|discriminate].
    exists d'. split; [done|]. intros t' Hne.
    pose proof (Hoth t' Hne) as H. unfold Engine.lookup_store in H.
    rewrite Hd' in H. rewrite H. unfold store_created, Engine.put_store. simpl.
    rewrite lookup_alter_eq, Hd. simpl. by rewrite lookup_insert_ne.
  - rewrite Hlog. unfold store_created. simpl. by rewrite <- app_assoc.
  - exact Hp.
  - exact Hr.
Qed.

End Created.

Lemma index_of_args_entry k path rest :
  index_of_args (VStr k :: path :: rest)
  = {| ix_keyPath := path; ix_options := default VUndefined (head rest) |}.
Proof. unfold index_of_args, nth_arg. simpl. by destruct rest. Qed.

(** On a connection without a collection named [table], and a
    schema whose entries (distinct names) each hold an array of their own
    that starts with a field path, followed by the optional flags:
    [create] returns the new collection, which has the given options, no
    record, and for each entry exactly one index of that name with that
    field path and those flags, and no other index; the engine receives
    one [createObjectStore] call, then one [createIndex] call per entry.
    Without a schema only the collection is created.  In both modules
    (the second one for a name it accepts). *)
Lemma create_builds_collection_and_indexes
    (w : world) (n : string) (d : database) (table options : value)
    (entries : list (string * loc)) :
  w_dbs w !! n = Some d -> db_stores d !! to_string table = None ->
  NoDup (fst <$> entries) -> NoDup (snd <$> entries) ->
  (forall k l, (k, l) ∈ entries -> exists path rest, read_array w l = Some (path :: rest)) ->
  let t := to_string table in
  let created (res : world * outcome value) :=
    snd res = Return (VStore n t) /\
    (exists st, Engine.lookup_store (fst res) n t = Some st /\
       st_options st = options /\ st_records st = ∅ /\
       (forall k l path rest, (k, l) ∈ entries -> read_array w l = Some (path :: rest) ->
          st_indexes st !! k
          = Some {| ix_keyPath := path; ix_options := default VUndefined (head rest) |}) /\
       (forall k, k ∉ fst <$> entries -> st_indexes st !! k = None)) /\
    w_log (fst res)
    = w_log w ++ CCreateObjectStore n table options :: (index_call n t w <$> entries) in
  created (Idb.upgrade_create (VDb n) table options (schema_of entries) w) /\
  (valid_name table = true ->
   created (Part000.upgrade_create (VDb n) table options (schema_of entries) w)) /\
  Idb.upgrade_create (VDb n) table options VUndefined w
  = (store_created n table options w, Return (VStore n t)).
Proof.
  intros Hd Hs Hnk Hnl Ha t created.
  assert (Hc : created (Idb.upgrade_create (VDb n) table options (schema_of entries) w)).
  { destruct (created_facts w n d table options entries Hd Hs Hnk Hnl Ha)
      as (_ & _ & (st & Hst & Hopt & Hrec & Hin & Hout) & _ & Hlog & _).
    split; [by apply (created_returns w n d table options entries)|]. split; [|exact Hlog].
    exists st. split; [exact Hst|]. split; [exact Hopt|]. split; [exact Hrec|].
    split; [|exact Hout].
    intros k l path rest Hkl Hpath. rewrite (Hin k l Hkl).
    unfold entry_array. simpl. rewrite Hpath. simpl.
    by rewrite index_of_args_entry. }
  split; [exact Hc|]. split.
  - intros Hn. by rewrite upgrade_create_same.
  - by apply (upgrade_create_no_schema w n d).
Qed.

Example create_builds_collection_and_indexes_sample :
  w_dbs sample_heap_world !! "T"
  = Some {| db_version := 1; db_stores := ∅; db_closed := false; db_onerror := None |} /\
  indexes (fst (Idb.upgrade_create (VDb "T") (VStr "items") (VObj [("keyPath", VStr "id")])
                  (schema_of [("byName", 0%nat)]) sample_heap_world)) "T" "items" !! "byName"
  = Some {| ix_keyPath := VStr "name"; ix_options := VObj [("unique", VBool true)] |}.
Proof.
  split; [reflexivity|].
  assert (Hd : w_dbs sample_heap_world !! "T"
               = Some {| db_version := 1; db_stores := ∅; db_closed := false;
                         db_onerror := None |}) by reflexivity.
  assert (Hk : NoDup (fst <$> [("byName", 0%nat)])) by (apply NoDup_singleton).
  assert (Hl : NoDup (snd <$> [("byName", 0%nat)])) by (apply NoDup_singleton).
  assert (Ha : forall k l, (k, l) ∈ [("byName", 0%nat)] ->
                 exists path rest, read_array sample_heap_world l = Some (path :: rest)).
  { intros k l Hin. apply list_elem_of_singleton in Hin. injection Hin as -> ->.
    by eexists _, _. }
  destruct (create_builds_collection_and_indexes sample_heap_world "T" _
              (VStr "items") (VObj [("keyPath", VStr "id")]) [("byName", 0%nat)]
              Hd eq_refl Hk Hl Ha)
    as ((_ & (st & Hst & _ & _ & Hin & _) & _) & _).
  unfold indexes. simpl to_string in Hst. rewrite Hst.
  apply (Hin "byName" 0%nat (VStr "name") [VObj [("unique", VBool true)]]).
  - apply list_elem_of_singleton. reflexivity.
  - reflexivity.
Defined.

(** C5. At a schema whose two entries hold one array, [create] passes to
    the second [createIndex] the array that already starts with the first
    name: the index "byAlias" is created on the field path "byName", with
    the path "name" where the flags belong, and not on the field path
    "name" with the flag [unique] that its entry gives. *)
Theorem create_on_shared_array :
  let res := Idb.upgrade_create (VDb "T") (VStr "items") (VObj [("keyPath", VStr "id")])
               (schema_of [("byName", 0%nat); ("byAlias", 0%nat)]) sample_heap_world in
  w_log (fst res) =
    [CCreateObjectStore "T" (VStr "items") (VObj [("keyPath", VStr "id")]);
     CCreateIndex "T" "items"
       [VStr "byName"; VStr "name"; VObj [("unique", VBool true)]];
     CCreateIndex "T" "items"
       [VStr "byAlias"; VStr "byName"; VStr "name"; VObj [("unique", VBool true)]]] /\
  indexes (fst res) "T" "items" !! "byAlias"
  = Some {| ix_keyPath := VStr "byName"; ix_options := VStr "name" |} /\
  indexes (fst res) "T" "items" !! "byAlias"
  <> Some {| ix_keyPath := VStr "name"; ix_options := VObj [("unique", VBool true)] |}.
Proof. vm_compute. repeat split. discriminate. Qed.

(** ** The schema after [create] *)

Lemma heap_create_round n t w e :
  w_heap (create_round n t w e) = w_heap (unshift (snd e) (VStr (fst e)) w).
Proof.
  unfold create_round.
  destruct (Engine.lookup_store _ n t); reflexivity.
Qed.

Lemma heap_unshift_ext l x w1 w2 :
  w_heap w1 = w_heap w2 -> w_heap (unshift l x w1) = w_heap (unshift l x w2).
Proof.
  intros H. unfold unshift. rewrite H.
  destruct (w_heap w2 !! l); simpl; by rewrite ?H.
Qed.

Lemma heap_rounds n t entries : forall w1 w2,
  w_heap w1 = w_heap w2 ->
  w_heap (fold_left (create_round n t) entries w1) = w_heap (unshift_names entries w2).
Proof.
  unfold unshift_names.
  induction entries as [|e entries IH]; intros w1 w2 H; simpl; [done|].
  apply IH. rewrite heap_create_round. by apply heap_unshift_ext.
Qed.

Lemma upgrade_create_heap w n d table options entries :
  w_dbs w !! n = Some d -> db_stores d !! to_string table = None ->
  NoDup (fst <$> entries) ->
  (forall k l, (k, l) ∈ entries -> exists x xs, read_array w l = Some (x :: xs)) ->
  w_heap (fst (Idb.upgrade_create (VDb n) table options (schema_of entries) w))
  = w_heap (unshift_names entries w).
Proof.
  intros Hd Hs Hnk Ha.
  rewrite (upgrade_create_world w n d table options entries) by done.
  simpl fst. by apply heap_rounds.
Qed.

Section Reused.

Variables (w : world) (n : string) (d : database) (table options table2 options2 : value)
          (entries : list (string * loc)).
Hypothesis Hd : w_dbs w !! n = Some d.
Hypothesis Hs : db_stores d !! to_string table = None.
Hypothesis Hs2 : db_stores d !! to_string table2 = None.
Hypothesis Hne : to_string table2 <> to_string table.
Hypothesis Hnk : NoDup (fst <$> entries).
Hypothesis Hnl : NoDup (snd <$> entries).
Hypothesis Ha : forall k l, (k, l) ∈ entries -> exists x xs, read_array w l = Some (x :: xs).

Let w1 := fst (Idb.upgrade_create (VDb n) table options (schema_of entries) w).
Let res2 := Idb.upgrade_create (VDb n) table2 options2 (schema_of entries) w1.

Lemma reused_schema :
  snd res2 = Return (VStore n (to_string table2)) /\
  w_log (fst res2)
  = w_log w1 ++ CCreateObjectStore n table2 options2
               :: (shifted_call n (to_string table2) w <$> entries) /\
  (forall k l, (k, l) ∈ entries ->
     indexes (fst res2) n (to_string table2) !! k
     = Some {| ix_keyPath := VStr k;
               ix_options := default VUndefined (head (entry_array w (k, l))) |}) /\
  (forall k l, (k, l) ∈ entries ->
     read_array (fst res2) l = Some (VStr k :: VStr k :: entry_array w (k, l))).
Proof.
  destruct (created_facts w n d table options entries Hd Hs Hnk Hnl Ha)
    as (Hheap & _ & _ & (d' & Hd' & Hoth) & _).
  fold w1 in Hheap, Hd'.
  assert (Hs' : db_stores d' !! to_string table2 = None) by (by rewrite Hoth).
  assert (Ha' : forall k l, (k, l) ∈ entries ->
                  exists x xs, read_array w1 l = Some (x :: xs)).
  { intros k l Hin. rewrite (Hheap k l Hin). eauto. }
  assert (Harr : forall e, e ∈ entries ->
                   entry_array w1 e = VStr (fst e) :: entry_array w e).
  { intros [k l] Hin. unfold entry_array at 1. simpl. by rewrite (Hheap k l Hin). }
  destruct (created_facts w1 n d' table2 options2 entries Hd' Hs' Hnk Hnl Ha')
    as (Hheap2 & _ & (st & Hst & _ & _ & Hin2 & _) & _ & Hlog2 & _).
  fold res2 in Hheap2, Hst, Hlog2.
  split; [by apply (created_returns w1 n d' table2 options2 entries)|].
  split; [|split].
  - rewrite Hlog2. f_equal. f_equal. apply list_fmap_ext. intros i e Hi.
    unfold index_call, shifted_call. rewrite Harr; [done|].
    by eapply list_elem_of_lookup_2.
  - intros k l Hin. unfold indexes. rewrite Hst. rewrite (Hin2 k l Hin).
    rewrite (Harr (k, l) Hin). simpl fst.
    unfold index_of_args, nth_arg. simpl.
    by destruct (entry_array w (k, l)).
  - intros k l Hin. rewrite (Hheap2 k l Hin). by rewrite (Harr (k, l) Hin).
Qed.

End Reused.

(** C9. [create] changes the caller's schema in place.  On a connection
    without a collection named [table], and a schema whose entries
    (distinct names) hold non-empty arrays: when [create] returns, the
    arrays of the heap are those obtained by putting, entry after entry,
    the name of the entry at position zero of its array; when each entry
    holds an array of its own, that array is then the name followed by
    its former elements, and every other array is as before; and a second
    [create] with the same schema object passes to [createIndex], for
    each entry, the name, then the name again where the field path
    belongs, then the former elements, so that each index of the second
    collection is keyed by its own name.  In both modules (the second one
    for names it accepts). *)
Theorem create_mutates_schema
    (w : world) (n : string) (d : database) (table options table2 options2 : value)
    (entries : list (string * loc)) :
  w_dbs w !! n = Some d ->
  db_stores d !! to_string table = None ->
  db_stores d !! to_string table2 = None ->
  to_string table2 <> to_string table ->
  NoDup (fst <$> entries) ->
  (forall k l, (k, l) ∈ entries -> exists x xs, read_array w l = Some (x :: xs)) ->
  let mutated (create : value -> value -> value -> value -> M value) :=
    let res := create (VDb n) table options (schema_of entries) w in
    let res2 := create (VDb n) table2 options2 (schema_of entries) (fst res) in
    snd res = Return (VStore n (to_string table)) /\
    w_heap (fst res) = w_heap (unshift_names entries w) /\
    (NoDup (snd <$> entries) ->
     (forall k l, (k, l) ∈ entries ->
        read_array (fst res) l = Some (VStr k :: entry_array w (k, l))) /\
     (forall l, l ∉ snd <$> entries -> read_array (fst res) l = read_array w l) /\
     snd res2 = Return (VStore n (to_string table2)) /\
     w_log (fst res2)
     = w_log (fst res) ++ CCreateObjectStore n table2 options2
                         :: (shifted_call n (to_string table2) w <$> entries) /\
     (forall k l, (k, l) ∈ entries ->
        indexes (fst res2) n (to_string table2) !! k
        = Some {| ix_keyPath := VStr k;
                  ix_options := default VUndefined (head (entry_array w (k, l))) |})) in
  mutated Idb.upgrade_create /\
  (valid_name table = true -> valid_name table2 = true -> mutated Part000.upgrade_create).
Proof.
  intros Hd Hs Hs2 Hne Hnk Ha mutated.
  assert (Hm : mutated Idb.upgrade_create).
  { split; [by apply (created_returns w n d table options entries)|].
    split; [by apply (upgrade_create_heap w n d)|].
    intros Hnl.
    destruct (created_facts w n d table options entries Hd Hs Hnk Hnl Ha)
      as (Hheap & Hfar & _).
    destruct (reused_schema w n d table options table2 options2 entries
                Hd Hs Hs2 Hne Hnk Hnl Ha) as (Hret & Hlog & Hix & _).
    split; [exact Hheap|]. split; [exact Hfar|]. split; [exact Hret|].
    split; [exact Hlog|exact Hix]. }
  split; [exact Hm|].
  intros Hv Hv2. unfold mutated.
  rewrite (upgrade_create_same _ table) by done.
  rewrite (upgrade_create_same _ table2) by done.
  exact Hm.
Qed.

Lemma create_mutates_schema_witness :
  w_dbs sample_heap_world !! "T"
  = Some {| db_version := 1; db_stores := ∅; db_closed := false; db_onerror := None |} /\
  w_heap (fst (Idb.upgrade_create (VDb "T") (VStr "a") VUndefined
                 (schema_of [("byName", 0%nat)]) sample_heap_world))
  = w_heap (unshift_names [("byName", 0%nat)] sample_heap_world).
Proof.
  split; [reflexivity|].
  assert (Hd : w_dbs sample_heap_world !! "T"
               = Some {| db_version := 1; db_stores := ∅; db_closed := false;
                         db_onerror := None |}) by reflexivity.
  assert (Hne : to_string (VStr "b") <> to_string (VStr "a")) by discriminate.
  assert (Hk : NoDup (fst <$> [("byName", 0%nat)])) by (apply NoDup_singleton).
  assert (Ha : forall k l, (k, l) ∈ [("byName", 0%nat)] ->
                 exists x xs, read_array sample_heap_world l = Some (x :: xs)).
  { intros k l Hin. apply list_elem_of_singleton in Hin. injection Hin as -> ->.
    by eexists _, _. }
  destruct (create_mutates_schema sample_heap_world "T" _
              (VStr "a") VUndefined (VStr "b") VUndefined [("byName", 0%nat)]
              Hd eq_refl eq_refl Hne Hk Ha)
    as ((_ & Hheap & _) & _).
  exact Hheap.
Defined.

(** The second [create] of a schema object at work. *)
Lemma create_twice_with_one_schema :
  let res := Idb.upgrade_create (VDb "T") (VStr "a") VUndefined
               (schema_of [("byName", 0%nat)]) sample_heap_world in
  let res2 := Idb.upgrade_create (VDb "T") (VStr "b") VUndefined
                (schema_of [("byName", 0%nat)]) (fst res) in
  w_log (fst res2) =
    [CCreateObjectStore "T" (VStr "a") VUndefined;
     CCreateIndex "T" "a" [VStr "byName"; VStr "name"; VObj [("unique", VBool true)]];
     CCreateObjectStore "T" (VStr "b") VUndefined;
     CCreateIndex "T" "b"
       [VStr "byName"; VStr "byName"; VStr "name"; VObj [("unique", VBool true)]]] /\
  (ix_keyPath <$> indexes (fst res2) "T" "b" !! "byName") = Some (VStr "byName").
Proof. vm_compute. split; reflexivity. Qed.

(** ** The two modules side by side *)

(** Strips the check of a name that [assertName] accepts. *)
Ltac skip_assert H :=
  unfold bind at 1; rewrite (assertName_valid _ _ _ H).

Lemma client_insert_same db table v k w :
  valid_name table = true ->
  Part000.client_insert db table v k w = Idb.client_insert db table v k w.
Proof.
  intros H. unfold Part000.client_insert, Idb.client_insert. skip_assert H.
  destruct k; unfold bind;
    (destruct (Engine.transaction db [table] "readwrite" w) as [w1 [tx|e]];
       [|reflexivity]);
    (destruct (Engine.objectStore tx table w1) as [w2 [st|e]]; reflexivity).
Qed.

Lemma client_update_same db table v k w :
  valid_name table = true ->
  Part000.client_update db table v k w = Idb.client_update db table v k w.
Proof.
  intros H. unfold Part000.client_update, Idb.client_update. skip_assert H.
  destruct k; unfold bind;
    (destruct (Engine.transaction db [table] "readwrite" w) as [w1 [tx|e]];
       [|reflexivity]);
    (destruct (Engine.objectStore tx table w1) as [w2 [st|e]]; reflexivity).
Qed.

Lemma upgrade_delete_same db table w :
  valid_name table = true ->
  Part000.upgrade_delete db table w = Idb.upgrade_delete db table w.
Proof. intros H. unfold Part000.upgrade_delete. by skip_assert H. Qed.

Lemma idb_delete_same name w :
  valid_name name = true -> Part000.idb_delete name w = Idb.idb_delete name w.
Proof. intros H. unfold Part000.idb_delete. by skip_assert H. Qed.

Lemma invoke_same m db args w :
  m = m_close \/ valid_name (nth_arg 0 args) = true ->
  Part000.invoke m db args w = Idb.invoke m db args w.
Proof.
  intros [->|H]; [reflexivity|].
  destruct m; unfold Part000.invoke, Idb.invoke; try reflexivity;
    try (unfold bind at 1; symmetry; unfold bind at 1; symmetry; f_equal).
  - unfold Part000.client_select. by skip_assert H.
  - unfold Part000.client_selectAll. by skip_assert H.
  - unfold Part000.client_selectAllKeys. by skip_assert H.
  - unfold Part000.client_selectIndex. by skip_assert H.
  - unfold Part000.client_delete. by skip_assert H.
  - by rewrite client_insert_same.
  - by rewrite client_update_same.
  - unfold Part000.client_clear. by skip_assert H.
  - unfold Part000.client_count. by skip_assert H.
  - by apply upgrade_create_same.
  - by apply upgrade_delete_same.
Qed.

Lemma client_lookup_same db name :
  prop_lookup name (o_props (Part000.client db))
  = prop_lookup name (o_props (Idb.client db)).
Proof.
  unfold Part000.client, Idb.client. simpl.
  repeat match goal with
         | |- context [String.eqb name ?s] =>
             destruct (String.eqb_spec name s) as [->|?]; [reflexivity|]
         end.
  reflexivity.
Qed.

Lemma call_method_same o name args w :
  valid_name (nth_arg 0 args) = true ->
  Part000.call_method o name args w = Idb.call_method o name args w.
Proof.
  intros H. unfold Part000.call_method, Idb.call_method.
  destruct (prop_lookup name (o_props o)) as [[[] ? ? ?]|]; try reflexivity.
  apply invoke_same. by right.
Qed.

Lemma run_action_same u a w :
  valid_action a = true -> Part000.run_action u a w = Idb.run_action u a w.
Proof.
  destruct a as [name args|v]; [|reflexivity]. simpl. intros H.
  unfold bind. by rewrite call_method_same.
Qed.

Lemma script_same u body : forall w,
  forallb valid_action body = true ->
  for_each body (Part000.run_action u) w = for_each body (Idb.run_action u) w.
Proof.
  induction body as [|a body IH]; intros w H; [reflexivity|].
  simpl in H. apply andb_prop in H as [Ha Hb]. simpl. unfold bind.
  rewrite (run_action_same u a w Ha).
  destruct (Idb.run_action u a w) as [w1 [[]|e]]; [by apply IH | reflexivity].
Qed.

Lemma call_function_same fn e db w :
  valid_fn fn = true ->
  Part000.call_function fn e db w = Idb.call_function fn e db w.
Proof.
  destruct fn; try reflexivity; simpl; intros H.
  - destruct m; try discriminate. reflexivity.
  - by apply script_same.
Qed.

Lemma run_handler_same h ev w :
  valid_handler h = true -> Part000.run_handler h ev w = Idb.run_handler h ev w.
Proof.
  destruct h; try reflexivity. simpl. intros H.
  destruct ev; try reflexivity. destruct ev; try reflexivity.
  destruct (request_result w r); try reflexivity.
  by rewrite call_function_same.
Qed.

(** ** Worlds whose callbacks use accepted names *)

Lemma hv_same w w' :
  w_reqs w' = w_reqs w -> w_dbs w' = w_dbs w -> handlers_valid w -> handlers_valid w'.
Proof. intros Hr Hd [H1 H2]. split; intros ? ?; rewrite ?Hr, ?Hd; eauto. Qed.

Lemma hv_alter_dbs (f : database -> database) n w :
  (forall d, db_onerror (f d) = db_onerror d) ->
  handlers_valid w -> handlers_valid (set_dbs (alter f n (w_dbs w)) w).
Proof.
  intros Hf [H1 H2]. split; [exact H1|]. simpl. intros m d.
  destruct (decide (n = m)) as [->|Hne].
  - rewrite lookup_alter_eq. destruct (w_dbs w !! m) as [d0|] eqn:E; [|done].
    simpl. intros [= <-]. rewrite Hf. eauto.
  - rewrite lookup_alter_ne by done. eauto.
Qed.

Lemma hv_put_store n t st w : handlers_valid w -> handlers_valid (Engine.put_store n t st w).
Proof. intros H. unfold Engine.put_store. by apply hv_alter_dbs. Qed.

Lemma hv_alter_reqs (f : request -> request) r w :
  (forall q, valid_request q = true -> valid_request (f q) = true) ->
  handlers_valid w -> handlers_valid (set_reqs (alter f r (w_reqs w)) w).
Proof.
  intros Hf [H1 H2]. split; [|exact H2]. simpl. intros i q.
  destruct (decide (r = i)) as [->|Hne].
  - rewrite list_lookup_alter_eq. destruct (w_reqs w !! i) as [q0|] eqn:E; [|done].
    simpl. intros [= <-]. eauto.
  - rewrite list_lookup_alter_ne by done. eauto.
Qed.

Lemma hv_unshift l x w : handlers_valid w -> handlers_valid (unshift l x w).
Proof. unfold unshift. by destruct (w_heap w !! l). Qed.

Lemma hv_settle p s w : handlers_valid w -> handlers_valid (settle p s w).
Proof. unfold settle. by destruct (w_promises w !! p) as [[]|]. Qed.

Lemma hv_set_result r v w : handlers_valid w -> handlers_valid (set_result r v w).
Proof. apply hv_alter_reqs. by intros []. Qed.

Lemma hv_set_error r e w : handlers_valid w -> handlers_valid (set_error r e w).
Proof. apply hv_alter_reqs. by intros []. Qed.

Lemma hv_set_onsuccess r h w :
  valid_handler h = true -> handlers_valid w -> handlers_valid (set_onsuccess r h w).
Proof.
  intros Hh. apply hv_alter_reqs. intros [] H. unfold valid_request in *. simpl in *.
  rewrite Hh. apply andb_prop in H as [H1 H3]. apply andb_prop in H1 as [H1 H2].
  by rewrite H2, H3.
Qed.

Lemma hv_set_onerror r h w :
  valid_handler h = true -> handlers_valid w -> handlers_valid (set_onerror r h w).
Proof.
  intros Hh. apply hv_alter_reqs. intros [] H. unfold valid_request in *. simpl in *.
  rewrite Hh. apply andb_prop in H as [H1 H3]. apply andb_prop in H1 as [H1 H2].
  by rewrite H1, H3.
Qed.

Lemma hv_set_onupgradeneeded r h w :
  valid_handler h = true -> handlers_valid w -> handlers_valid (set_onupgradeneeded r h w).
Proof.
  intros Hh. apply hv_alter_reqs. intros [] H. unfold valid_request in *. simpl in *.
  rewrite Hh. apply andb_prop in H as [H1 H3]. by rewrite H1.
Qed.

Lemma hv_set_db_onerror n p w :
  handlers_valid w -> handlers_valid (set_db_onerror n (HReject p) w).
Proof.
  intros [H1 H2]. split; [exact H1|]. simpl. intros m d.
  destruct (decide (n = m)) as [->|Hne].
  - rewrite lookup_alter_eq. destruct (w_dbs w !! m); [|done]. by intros [= <-].
  - rewrite lookup_alter_ne by done. eauto.
Qed.

Lemma hv_ensure_database n v w : handlers_valid w -> handlers_valid (ensure_database n v w).
Proof.
  intros [H1 H2]. unfold ensure_database.
  destruct (w_dbs w !! n) as [d|] eqn:E; (split; [exact H1|]); simpl; intros m d'.
  - destruct (decide (n = m)) as [->|Hne].
    + rewrite lookup_insert_eq. intros [= <-]. simpl. eauto.
    + rewrite lookup_insert_ne by done. eauto.
  - destruct (decide (n = m)) as [->|Hne].
    + rewrite lookup_insert_eq. by intros [= <-].
    + rewrite lookup_insert_ne by done. eauto.
Qed.

Lemma kv_ret {A} (a : A) : keeps_valid (ret a).
Proof. by intros w w' o [= <- _]. Qed.

Lemma kv_throw {A} e : keeps_valid (@throw A e).
Proof. by intros w w' o [= <- _]. Qed.

Lemma kv_bind {A B} (c : M A) (k : A -> M B) :
  keeps_valid c -> (forall a, keeps_valid (k a)) -> keeps_valid (bind c k).
Proof.
  intros Hc Hk w w' o. unfold bind.
  destruct (c w) as [w1 [a|e]] eqn:E; intros H Hw.
  - eapply Hk; [exact H|]. eapply Hc; eauto.
  - injection H as <- _. eapply Hc; eauto.
Qed.

Lemma kv_modify f :
  (forall w, handlers_valid w -> handlers_valid (f w)) -> keeps_valid (modify f).
Proof. intros Hf w w' o [= <- _]. apply Hf. Qed.

Lemma kv_get_world : keeps_valid get_world.
Proof. by intros w w' o [= <- _]. Qed.

Lemma kv_log_call c : keeps_valid (log_call c).
Proof. apply kv_modify. intros w. by apply hv_same. Qed.

Lemma kv_new_request pe : keeps_valid (new_request pe).
Proof.
  intros w w' o [= <- _] [H1 H2]. split; [|exact H2]. simpl. intros r q Hq.
  apply lookup_app_Some in Hq as [Hq|[_ Hq]]; [eauto|].
  apply list_lookup_singleton_Some in Hq as [_ <-]. reflexivity.
Qed.

Lemma kv_new_promise : keeps_valid new_promise.
Proof. intros w w' o [= <- _]. by apply hv_same. Qed.

Lemma kv_alloc_array l : keeps_valid (alloc_array l).
Proof. intros w w' o [= <- _]. by apply hv_same. Qed.

Lemma kv_for_each {A} (l : list A) (f : A -> M unit) :
  (forall a, keeps_valid (f a)) -> keeps_valid (for_each l f).
Proof.
  intros Hf. induction l as [|a l IH]; simpl.
  - apply kv_ret.
  - apply kv_bind; [apply Hf | intros _; apply IH].
Qed.

Create HintDb kv.

#[local] Hint Resolve kv_ret kv_throw kv_get_world kv_log_call kv_new_request
  kv_new_promise kv_alloc_array hv_put_store hv_unshift hv_alter_dbs : kv.

Ltac kv_step :=
  match goal with
  | |- keeps_valid (bind _ _) => apply kv_bind; [| intros ?]
  | |- keeps_valid (for_each _ _) => apply kv_for_each; intros ?
  | |- keeps_valid (modify _) => apply kv_modify; intros ? ?
  | |- keeps_valid (match ?x with _ => _ end) => destruct x
  | |- keeps_valid (if ?b then _ else _) => destruct b
  | |- keeps_valid _ => solve [eauto with kv]
  | |- handlers_valid _ => solve [eauto with kv]
  end.

Ltac kv_solve := repeat kv_step.

Lemma kv_transaction db tables mode : keeps_valid (Engine.transaction db tables mode).
Proof. unfold Engine.transaction. kv_solve. Qed.

Lemma kv_objectStore tx table : keeps_valid (Engine.objectStore tx table).
Proof. unfold Engine.objectStore. kv_solve. Qed.

Lemma kv_the_store sh : keeps_valid (Engine.the_store sh).
Proof. unfold Engine.the_store. kv_solve. Qed.

Lemma kv_writable sh : keeps_valid (Engine.writable sh).
Proof. unfold Engine.writable. kv_solve. Qed.

#[local] Hint Resolve kv_transaction kv_objectStore kv_the_store kv_writable : kv.

Lemma kv_get sh k : keeps_valid (Engine.get sh k).
Proof. unfold Engine.get. kv_solve. Qed.

Lemma kv_getAll sh q c : keeps_valid (Engine.getAll sh q c).
Proof. unfold Engine.getAll. kv_solve. Qed.

Lemma kv_getAllKeys sh q c : keeps_valid (Engine.getAllKeys sh q c).
Proof. unfold Engine.getAllKeys. kv_solve. Qed.

Lemma kv_index sh name : keeps_valid (Engine.index sh name).
Proof. unfold Engine.index. kv_solve. Qed.

Lemma kv_index_get ih k : keeps_valid (Engine.index_get ih k).
Proof. unfold Engine.index_get. kv_solve. Qed.

Lemma kv_delete sh k : keeps_valid (Engine.delete sh k).
Proof. unfold Engine.delete. kv_solve. Qed.

Lemma kv_add sh v k : keeps_valid (Engine.add sh v k).
Proof. unfold Engine.add. kv_solve. Qed.

Lemma kv_put sh v k : keeps_valid (Engine.put sh v k).
Proof. unfold Engine.put. kv_solve. Qed.

Lemma kv_clear sh : keeps_valid (Engine.clear sh).
Proof. unfold Engine.clear. kv_solve. Qed.

Lemma kv_count sh q : keeps_valid (Engine.count sh q).
Proof. unfold Engine.count. kv_solve. Qed.

Lemma kv_close db : keeps_valid (Engine.close db).
Proof. unfold Engine.close. kv_solve. Qed.

Lemma kv_createObjectStore db t o : keeps_valid (Engine.createObjectStore db t o).
Proof. unfold Engine.createObjectStore. kv_solve. Qed.

Lemma kv_createIndex sh args : keeps_valid (Engine.createIndex sh args).
Proof. unfold Engine.createIndex. kv_solve. Qed.

Lemma kv_deleteObjectStore db t : keeps_valid (Engine.deleteObjectStore db t).
Proof. unfold Engine.deleteObjectStore. kv_solve. Qed.

Lemma kv_object_keys o : keeps_valid (object_keys o).
Proof. unfold object_keys. kv_solve. Qed.

Lemma kv_get_prop o k : keeps_valid (get_prop o k).
Proof. unfold get_prop. kv_solve. Qed.

Lemma kv_call_unshift a x : keeps_valid (call_unshift a x).
Proof. unfold call_unshift. kv_solve. Qed.

Lemma kv_spread a : keeps_valid (spread a).
Proof. unfold spread. kv_solve. Qed.

Lemma kv_promisify r : keeps_valid (Idb.promisify r).
Proof.
  unfold Idb.promisify. kv_solve.
  - by apply hv_set_onsuccess.
  - by apply hv_set_onerror.
Qed.

#[local] Hint Resolve kv_get kv_getAll kv_getAllKeys kv_index kv_index_get kv_delete
  kv_add kv_put kv_clear kv_count kv_close kv_createObjectStore kv_createIndex
  kv_deleteObjectStore kv_object_keys kv_get_prop kv_call_unshift kv_spread
  kv_promisify : kv.

Lemma kv_invoke m db args : keeps_valid (Idb.invoke m db args).
Proof.
  unfold Idb.invoke; destruct m;
    unfold Idb.client_select, Idb.client_selectAll, Idb.client_selectAllKeys,
      Idb.client_selectIndex, Idb.client_delete, Idb.client_insert,
      Idb.client_update, Idb.client_clear, Idb.client_count, Idb.client_close,
      Idb.upgrade_create, Idb.upgrade_delete;
    kv_solve.
Qed.

#[local] Hint Resolve kv_invoke : kv.

Lemma kv_call_function fn e db : keeps_valid (Idb.call_function fn e db).
Proof.
  unfold Idb.call_function. destruct fn; kv_solve.
  unfold Idb.run_action, Idb.call_method. kv_solve.
Qed.

Lemma hv_run_handler h ev w :
  handlers_valid w -> handlers_valid (Idb.run_handler h ev w).
Proof.
  intros Hw. destruct h; simpl; try (by apply hv_settle).
  - destruct ev; try done. destruct ev; try done. by apply hv_settle.
  - destruct ev; try done. destruct ev; try done.
    destruct (request_result w r); try done.
    destruct (Idb.call_function _ _ _ _) as [w2 [u|err]] eqn:E.
    + eapply kv_call_function; [exact E|]. by apply hv_set_db_onerror.
    + apply hv_settle. eapply kv_call_function; [exact E|]. by apply hv_set_db_onerror.
Qed.

Lemma hv_dispatch h ev w :
  handlers_valid w -> handlers_valid (dispatch Idb.run_handler h ev w).
Proof. destruct h; simpl; [apply hv_run_handler | done]. Qed.

Lemma hv_notify n w : handlers_valid w -> handlers_valid (Idb.notify n w).
Proof.
  intros Hw. unfold Idb.notify.
  destruct n; unfold notify_with; cbv zeta; apply hv_dispatch.
  - by apply hv_set_result.
  - by apply hv_set_error.
  - by apply hv_set_result, hv_ensure_database.
  - done.
Qed.

Lemma valid_request_slot w r (f : request -> option handler) :
  handlers_valid w ->
  (forall q, valid_request q = true -> valid_slot (f q) = true) ->
  valid_slot (w_reqs w !! r ≫= f) = true.
Proof.
  intros [H1 _] Hf. destruct (w_reqs w !! r) as [q|] eqn:E; [|done].
  simpl. apply Hf. eauto.
Qed.

Lemma dispatch_same h ev w :
  valid_slot h = true ->
  dispatch Part000.run_handler h ev w = dispatch Idb.run_handler h ev w.
Proof. destruct h; [apply run_handler_same | done]. Qed.

Lemma notify_same n w :
  handlers_valid w -> Part000.notify n w = Idb.notify n w.
Proof.
  intros Hw. unfold Part000.notify, Idb.notify.
  destruct n; unfold notify_with; cbv zeta; apply dispatch_same.
  - apply (valid_request_slot (set_result r v w)); [by apply hv_set_result|].
    intros q H. unfold valid_request in H.
    apply andb_prop in H as [H _]. by apply andb_prop in H as [H _].
  - apply (valid_request_slot (set_error r e w)); [by apply hv_set_error|].
    intros q H. unfold valid_request in H.
    apply andb_prop in H as [H _]. by apply andb_prop in H as [_ H].
  - apply (valid_request_slot (set_result r (VDb name) (ensure_database name version w)));
      [by apply hv_set_result, hv_ensure_database|].
    intros q H. unfold valid_request in H. by apply andb_prop in H as [_ H].
  - destruct Hw as [_ H2]. destruct (w_dbs w !! db) as [d|] eqn:E; [|done].
    simpl. eauto.
Qed.

Lemma run_same ns : forall w,
  handlers_valid w -> Part000.run ns w = Idb.run ns w.
Proof.
  induction ns as [|n ns IH]; intros w Hw; [reflexivity|].
  unfold Part000.run, Idb.run in *. simpl.
  change (notify_with Part000.run_handler n w) with (Part000.notify n w).
  rewrite (notify_same n w Hw). apply IH. by apply hv_notify.
Qed.

Lemma hv_idb_open name version fn :
  valid_fn (callback_of version fn) = true ->
  keeps_valid (Idb.idb_open name version fn).
Proof.
  intros Hfn. unfold Idb.idb_open, Engine.open. kv_solve.
  - by apply hv_set_onerror.
  - by apply hv_set_onsuccess.
  - by apply hv_set_onupgradeneeded.
Qed.

Lemma kv_idb_delete name : keeps_valid (Idb.idb_delete name).
Proof.
  unfold Idb.idb_delete, Engine.deleteDatabase. kv_solve.
  destruct H as [H1 H2]. split; [exact H1|]. simpl.
  intros n0 d0 Hl. apply lookup_delete_Some in Hl as [_ Hl]. eauto.
Qed.

Lemma hv_empty : handlers_valid empty_world.
Proof. split; simpl; intros ? ?; [by rewrite lookup_nil | by rewrite lookup_empty]. Qed.

Lemma hv_run ns : forall w, handlers_valid w -> handlers_valid (Idb.run ns w).
Proof.
  induction ns as [|n ns IH]; intros w Hw; [done|].
  unfold Idb.run in *. simpl. apply IH.
  change (notify_with Idb.run_handler n w) with (Idb.notify n w). by apply hv_notify.
Qed.

(** C10. With names that are non-empty strings the two modules behave
    alike: every operation of the connection facade and of the upgrade
    facade, called as a closure or by its name on the facade object,
    [open] and [delete] return the same result and leave the same world,
    hence the same trace of engine calls, the same requests and handlers
    and the same promises; and in a world whose registered upgrade
    callbacks call the facade with such names, every sequence of
    notifications leads both modules to the same world, hence to the same
    fulfilment and rejection values.  Such worlds are closed under the
    operations and the notifications. *)
Theorem variants_agree_on_valid_names
    (m : method) (db name version fn : value) (mname : string) (args : list value)
    (ns : list notification) (w : world) :
  (valid_name (nth_arg 0 args) = true ->
   Part000.invoke m db args w = Idb.invoke m db args w /\
   Part000.call_method (Part000.client db) mname args w
   = Idb.call_method (Idb.client db) mname args w /\
   Part000.call_method (Part000.upgrade db) mname args w
   = Idb.call_method (Idb.upgrade db) mname args w) /\
  Part000.client_close db w = Idb.client_close db w /\
  (valid_name name = true ->
   Part000.idb_open name version fn w = Idb.idb_open name version fn w /\
   Part000.idb_delete name w = Idb.idb_delete name w) /\
  (handlers_valid w ->
   Part000.run ns w = Idb.run ns w /\
   handlers_valid (Idb.run ns w) /\
   handlers_valid (fst (Idb.invoke m db args w)) /\
   handlers_valid (fst (Idb.idb_delete name w)) /\
   (valid_fn (callback_of version fn) = true ->
    handlers_valid (fst (Idb.idb_open name version fn w)))).
Proof.
  split; [|split; [|split]].
  - intros H. split; [|split].
    + apply invoke_same. by right.
    + unfold Part000.call_method at 1. rewrite client_lookup_same.
      by apply (call_method_same (Idb.client db)).
    + by apply (call_method_same (Idb.upgrade db)).
  - reflexivity.
  - intros H. split; [by apply idb_open_same | by apply idb_delete_same].
  - intros Hw. split; [by apply run_same|]. split; [by apply hv_run|].
    split; [|split].
    + destruct (Idb.invoke m db args w) as [w' o] eqn:E.
      by eapply kv_invoke.
    + destruct (Idb.idb_delete name w) as [w' o] eqn:E.
      by eapply kv_idb_delete.
    + intros Hfn. destruct (Idb.idb_open name version fn w) as [w' o] eqn:E.
      by eapply hv_idb_open.
Qed.

Lemma variants_agree_on_valid_names_witness :
  valid_name (nth_arg 0 [VStr "items"; VNum 1]) = true /\
  valid_name (VStr "T") = true /\
  handlers_valid empty_world /\
  Part000.invoke m_select (VDb "T") [VStr "items"; VNum 1] sample_world
  = Idb.invoke m_select (VDb "T") [VStr "items"; VNum 1] sample_world /\
  Part000.idb_open (VStr "T") VUndefined VUndefined empty_world
  = Idb.idb_open (VStr "T") VUndefined VUndefined empty_world /\
  Part000.run [NSuccess 0 (VDb "T")] empty_world = Idb.run [NSuccess 0 (VDb "T")] empty_world.
Proof.
  assert (Hv : handlers_valid empty_world).
  { split; simpl; intros ? ?; [by rewrite lookup_nil | by rewrite lookup_empty]. }
  split; [reflexivity|]. split; [reflexivity|]. split; [exact Hv|].
  split; [|split].
  - exact (proj1 (proj1 (variants_agree_on_valid_names m_select (VDb "T") (VStr "T")
             VUndefined VUndefined "select" [VStr "items"; VNum 1] [] sample_world) eq_refl)).
  - exact (proj1 (proj1 (proj2 (proj2 (variants_agree_on_valid_names m_select (VDb "T")
             (VStr "T") VUndefined VUndefined "select" [VStr "items"; VNum 1] []
             empty_world))) eq_refl)).
  - exact (proj1 (proj2 (proj2 (proj2 (variants_agree_on_valid_names m_select (VDb "T")
             (VStr "T") VUndefined VUndefined "select" [VStr "items"; VNum 1]
             [NSuccess 0 (VDb "T")] empty_world))) Hv)).
Defined.

(** ** The scenario of the specification

    Open "T" at version 1 with a callback that creates "items" keyed by
    [id] with the index [byName]; insert a record, read it back by key and
    through the index, count, delete, count again.  Each promise is
    fulfilled with the value the specification gives. *)

Lemma scenario_runs :
  let fn := VFun [UCall "create" [VStr "items"; VObj [("keyPath", VStr "id")];
                                  VObj [("byName", VRef 0%nat)]]] in
  let w0 := set_heap [[VStr "name"]] empty_world in
  let w1 := Idb.run [NUpgradeNeeded 0 "T" 1; NSuccess 0 (VDb "T")]
              (fst (Idb.idb_open (VStr "T") (VNum 1) fn w0)) in
  let call (m : string) (args : list value) (w : world) :=
    completed Idb.deliver
      (fun w => match Idb.call_method (Idb.client (VDb "T")) m args w with
                | (w', Return (VPromise p)) => (w', Return p)
                | (w', Return _) => (w', Throw VUndefined)
                | (w', Throw e) => (w', Throw e)
                end) w in
  let r2 := call "insert" [VStr "items"; sample_record] w1 in
  let r3 := call "select" [VStr "items"; VNum 1] (fst r2) in
  let r4 := call "selectIndex" [VStr "items"; VStr "byName"; VStr "a"] (fst r3) in
  let r5 := call "count" [VStr "items"] (fst r4) in
  let r6 := call "delete" [VStr "items"; VNum 1] (fst r5) in
  let r7 := call "count" [VStr "items"] (fst r6) in
  promise_state w1 0 = Some (Fulfilled (VClient (VDb "T"))) /\
  snd r2 = Some (Fulfilled (VNum 1)) /\
  snd r3 = Some (Fulfilled sample_record) /\
  snd r4 = Some (Fulfilled sample_record) /\
  snd r5 = Some (Fulfilled (VNum 1)) /\
  snd r6 = Some (Fulfilled VUndefined) /\
  snd r7 = Some (Fulfilled (VNum 0)).
Proof. vm_compute. repeat split. Qed.

(** ** What each engine step does to requests and promises *)

(** Runs an engine step on an unknown world, case by case. *)
Ltac run_step H :=
  repeat (first
    [ progress (unfold bind, log_call, modify, Engine.the_store, Engine.writable,
                get_world, alloc_array, new_request, ret, throw in H)
    | progress simplify_eq/=
    | case_match ]).

Lemma quiet_transaction db tables mode : quiet (Engine.transaction db tables mode).
Proof. intros w w' o H. unfold Engine.transaction in H. run_step H; done. Qed.

Lemma quiet_objectStore tx table : quiet (Engine.objectStore tx table).
Proof. intros w w' o H. unfold Engine.objectStore in H. run_step H; done. Qed.

Lemma quiet_index sh name : quiet (Engine.index sh name).
Proof. intros w w' o H. unfold Engine.index in H. run_step H; done. Qed.

Lemma places_get sh k : places (Engine.get sh k).
Proof. intros w w' o H. unfold Engine.get in H. run_step H; (split; [done|]; eauto). Qed.

Lemma places_getAll sh q c : places (Engine.getAll sh q c).
Proof. intros w w' o H. unfold Engine.getAll in H. run_step H; (split; [done|]; eauto). Qed.

Lemma places_getAllKeys sh q c : places (Engine.getAllKeys sh q c).
Proof. intros w w' o H. unfold Engine.getAllKeys in H. run_step H; (split; [done|]; eauto). Qed.

Lemma places_index_get ih k : places (Engine.index_get ih k).
Proof. intros w w' o H. unfold Engine.index_get in H. run_step H; (split; [done|]; eauto). Qed.

Lemma places_delete sh k : places (Engine.delete sh k).
Proof. intros w w' o H. unfold Engine.delete in H. run_step H; (split; [done|]; eauto). Qed.

Lemma places_add sh v k : places (Engine.add sh v k).
Proof. intros w w' o H. unfold Engine.add in H. run_step H; (split; [done|]; eauto). Qed.

Lemma places_put sh v k : places (Engine.put sh v k).
Proof. intros w w' o H. unfold Engine.put in H. run_step H; (split; [done|]; eauto). Qed.

Lemma places_clear sh : places (Engine.clear sh).
Proof. intros w w' o H. unfold Engine.clear in H. run_step H; (split; [done|]; eauto). Qed.

Lemma places_count sh q : places (Engine.count sh q).
Proof. intros w w' o H. unfold Engine.count in H. run_step H; (split; [done|]; eauto). Qed.

Lemma places_deleteDatabase name : places (Engine.deleteDatabase name).
Proof. intros w w' o H. unfold Engine.deleteDatabase in H. run_step H; (split; [done|]; eauto). Qed.

Lemma quiet_assertName name label : quiet (Part000.assertName name label).
Proof. intros w w' o H. unfold Part000.assertName in H. run_step H; done. Qed.

Lemma places_bind_quiet {A} (c : M A) (k : A -> M nat) :
  quiet c -> (forall a, places (k a)) -> places (bind c k).
Proof.
  intros Hc Hk w w' o H. unfold bind in H.
  destruct (c w) as [w1 [a|e]] eqn:E.
  - destruct (Hc _ _ _ E) as [Hr Hp]. destruct (Hk a _ _ _ H) as [Hp' Ho].
    rewrite Hp', Hp. split; [done|]. destruct o; by rewrite <- Hr.
  - injection H as <- <-. destruct (Hc _ _ _ E) as [Hr Hp]. done.
Qed.

Lemma promised_bind_quiet {A} (c : M A) (k : A -> M nat) :
  quiet c -> (forall a, promised (k a)) -> promised (bind c k).
Proof.
  intros Hc Hk w w' o H. unfold bind in H.
  destruct (c w) as [w1 [a|e]] eqn:E.
  - destruct (Hc _ _ _ E) as [Hr Hp]. pose proof (Hk a _ _ _ H) as Ho.
    destruct o; by rewrite <- Hr, <- Hp.
  - injection H as <- <-. by destruct (Hc _ _ _ E).
Qed.

Lemma promised_promisify (op : M nat) :
  places op -> promised (bind op Idb.promisify).
Proof.
  intros Hop w w' o H. unfold bind in H.
  destruct (op w) as [w1 [r|e]] eqn:E.
  - destruct (Hop _ _ _ E) as (Hp & -> & c0 & Hr).
    rewrite promisify_spec_idb in H. injection H as <- <-.
    rewrite Hp. split; [done|]. split; [done|]. exists c0. simpl.
    rewrite Hr.
    rewrite !alter_app_r_alt, Nat.sub_diag by done.
    reflexivity.
  - injection H as <- <-. by destruct (Hop _ _ _ E).
Qed.

Create HintDb places.

#[local] Hint Resolve quiet_transaction quiet_objectStore quiet_index quiet_assertName
  places_get places_getAll places_getAllKeys places_index_get places_delete
  places_add places_put places_clear places_count places_deleteDatabase : places.

Ltac promised_solve :=
  repeat first
    [ apply promised_promisify
    | apply (promised_promisify _ : promised (bind _ Part000.promisify))
    | apply promised_bind_quiet; [solve [eauto with places] | intros ?]
    | apply places_bind_quiet; [solve [eauto with places] | intros ?]
    | match goal with |- places (match ?k with _ => _ end) => destruct k end
    | solve [eauto with places] ].

Lemma promised_data_idb m db args :
  data_method m = true ->
  exists c, promised c /\
    Idb.invoke m db args = (let! p := c in ret (VPromise p)).
Proof.
  destruct m; try discriminate; intros _; eexists; (split; [|reflexivity]);
    unfold Idb.client_select, Idb.client_selectAll, Idb.client_selectAllKeys,
      Idb.client_selectIndex, Idb.client_delete, Idb.client_insert,
      Idb.client_update, Idb.client_clear, Idb.client_count;
    promised_solve.
Qed.

Lemma promised_data_part000 m db args :
  data_method m = true ->
  exists c, promised c /\
    Part000.invoke m db args = (let! p := c in ret (VPromise p)).
Proof.
  destruct m; try discriminate; intros _; eexists; (split; [|reflexivity]);
    unfold Part000.client_select, Part000.client_selectAll,
      Part000.client_selectAllKeys, Part000.client_selectIndex,
      Part000.client_delete, Part000.client_insert, Part000.client_update,
      Part000.client_clear, Part000.client_count;
    promised_solve.
Qed.

Lemma promised_idb_delete name : promised (Idb.idb_delete name).
Proof. unfold Idb.idb_delete. promised_solve. Qed.

Lemma promised_idb_delete_part000 name : promised (Part000.idb_delete name).
Proof. unfold Part000.idb_delete. promised_solve. Qed.

(** The engine's notification for a wrapped request. *)
Section Delivered.

Variable run_handler : handler -> value -> world -> world.
Hypothesis resolve_result : forall p r w,
  run_handler (HResolveResult p r) (VEvent "success" (VReq r)) w
  = resolve p (request_result w r) w.
Hypothesis reject_error : forall p r w,
  run_handler (HRejectError p r) (VEvent "error" (VReq r)) w
  = reject p (request_error w r) w.

Lemma deliver_wrapped w r p c :
  w_reqs w !! r = Some (wrapped_request p r c) ->
  w_promises w !! p = Some Pending ->
  let w2 := deliver_with run_handler r w in
  promise_state w2 p = Some (state_of c) /\
  (forall q, q <> p -> promise_state w2 q = promise_state w q) /\
  w_dbs w2 = w_dbs w /\ w_heap w2 = w_heap w /\ w_log w2 = w_log w /\
  length (w_reqs w2) = length (w_reqs w).
Proof.
  intros Hq Hp. cbn zeta. unfold deliver_with.
  assert (Hpe : w_reqs w !! r ≫= r_pending = Some c) by (by rewrite Hq).
  rewrite Hpe.
  assert (Hset : forall s w0, w_promises w0 = w_promises w ->
            promise_state (settle p s w0) p = Some s /\
            (forall q, q <> p -> promise_state (settle p s w0) q = promise_state w q) /\
            w_dbs (settle p s w0) = w_dbs w0 /\ w_heap (settle p s w0) = w_heap w0 /\
            w_log (settle p s w0) = w_log w0 /\
            length (w_reqs (settle p s w0)) = length (w_reqs w0)).
  { intros s w0 H0. split; [apply settle_pending; by rewrite H0|].
    unfold settle, promise_state. rewrite H0, Hp. simpl. split; [|done].
    intros q Hne. by rewrite list_lookup_insert_ne. }
  destruct c as [v|e]; unfold notify_with; cbv zeta.
  - pose proof (lookup_set_result r v w _ Hq) as Hq'.
    assert (Hh : w_reqs (set_result r v w) !! r ≫= r_onsuccess
                 = Some (HResolveResult p r)) by (by rewrite Hq').
    rewrite Hh. unfold dispatch. rewrite resolve_result.
    assert (Hv : request_result (set_result r v w) r = v).
    { unfold request_result. by rewrite Hq'. }
    rewrite Hv.
    destruct (Hset (Fulfilled v) (set_result r v w) eq_refl) as (H1 & H2 & H3 & H4 & H5 & H6).
    unfold resolve. repeat split; try done.
    rewrite H6. unfold set_result. simpl. by rewrite length_alter.
  - pose proof (lookup_set_error r e w _ Hq) as Hq'.
    assert (Hh : w_reqs (set_error r e w) !! r ≫= r_onerror
                 = Some (HRejectError p r)) by (by rewrite Hq').
    rewrite Hh. unfold dispatch. rewrite reject_error.
    assert (Hv : request_error (set_error r e w) r = e).
    { unfold request_error. by rewrite Hq'. }
    rewrite Hv.
    destruct (Hset (Rejected e) (set_error r e w) eq_refl) as (H1 & H2 & H3 & H4 & H5 & H6).
    unfold reject. repeat split; try done.
    rewrite H6. unfold set_error. simpl. by rewrite length_alter.
Qed.

(** A facade operation that returned a promise, then the notification. *)
Lemma promised_then_delivered (c : M nat) w w' p :
  promised c -> c w = (w', Return p) ->
  p = length (w_promises w) /\
  promise_state w' p = Some Pending /\
  exists c0,
    (w_reqs w' !! length (w_reqs w) ≫= r_pending) = Some c0 /\
    let w2 := deliver_with run_handler (length (w_reqs w)) w' in
    promise_state w2 p = Some (state_of c0) /\
    (forall q, q <> p -> promise_state w2 q = promise_state w q) /\
    w_dbs w2 = w_dbs w' /\ w_heap w2 = w_heap w' /\ w_log w2 = w_log w'.
Proof.
  intros Hc H. destruct (Hc _ _ _ H) as (-> & Hp & c0 & Hr).
  assert (Hq : w_reqs w' !! length (w_reqs w)
               = Some (wrapped_request (length (w_promises w)) (length (w_reqs w)) c0)).
  { rewrite Hr, lookup_app_r, Nat.sub_diag by done. reflexivity. }
  assert (Hpend : w_promises w' !! length (w_promises w) = Some Pending).
  { rewrite Hp. apply lookup_fresh_promise. }
  split; [done|]. split; [exact Hpend|]. exists c0. split; [by rewrite Hq|].
  destruct (deliver_wrapped w' _ _ c0 Hq Hpend) as (H1 & H2 & H3 & H4 & H5 & _).
  cbn zeta. repeat split; try done.
  intros q Hne. rewrite (H2 q Hne). unfold promise_state. rewrite Hp.
  destruct (decide (q < length (w_promises w))%nat).
  - by rewrite lookup_app_l.
  - rewrite !lookup_ge_None_2; [done|lia|].
    rewrite length_app. simpl. lia.
Qed.

End Delivered.

(** X1 (a data operation and its promise). Each of the nine operations of
    the connection facade that work on a collection either throws, and
    then has placed no request and made no promise, or returns a new
    pending promise around the one request it placed; the engine's
    notification for that request settles this promise, fulfilled with the
    request's result or rejected with the request's error, and leaves every
    other promise and every collection as they were.  In both modules. *)
Theorem data_operation_settles_as_engine_decides
    (m : method) (db : value) (args : list value) (w : world) :
  data_method m = true ->
  let p := length (w_promises w) in
  let r := length (w_reqs w) in
  let spec (res : world * outcome value) (deliver : nat -> world -> world) :=
    match snd res with
    | Return v =>
        v = VPromise p /\
        w_promises (fst res) = w_promises w ++ [Pending] /\
        length (w_reqs (fst res)) = S r /\
        exists c0,
          (w_reqs (fst res) !! r ≫= r_pending) = Some c0 /\
          let w2 := deliver r (fst res) in
          promise_state w2 p = Some (state_of c0) /\
          (forall q, q <> p -> promise_state w2 q = promise_state w q) /\
          w_dbs w2 = w_dbs (fst res)
    | Throw _ =>
        w_promises (fst res) = w_promises w /\ w_reqs (fst res) = w_reqs w
    end in
  spec (Idb.invoke m db args w) Idb.deliver /\
  spec (Part000.invoke m db args w) Part000.deliver.
Proof.
  intros Hm p r spec.
  assert (Hgen : forall run_handler (c : M nat),
            (forall p r w, run_handler (HResolveResult p r) (VEvent "success" (VReq r)) w
                           = resolve p (request_result w r) w) ->
            (forall p r w, run_handler (HRejectError p r) (VEvent "error" (VReq r)) w
                           = reject p (request_error w r) w) ->
            promised c ->
            spec ((let! p := c in ret (VPromise p)) w) (deliver_with run_handler)).
  { intros run_handler c H1 H2 Hc. unfold spec, bind.
    destruct (c w) as [w' [p'|e]] eqn:E; simpl.
    - destruct (promised_then_delivered run_handler H1 H2 c w w' p' Hc E)
        as (-> & Hpend & c0 & Hq & Hd & Hoth & Hdbs & _).
      destruct (Hc _ _ _ E) as (_ & Hp & c1 & Hr).
      split; [done|]. split; [done|]. split.
      { rewrite Hr, length_app. simpl. lia. }
      exists c0. split; [done|]. cbn zeta. by repeat split.
    - exact (Hc _ _ _ E). }
  split.
  - destruct (promised_data_idb m db args Hm) as (c & Hc & ->).
    by apply (Hgen Idb.run_handler).
  - destruct (promised_data_part000 m db args Hm) as (c & Hc & ->).
    by apply (Hgen Part000.run_handler).
Qed.

Lemma data_operation_settles_as_engine_decides_witness :
  data_method m_select = true /\
  promise_state
    (Idb.deliver 0 (fst (Idb.invoke m_select (VDb "T") [VStr "items"; VNum 1] sample_world)))
    0
  = Some (Fulfilled sample_record).
Proof.
  split; [reflexivity|].
  pose proof (proj1 (data_operation_settles_as_engine_decides m_select (VDb "T")
                       [VStr "items"; VNum 1] sample_world eq_refl)) as H.
  cbv zeta in H.
  change (snd (Idb.invoke m_select (VDb "T") [VStr "items"; VNum 1] sample_world))
    with (@Return value (VPromise 0)) in H.
  cbv iota in H. destruct H as (_ & _ & _ & c0 & Hc & Hs & _).
  assert (Hc0 : c0 = Succeeds sample_record).
  { vm_compute in Hc. by injection Hc as <-. }
  subst c0. exact Hs.
Defined.

(** ** The engine calls of the data operations *)

(** Runs a whole facade operation on an unknown world, case by case. *)
Ltac run_method H :=
  repeat (first
    [ progress (unfold Engine.transaction, Engine.objectStore, Engine.get,
                Engine.getAll, Engine.getAllKeys, Engine.index, Engine.index_get,
                Engine.delete, Engine.add, Engine.put, Engine.clear, Engine.count,
                Idb.promisify, bind, log_call, modify, Engine.the_store,
                Engine.writable, get_world, alloc_array, new_request, new_promise,
                ret, throw in H)
    | progress simplify_eq/=
    | case_match ]).

Ltac trace_leaf :=
  simpl; rewrite <- ?app_assoc; simpl;
  eexists; split; [reflexivity|];
  split; [eexists; reflexivity|];
  split; [simpl; lia|]; intros; try discriminate; reflexivity.

Lemma data_calls_idb m n args w :
  data_method m = true ->
  exists done,
    w_log (fst (Idb.invoke m (VDb n) args w)) = w_log w ++ done /\
    done `prefix_of` method_calls m n args /\
    (1 <= length done)%nat /\
    (forall v, snd (Idb.invoke m (VDb n) args w) = Return v ->
               done = method_calls m n args).
Proof.
  intros Hm. destruct (Idb.invoke m (VDb n) args w) as [w' o] eqn:H.
  destruct m; try discriminate;
    unfold Idb.invoke, Idb.client_select, Idb.client_selectAll,
      Idb.client_selectAllKeys, Idb.client_selectIndex, Idb.client_delete,
      Idb.client_insert, Idb.client_update, Idb.client_clear, Idb.client_count in H;
    unfold method_calls, method_mode.
  - run_method H; trace_leaf.
  - run_method H; trace_leaf.
  - run_method H; trace_leaf.
  - run_method H; trace_leaf.
  - run_method H; trace_leaf.
  - run_method H; trace_leaf.
  - run_method H; trace_leaf.
  - run_method H; trace_leaf.
  - run_method H; trace_leaf.
Qed.

(** X2 (the engine calls of a data operation). Each of the nine data
    operations of the connection facade opens a transaction on its one
    collection, read-only for the five reading operations and read-write
    for the four writing ones, takes the collection from it, and makes the
    one call of its kind on it (two for [selectIndex]), with the arguments
    it was given: the calls it makes are a beginning of that sequence, of
    one call at least, and all of it when the operation returns.  In both
    modules, for part_000 with a collection name it accepts. *)
Theorem data_operation_engine_calls
    (m : method) (n : string) (args : list value) (w : world) :
  data_method m = true ->
  let spec (res : world * outcome value) :=
    exists done,
      w_log (fst res) = w_log w ++ done /\
      done `prefix_of` method_calls m n args /\
      (1 <= length done)%nat /\
      (forall v, snd res = Return v -> done = method_calls m n args) in
  spec (Idb.invoke m (VDb n) args w) /\
  (valid_name (nth_arg 0 args) = true -> spec (Part000.invoke m (VDb n) args w)).
Proof.
  intros Hm spec. split.
  - by apply data_calls_idb.
  - intros Hn. unfold spec. rewrite invoke_same by (by right).
    by apply data_calls_idb.
Qed.

Lemma data_operation_engine_calls_witness :
  data_method m_selectIndex = true /\
  exists done,
    w_log (fst (Idb.invoke m_selectIndex (VDb "T") [VStr "items"; VStr "byName"; VStr "a"]
                  sample_world))
    = w_log sample_world ++ done /\
    done `prefix_of` method_calls m_selectIndex "T" [VStr "items"; VStr "byName"; VStr "a"] /\
    (1 <= length done)%nat /\
    (forall v,
       snd (Idb.invoke m_selectIndex (VDb "T") [VStr "items"; VStr "byName"; VStr "a"]
              sample_world) = Return v ->
       done = method_calls m_selectIndex "T" [VStr "items"; VStr "byName"; VStr "a"]).
Proof.
  split; [reflexivity|].
  exact (proj1 (data_operation_engine_calls m_selectIndex "T"
                  [VStr "items"; VStr "byName"; VStr "a"] sample_world eq_refl)).
Defined.

(** ** Failures of the engine before a request is placed *)

Lemma transaction_closed w n d tables mode :
  w_dbs w !! n = Some d -> db_closed d = true ->
  Engine.transaction (VDb n) tables mode w
  = (set_log (w_log w ++ [CTransaction n tables mode]) w,
     Throw (dom_exception "InvalidStateError")).
Proof.
  intros Hd Hc. unfold Engine.transaction, bind, log_call, modify, get_world.
  simpl. by rewrite Hd, Hc.
Qed.

Lemma transaction_missing w n d table mode :
  w_dbs w !! n = Some d -> db_closed d = false ->
  db_stores d !! to_string table = None ->
  Engine.transaction (VDb n) [table] mode w
  = (set_log (w_log w ++ [CTransaction n [table] mode]) w,
     Throw (dom_exception "NotFoundError")).
Proof.
  intros Hd Hc Hs. unfold Engine.transaction, bind, log_call, modify, get_world.
  simpl. rewrite Hd, Hc. simpl. by rewrite Hs.
Qed.

Lemma data_fails_with_transaction m n args w w1 e :
  data_method m = true ->
  Engine.transaction (VDb n) [nth_arg 0 args] (method_mode m) w = (w1, Throw e) ->
  Idb.invoke m (VDb n) args w = (w1, Throw e).
Proof.
  intros Hm H.
  destruct m; try discriminate; unfold method_mode in H;
    unfold Idb.invoke, Idb.client_select, Idb.client_selectAll,
      Idb.client_selectAllKeys, Idb.client_selectIndex, Idb.client_delete,
      Idb.client_insert, Idb.client_update, Idb.client_clear, Idb.client_count;
    try (by unfold bind; rewrite H).
  - destruct (nth_arg 2 args); by unfold bind; rewrite H.
  - destruct (nth_arg 2 args); by unfold bind; rewrite H.
Qed.

(** X3 (a collection that does not exist). On an open connection without
    a collection of the name given, each data operation of the facade
    throws the engine's [NotFoundError] at the call of [transaction], the
    only call it makes: it returns no promise and changes nothing else.
    In both modules, for part_000 with a collection name it accepts. *)
Theorem data_operation_on_missing_collection
    (m : method) (n : string) (d : database) (args : list value) (w : world) :
  data_method m = true ->
  w_dbs w !! n = Some d -> db_closed d = false ->
  db_stores d !! to_string (nth_arg 0 args) = None ->
  let failed :=
    (set_log (w_log w ++ [CTransaction n [nth_arg 0 args] (method_mode m)]) w,
     @Throw value (dom_exception "NotFoundError")) in
  Idb.invoke m (VDb n) args w = failed /\
  (valid_name (nth_arg 0 args) = true -> Part000.invoke m (VDb n) args w = failed).
Proof.
  intros Hm Hd Hc Hs failed.
  assert (H : Idb.invoke m (VDb n) args w = failed).
  { apply data_fails_with_transaction; [done|]. by eapply transaction_missing. }
  split; [exact H|]. intros Hn. rewrite invoke_same by (by right). exact H.
Qed.

Lemma data_operation_on_missing_collection_witness :
  data_method m_count = true /\
  w_dbs sample_world !! "T" = Some sample_db /\
  db_closed sample_db = false /\
  db_stores sample_db !! to_string (nth_arg 0 [VStr "orders"]) = None /\
  Idb.invoke m_count (VDb "T") [VStr "orders"] sample_world
  = (set_log [CTransaction "T" [VStr "orders"] "readonly"] sample_world,
     Throw (dom_exception "NotFoundError")).
Proof.
  assert (H1 : w_dbs sample_world !! "T" = Some sample_db) by reflexivity.
  assert (H2 : db_stores sample_db !! to_string (nth_arg 0 [VStr "orders"]) = None)
    by reflexivity.
  repeat (split; [reflexivity|]).
  exact (proj1 (data_operation_on_missing_collection m_count "T" sample_db
                  [VStr "orders"] sample_world eq_refl H1 eq_refl H2)).
Defined.

Lemma close_runs w n :
  Idb.client_close (VDb n) w = (closed_world n w, Return VUndefined).
Proof. reflexivity. Qed.

Lemma closed_twice n w :
  w_dbs (closed_world n (closed_world n w)) = w_dbs (closed_world n w).
Proof.
  unfold closed_world. simpl. apply map_eq. intros i.
  destruct (decide (n = i)) as [<-|Hne].
  - rewrite !lookup_alter_eq. by destruct (w_dbs w !! n).
  - by rewrite !lookup_alter_ne.
Qed.

(** X4 (close). [close] returns undefined at once, with one call of
    [db.close]: it places no request, makes no promise, and leaves the
    collections and their records as they are; closing again changes
    nothing more.  On the closed connection each data operation of the
    facade throws the engine's [InvalidStateError] at the call of
    [transaction] and returns no promise.  In both modules, for part_000
    with a collection name it accepts. *)
Theorem closed_connection_refuses_data_operations
    (m : method) (n : string) (d : database) (args : list value) (w : world) :
  w_dbs w !! n = Some d ->
  let w1 := closed_world n w in
  let refused :=
    (set_log (w_log w1 ++ [CTransaction n [nth_arg 0 args] (method_mode m)]) w1,
     @Throw value (dom_exception "InvalidStateError")) in
  Idb.client_close (VDb n) w = (w1, Return VUndefined) /\
  Part000.client_close (VDb n) w = (w1, Return VUndefined) /\
  w_log w1 = w_log w ++ [CClose n] /\
  w_reqs w1 = w_reqs w /\ w_promises w1 = w_promises w /\ w_heap w1 = w_heap w /\
  (forall t, Engine.lookup_store w1 n t = Engine.lookup_store w n t) /\
  w_dbs (closed_world n w1) = w_dbs w1 /\
  (data_method m = true ->
   Idb.invoke m (VDb n) args w1 = refused /\
   (valid_name (nth_arg 0 args) = true -> Part000.invoke m (VDb n) args w1 = refused)).
Proof.
  intros Hd w1 refused.
  assert (Hd1 : w_dbs w1 !! n
                = Some {| db_version := db_version d; db_stores := db_stores d;
                          db_closed := true; db_onerror := db_onerror d |}).
  { subst w1. unfold closed_world. simpl. by rewrite lookup_alter_eq, Hd. }
  split; [reflexivity|]. split; [reflexivity|]. split; [reflexivity|].
  split; [reflexivity|]. split; [reflexivity|]. split; [reflexivity|].
  split; [|split].
  - intros t. unfold Engine.lookup_store. by rewrite Hd1, Hd.
  - apply closed_twice.
  - intros Hm.
    assert (H : Idb.invoke m (VDb n) args w1 = refused).
    { apply data_fails_with_transaction; [done|].
      by eapply transaction_closed. }
    split; [exact H|]. intros Hn. rewrite invoke_same by (by right). exact H.
Qed.

Lemma closed_connection_refuses_data_operations_witness :
  w_dbs sample_world !! "T" = Some sample_db /\
  Idb.invoke m_select (VDb "T") [VStr "items"; VNum 1] (closed_world "T" sample_world)
  = (set_log [CClose "T"; CTransaction "T" [VStr "items"] "readonly"]
       (closed_world "T" sample_world),
     Throw (dom_exception "InvalidStateError")).
Proof.
  assert (H1 : w_dbs sample_world !! "T" = Some sample_db) by reflexivity.
  split; [exact H1|].
  destruct (closed_connection_refuses_data_operations m_select "T" sample_db
              [VStr "items"; VNum 1] sample_world H1)
    as (_ & _ & _ & _ & _ & _ & _ & _ & H).
  exact (proj1 (H eq_refl)).
Defined.

(** ** Writing and reading back through the connection facade *)

Lemma holds_put_store w n t st st' :
  holds w n t st -> holds (Engine.put_store n t st' w) n t st'.
Proof.
  intros (d & Hd & Hc & Hs). exists (Engine.set_stores (<[t := st']> (db_stores d)) d).
  unfold Engine.put_store. simpl. rewrite lookup_alter_eq, Hd. simpl.
  split; [done|]. split; [done|]. by rewrite lookup_insert_eq.
Qed.

Lemma holds_same_dbs w w' n t st : w_dbs w' = w_dbs w -> holds w n t st -> holds w' n t st.
Proof. intros H (d & Hd & Hc & Hs). exists d. by rewrite H. Qed.

Lemma holds_unique w n t st st' : holds w n t st -> holds w n t st' -> st = st'.
Proof. intros (d & Hd & _ & Hs) (d' & Hd' & _ & Hs'). congruence. Qed.

Section OnStore.

Variables (n t : string) (st : store) (w : world).
Hypothesis Hst : holds w n t st.

Variable run_handler : handler -> value -> world -> world.
Hypothesis resolve_result : forall p r w,
  run_handler (HResolveResult p r) (VEvent "success" (VReq r)) w
  = resolve p (request_result w r) w.
Hypothesis reject_error : forall p r w,
  run_handler (HRejectError p r) (VEvent "error" (VReq r)) w
  = reject p (request_error w r) w.

(** A request placed and wrapped, then notified by the engine. *)
Lemma completes_wrapped (op : M nat) w' c st' :
  op w = (w', Return (length (w_reqs w))) ->
  w_reqs w' = w_reqs w ++ [fresh_request c] ->
  w_promises w' = w_promises w ->
  holds w' n t st' ->
  completes (completed (deliver_with run_handler) (let! r := op in Idb.promisify r) w)
    (state_of c) n t st'.
Proof.
  intros Hop Hreqs Hproms Hholds.
  unfold completed, bind. rewrite Hop.
  assert (Hq : w_reqs w' !! length (w_reqs w) = Some (fresh_request c)).
  { rewrite Hreqs, lookup_app_r, Nat.sub_diag by lia. reflexivity. }
  destruct (promisified_deliver run_handler resolve_result reject_error w' _ _ c Hq eq_refl)
    as [Hp Hdbs].
  rewrite promisify_spec_idb. unfold completes. simpl fst. simpl snd.
  rewrite promisify_spec_idb in Hp, Hdbs. simpl fst in Hp, Hdbs.
  rewrite Hproms in *. split.
  - destruct c; exact Hp.
  - by eapply holds_same_dbs.
Qed.

(** An engine operation on the collection, wrapped and notified. *)
Lemma completes_on_store (op : Engine.storeh -> M nat) mode w' c st' :
  op {| Engine.sh_db := n; Engine.sh_name := t; Engine.sh_mode := mode |}
     (at_store n t mode w) = (w', Return (length (w_reqs w))) ->
  w_reqs w' = w_reqs w ++ [fresh_request c] ->
  w_promises w' = w_promises w ->
  holds w' n t st' ->
  completes
    (completed (deliver_with run_handler)
       (let! tx := Engine.transaction (VDb n) [VStr t] mode in
        let! s := Engine.objectStore tx (VStr t) in
        let! r := op s in
        Idb.promisify r) w)
    (state_of c) n t st'.
Proof.
  intros Hop Hreqs Hproms Hholds.
  destruct Hst as (d & Hd & Hc & Hs).
  rewrite (completed_ext _ _
             (let! r := fun w => op {| Engine.sh_db := n; Engine.sh_name := t;
                                       Engine.sh_mode := mode |} (at_store n t mode w) in
              Idb.promisify r) w).
  - by eapply completes_wrapped.
  - rewrite (open_store w n d t st mode _ Hd Hc Hs). reflexivity.
Qed.

Ltac on_store :=
  destruct Hst as (d & Hd & Hc & Hs);
  unfold log_call, modify, Engine.the_store, get_world, Engine.writable,
    Engine.lookup_store, bind;
  simpl; rewrite Hd; simpl; rewrite Hs; simpl.

Lemma completes_select k pk :
  to_key k = Some pk ->
  completes (completed (deliver_with run_handler) (Idb.client_select (VDb n) (VStr t) k) w)
    (Fulfilled (default VUndefined (st_records st !! pk))) n t st.
Proof.
  intros Hk. unfold Idb.client_select.
  eapply (completes_on_store (fun s => Engine.get s k) "readonly" _ (Succeeds _)).
  - unfold Engine.get. on_store. rewrite Hk. reflexivity.
  - reflexivity.
  - reflexivity.
  - apply (holds_same_dbs w); [reflexivity|exact Hst].
Qed.

Lemma completes_delete k pk :
  to_key k = Some pk ->
  completes (completed (deliver_with run_handler) (Idb.client_delete (VDb n) (VStr t) k) w)
    (Fulfilled VUndefined) n t (Engine.set_records (delete pk (st_records st)) st).
Proof.
  intros Hk. unfold Idb.client_delete.
  eapply (completes_on_store (fun s => Engine.delete s k) "readwrite" _ (Succeeds _)).
  - unfold Engine.delete. on_store. rewrite Hk. reflexivity.
  - reflexivity.
  - reflexivity.
  - apply (holds_put_store _ _ _ st). apply (holds_same_dbs w); [reflexivity|exact Hst].
Qed.

Lemma completes_clear :
  completes (completed (deliver_with run_handler) (Idb.client_clear (VDb n) (VStr t)) w)
    (Fulfilled VUndefined) n t (Engine.set_records ∅ st).
Proof.
  unfold Idb.client_clear.
  eapply (completes_on_store (fun s => Engine.clear s) "readwrite" _ (Succeeds _)).
  - unfold Engine.clear. on_store. reflexivity.
  - reflexivity.
  - reflexivity.
  - apply (holds_put_store _ _ _ st). apply (holds_same_dbs w); [reflexivity|exact Hst].
Qed.

Lemma completes_count_all :
  completes (completed (deliver_with run_handler)
               (Idb.client_count (VDb n) (VStr t) VUndefined) w)
    (Fulfilled (VNum (Z.of_nat (size (st_records st))))) n t st.
Proof.
  unfold Idb.client_count.
  eapply (completes_on_store (fun s => Engine.count s VUndefined) "readonly" _ (Succeeds _)).
  - unfold Engine.count. on_store. rewrite length_map_to_list. reflexivity.
  - reflexivity.
  - reflexivity.
  - apply (holds_same_dbs w); [reflexivity|exact Hst].
Qed.

Lemma completes_update v k pk :
  Engine.primary_key st v (key_arg k) = Some pk ->
  Engine.unique_conflict st pk v = false ->
  completes (completed (deliver_with run_handler) (Idb.client_update (VDb n) (VStr t) v k) w)
    (Fulfilled (key_value pk)) n t (Engine.set_records (<[pk := v]> (st_records st)) st).
Proof.
  intros Hpk Hu. pose proof Hst as (d0 & Hd0 & Hc0 & Hs0).
  rewrite (completed_ext _ _ _ _ (client_update_shape_idb w n d0 t st v k Hd0 Hc0 Hs0)).
  eapply (completes_wrapped _ _ (Succeeds _)).
  - unfold Engine.put, rw_store. on_store. rewrite Hpk, Hu. reflexivity.
  - reflexivity.
  - reflexivity.
  - apply (holds_put_store _ _ _ st). apply (holds_same_dbs w); [reflexivity|exact Hst].
Qed.

Lemma completes_update_conflict v k pk :
  Engine.primary_key st v (key_arg k) = Some pk ->
  Engine.unique_conflict st pk v = true ->
  completes (completed (deliver_with run_handler) (Idb.client_update (VDb n) (VStr t) v k) w)
    (Rejected (dom_exception "ConstraintError")) n t st.
Proof.
  intros Hpk Hu. pose proof Hst as (d0 & Hd0 & Hc0 & Hs0).
  rewrite (completed_ext _ _ _ _ (client_update_shape_idb w n d0 t st v k Hd0 Hc0 Hs0)).
  eapply (completes_wrapped _ _ (Fails _)).
  - unfold Engine.put, rw_store. on_store. rewrite Hpk, Hu. reflexivity.
  - reflexivity.
  - reflexivity.
  - apply (holds_same_dbs w); [reflexivity|exact Hst].
Qed.

Lemma completes_insert_fresh v k pk :
  Engine.primary_key st v (key_arg k) = Some pk ->
  Engine.unique_conflict st pk v = false ->
  st_records st !! pk = None ->
  completes (completed (deliver_with run_handler) (Idb.client_insert (VDb n) (VStr t) v k) w)
    (Fulfilled (key_value pk)) n t (Engine.set_records (<[pk := v]> (st_records st)) st).
Proof.
  intros Hpk Hu Hnew. pose proof Hst as (d0 & Hd0 & Hc0 & Hs0).
  rewrite (completed_ext _ _ _ _ (client_insert_shape_idb w n d0 t st v k Hd0 Hc0 Hs0)).
  eapply (completes_wrapped _ _ (Succeeds _)).
  - unfold Engine.add, rw_store. on_store. rewrite Hpk, Hnew, Hu. reflexivity.
  - reflexivity.
  - reflexivity.
  - apply (holds_put_store _ _ _ st). apply (holds_same_dbs w); [reflexivity|exact Hst].
Qed.

Lemma completes_insert_existing v k pk old :
  Engine.primary_key st v (key_arg k) = Some pk ->
  st_records st !! pk = Some old ->
  completes (completed (deliver_with run_handler) (Idb.client_insert (VDb n) (VStr t) v k) w)
    (Rejected (dom_exception "ConstraintError")) n t st.
Proof.
  intros Hpk Hold. pose proof Hst as (d0 & Hd0 & Hc0 & Hs0).
  rewrite (completed_ext _ _ _ _ (client_insert_shape_idb w n d0 t st v k Hd0 Hc0 Hs0)).
  eapply (completes_wrapped _ _ (Fails _)).
  - unfold Engine.add, rw_store. on_store. rewrite Hpk, Hold. reflexivity.
  - reflexivity.
  - reflexivity.
  - apply (holds_same_dbs w); [reflexivity|exact Hst].
Qed.

Lemma completes_insert_conflict v k pk :
  Engine.primary_key st v (key_arg k) = Some pk ->
  Engine.unique_conflict st pk v = true ->
  completes (completed (deliver_with run_handler) (Idb.client_insert (VDb n) (VStr t) v k) w)
    (Rejected (dom_exception "ConstraintError")) n t st.
Proof.
  intros Hpk Hu. pose proof Hst as (d0 & Hd0 & Hc0 & Hs0).
  rewrite (completed_ext _ _ _ _ (client_insert_shape_idb w n d0 t st v k Hd0 Hc0 Hs0)).
  eapply (completes_wrapped _ _ (Fails _)).
  - unfold Engine.add, rw_store. on_store. rewrite Hpk, Hu.
    destruct (st_records st !! pk); reflexivity.
  - reflexivity.
  - reflexivity.
  - apply (holds_same_dbs w); [reflexivity|exact Hst].
Qed.

End OnStore.

Lemma then_settles_ext deliver (c1 c1' c2 c2' : M nat) w s :
  (forall w, c1 w = c1' w) -> (forall w, c2 w = c2' w) ->
  then_settles deliver c1' c2' w s -> then_settles deliver c1 c2 w s.
Proof.
  intros H1 H2. unfold then_settles.
  by rewrite (completed_ext _ c1 c1' w (H1 w)), (completed_ext _ c2 c2' _ (H2 _)).
Qed.

Lemma client_select_same db table k w :
  valid_name table = true ->
  Part000.client_select db table k w = Idb.client_select db table k w.
Proof. intros H. unfold Part000.client_select. by skip_assert H. Qed.

Lemma client_delete_same db table k w :
  valid_name table = true ->
  Part000.client_delete db table k w = Idb.client_delete db table k w.
Proof. intros H. unfold Part000.client_delete. by skip_assert H. Qed.

Lemma client_clear_same db table w :
  valid_name table = true ->
  Part000.client_clear db table w = Idb.client_clear db table w.
Proof. intros H. unfold Part000.client_clear. by skip_assert H. Qed.

Lemma client_count_same db table q w :
  valid_name table = true ->
  Part000.client_count db table q w = Idb.client_count db table q w.
Proof. intros H. unfold Part000.client_count. by skip_assert H. Qed.

Lemma to_key_key_value pk : to_key (key_value pk) = Some pk.
Proof. by destruct pk. Qed.

Section RoundTrips.

Variables (n t : string) (st : store) (w : world).
Hypothesis Hst : holds w n t st.
Variable run_handler : handler -> value -> world -> world.
Hypothesis resolve_result : forall p r w,
  run_handler (HResolveResult p r) (VEvent "success" (VReq r)) w
  = resolve p (request_result w r) w.
Hypothesis reject_error : forall p r w,
  run_handler (HRejectError p r) (VEvent "error" (VReq r)) w
  = reject p (request_error w r) w.

Let del := deliver_with run_handler.

Lemma update_select v k pk :
  Engine.primary_key st v (key_arg k) = Some pk ->
  then_settles del (Idb.client_update (VDb n) (VStr t) v k)
    (Idb.client_select (VDb n) (VStr t) (key_value pk)) w
    (Fulfilled (if Engine.unique_conflict st pk v
                then default VUndefined (st_records st !! pk)
                else v)).
Proof.
  intros Hpk.
  destruct (Engine.unique_conflict st pk v) eqn:Hu.
  - destruct (completes_update_conflict n t st w Hst run_handler resolve_result reject_error
                v k pk Hpk Hu) as [_ Hh].
    destruct (completes_select n t _ _ Hh run_handler resolve_result reject_error
                (key_value pk) pk (to_key_key_value pk)) as [Hs _].
    unfold then_settles, del. by rewrite Hs.
  - destruct (completes_update n t st w Hst run_handler resolve_result reject_error
                v k pk Hpk Hu) as [_ Hh].
    destruct (completes_select n t _ _ Hh run_handler resolve_result reject_error
                (key_value pk) pk (to_key_key_value pk)) as [Hs _].
    unfold then_settles, del. rewrite Hs. simpl. by rewrite lookup_insert_eq.
Qed.

Lemma insert_select v k pk :
  Engine.primary_key st v (key_arg k) = Some pk ->
  then_settles del (Idb.client_insert (VDb n) (VStr t) v k)
    (Idb.client_select (VDb n) (VStr t) (key_value pk)) w
    (Fulfilled match st_records st !! pk with
               | Some old => old
               | None => if Engine.unique_conflict st pk v then VUndefined else v
               end).
Proof.
  intros Hpk.
  destruct (st_records st !! pk) as [old|] eqn:E.
  - destruct (completes_insert_existing n t st w Hst run_handler resolve_result reject_error
                v k pk old Hpk E) as [_ Hh].
    destruct (completes_select n t _ _ Hh run_handler resolve_result reject_error
                (key_value pk) pk (to_key_key_value pk)) as [Hs _].
    unfold then_settles, del. rewrite Hs, E. reflexivity.
  - destruct (Engine.unique_conflict st pk v) eqn:Hu.
    + destruct (completes_insert_conflict n t st w Hst run_handler resolve_result
                  reject_error v k pk Hpk Hu) as [_ Hh].
      destruct (completes_select n t _ _ Hh run_handler resolve_result reject_error
                  (key_value pk) pk (to_key_key_value pk)) as [Hs _].
      unfold then_settles, del. rewrite Hs, E. reflexivity.
    + destruct (completes_insert_fresh n t st w Hst run_handler resolve_result reject_error
                  v k pk Hpk Hu E) as [_ Hh].
      destruct (completes_select n t _ _ Hh run_handler resolve_result reject_error
                  (key_value pk) pk (to_key_key_value pk)) as [Hs _].
      unfold then_settles, del. rewrite Hs. simpl. by rewrite lookup_insert_eq.
Qed.

Lemma insert_count v k pk :
  Engine.primary_key st v (key_arg k) = Some pk ->
  then_settles del (Idb.client_insert (VDb n) (VStr t) v k)
    (Idb.client_count (VDb n) (VStr t) VUndefined) w
    (Fulfilled (VNum (Z.of_nat (size (st_records st))
                      + match st_records st !! pk with
                        | Some _ => 0
                        | None => if Engine.unique_conflict st pk v then 0 else 1
                        end))).
Proof.
  intros Hpk.
  destruct (st_records st !! pk) as [old|] eqn:E.
  - destruct (completes_insert_existing n t st w Hst run_handler resolve_result reject_error
                v k pk old Hpk E) as [_ Hh].
    destruct (completes_count_all n t _ _ Hh run_handler resolve_result reject_error)
      as [Hs _].
    unfold then_settles, del. rewrite Hs. by rewrite Z.add_0_r.
  - destruct (Engine.unique_conflict st pk v) eqn:Hu.
    + destruct (completes_insert_conflict n t st w Hst run_handler resolve_result
                  reject_error v k pk Hpk Hu) as [_ Hh].
      destruct (completes_count_all n t _ _ Hh run_handler resolve_result reject_error)
        as [Hs _].
      unfold then_settles, del. rewrite Hs. simpl. by rewrite Z.add_0_r.
    + destruct (completes_insert_fresh n t st w Hst run_handler resolve_result reject_error
                  v k pk Hpk Hu E) as [_ Hh].
      destruct (completes_count_all n t _ _ Hh run_handler resolve_result reject_error)
        as [Hs _].
      unfold then_settles, del. rewrite Hs. simpl.
      rewrite map_size_insert_None by done. do 3 f_equal. lia.
Qed.

Lemma delete_select k pk :
  to_key k = Some pk ->
  snd (completed del (Idb.client_delete (VDb n) (VStr t) k) w) = Some (Fulfilled VUndefined) /\
  then_settles del (Idb.client_delete (VDb n) (VStr t) k)
    (Idb.client_select (VDb n) (VStr t) k) w (Fulfilled VUndefined) /\
  then_settles del (Idb.client_delete (VDb n) (VStr t) k)
    (Idb.client_count (VDb n) (VStr t) VUndefined) w
    (Fulfilled (VNum (Z.of_nat (size (st_records st))
                      - match st_records st !! pk with Some _ => 1 | None => 0 end))).
Proof.
  intros Hk.
  destruct (completes_delete n t st w Hst run_handler resolve_result reject_error k pk Hk)
    as [Hd Hh].
  split; [exact Hd|]. split.
  - destruct (completes_select n t _ _ Hh run_handler resolve_result reject_error k pk Hk)
      as [Hs _].
    unfold then_settles, del. rewrite Hs. simpl. by rewrite lookup_delete_eq.
  - destruct (completes_count_all n t _ _ Hh run_handler resolve_result reject_error)
      as [Hs _].
    unfold then_settles, del. rewrite Hs. simpl. do 3 f_equal.
    destruct (st_records st !! pk) as [old|] eqn:E.
    + rewrite map_size_delete_Some by done.
      assert (size (st_records st) <> 0%nat) by (by eapply map_size_ne_0_lookup_2). lia.
    + rewrite map_size_delete_None by done. lia.
Qed.

Lemma clear_count k pk :
  to_key k = Some pk ->
  then_settles del (Idb.client_clear (VDb n) (VStr t))
    (Idb.client_count (VDb n) (VStr t) VUndefined) w (Fulfilled (VNum 0)) /\
  then_settles del (Idb.client_clear (VDb n) (VStr t))
    (Idb.client_select (VDb n) (VStr t) k) w (Fulfilled VUndefined).
Proof.
  intros Hk.
  destruct (completes_clear n t st w Hst run_handler resolve_result reject_error)
    as [_ Hh].
  split.
  - destruct (completes_count_all n t _ _ Hh run_handler resolve_result reject_error)
      as [Hs _].
    unfold then_settles, del. rewrite Hs. simpl. by rewrite map_size_empty.
  - destruct (completes_select n t _ _ Hh run_handler resolve_result reject_error k pk Hk)
      as [Hs _].
    unfold then_settles, del. rewrite Hs. simpl. by rewrite lookup_empty.
Qed.

End RoundTrips.

Lemma holds_sample : holds sample_world "T" "items" sample_store.
Proof. exists sample_db. by repeat split. Qed.

(** Moves a statement on part_000's operations, on a collection with a
    valid name, to the same operations of idb.js. *)
Ltac as_idb Ht :=
  eapply then_settles_ext;
  [ intro; first [ apply client_update_same | apply client_insert_same
                 | apply client_delete_same | apply client_clear_same ];
    by apply valid_name_str
  | intro; first [ apply client_select_same | apply client_count_same ];
    by apply valid_name_str
  | ].

Lemma holds_unique_sample : holds unique_world "U" "users" unique_store.
Proof. exists unique_db. by repeat split. Qed.

(** X5 (update then select). After [update] of a record under the key
    [pk] (the key given, or the one taken from the record's key path),
    [select] under [pk] reads that record, whatever the collection held
    there before, unless the record repeats, on a uniqueness-constrained
    index, the value of another record: then the update was rejected, and
    [select] reads what the collection held under [pk] before, undefined
    when nothing.  In both modules, for part_000 on a collection with a
    non-empty name. *)
Theorem update_then_select_reads_back (n t : string) (st : store) (w : world)
    (v k : value) (pk : key) :
  holds w n t st ->
  Engine.primary_key st v (key_arg k) = Some pk ->
  let stored :=
    if Engine.unique_conflict st pk v
    then default VUndefined (st_records st !! pk)
    else v in
  then_settles Idb.deliver (Idb.client_update (VDb n) (VStr t) v k)
    (Idb.client_select (VDb n) (VStr t) (key_value pk)) w (Fulfilled stored) /\
  (t <> "" ->
   then_settles Part000.deliver (Part000.client_update (VDb n) (VStr t) v k)
     (Part000.client_select (VDb n) (VStr t) (key_value pk)) w (Fulfilled stored)).
Proof.
  intros Hst Hpk stored. split.
  - exact (update_select n t st w Hst Idb.run_handler
             (fun _ _ _ => eq_refl) (fun _ _ _ => eq_refl) v k pk Hpk).
  - intros Ht. as_idb Ht.
    exact (update_select n t st w Hst Part000.run_handler
             (fun _ _ _ => eq_refl) (fun _ _ _ => eq_refl) v k pk Hpk).
Qed.

Lemma update_then_select_reads_back_witness :
  holds sample_world "T" "items" sample_store /\
  Engine.primary_key sample_store (VObj [("id", VNum 1); ("name", VStr "b")])
    (key_arg VUndefined) = Some (KNum 1) /\
  then_settles Idb.deliver
    (Idb.client_update (VDb "T") (VStr "items")
       (VObj [("id", VNum 1); ("name", VStr "b")]) VUndefined)
    (Idb.client_select (VDb "T") (VStr "items") (VNum 1)) sample_world
    (Fulfilled (VObj [("id", VNum 1); ("name", VStr "b")])) /\
  holds unique_world "U" "users" unique_store /\
  Engine.primary_key unique_store (VObj [("id", VNum 2); ("email", VStr "a@x")])
    (key_arg VUndefined) = Some (KNum 2) /\
  then_settles Part000.deliver
    (Part000.client_update (VDb "U") (VStr "users")
       (VObj [("id", VNum 2); ("email", VStr "a@x")]) VUndefined)
    (Part000.client_select (VDb "U") (VStr "users") (VNum 2)) unique_world
    (Fulfilled (VObj [("id", VNum 2); ("email", VStr "b@x")])).
Proof.
  assert (Ht : "users" <> "") by discriminate.
  split; [exact holds_sample|]. split; [reflexivity|]. split.
  { exact (proj1 (update_then_select_reads_back "T" "items" sample_store sample_world
                    (VObj [("id", VNum 1); ("name", VStr "b")]) VUndefined (KNum 1)
                    holds_sample eq_refl)). }
  split; [exact holds_unique_sample|]. split; [reflexivity|].
  exact (proj2 (update_then_select_reads_back "U" "users" unique_store unique_world
                  (VObj [("id", VNum 2); ("email", VStr "a@x")]) VUndefined (KNum 2)
                  holds_unique_sample eq_refl) Ht).
Defined.

(** X6 (insert then select). [insert] never replaces a record: after an
    [insert] under the key [pk], [select] under [pk] reads the record the
    collection held there before if there was one; otherwise it reads the
    inserted record, unless that record repeats, on a uniqueness-constrained
    index, the value of another record: then the insert was rejected and
    [select] reads undefined.  In both modules, for part_000 on a
    collection with a non-empty name. *)
Theorem insert_then_select_keeps_first (n t : string) (st : store) (w : world)
    (v k : value) (pk : key) :
  holds w n t st ->
  Engine.primary_key st v (key_arg k) = Some pk ->
  let stored :=
    match st_records st !! pk with
    | Some old => old
    | None => if Engine.unique_conflict st pk v then VUndefined else v
    end in
  then_settles Idb.deliver (Idb.client_insert (VDb n) (VStr t) v k)
    (Idb.client_select (VDb n) (VStr t) (key_value pk)) w (Fulfilled stored) /\
  (t <> "" ->
   then_settles Part000.deliver (Part000.client_insert (VDb n) (VStr t) v k)
     (Part000.client_select (VDb n) (VStr t) (key_value pk)) w (Fulfilled stored)).
Proof.
  intros Hst Hpk stored. split.
  - exact (insert_select n t st w Hst Idb.run_handler
             (fun _ _ _ => eq_refl) (fun _ _ _ => eq_refl) v k pk Hpk).
  - intros Ht. as_idb Ht.
    exact (insert_select n t st w Hst Part000.run_handler
             (fun _ _ _ => eq_refl) (fun _ _ _ => eq_refl) v k pk Hpk).
Qed.

Lemma insert_then_select_keeps_first_witness :
  holds sample_world "T" "items" sample_store /\
  Engine.primary_key sample_store (VObj [("id", VNum 1); ("name", VStr "b")])
    (key_arg VUndefined) = Some (KNum 1) /\
  then_settles Idb.deliver
    (Idb.client_insert (VDb "T") (VStr "items")
       (VObj [("id", VNum 1); ("name", VStr "b")]) VUndefined)
    (Idb.client_select (VDb "T") (VStr "items") (VNum 1)) sample_world
    (Fulfilled sample_record) /\
  holds unique_world "U" "users" unique_store /\
  Engine.primary_key unique_store (VObj [("id", VNum 3); ("email", VStr "a@x")])
    (key_arg VUndefined) = Some (KNum 3) /\
  then_settles Part000.deliver
    (Part000.client_insert (VDb "U") (VStr "users")
       (VObj [("id", VNum 3); ("email", VStr "a@x")]) VUndefined)
    (Part000.client_select (VDb "U") (VStr "users") (VNum 3)) unique_world
    (Fulfilled VUndefined).
Proof.
  assert (Ht : "users" <> "") by discriminate.
  split; [exact holds_sample|]. split; [reflexivity|]. split.
  { exact (proj1 (insert_then_select_keeps_first "T" "items" sample_store sample_world
                    (VObj [("id", VNum 1); ("name", VStr "b")]) VUndefined (KNum 1)
                    holds_sample eq_refl)). }
  split; [exact holds_unique_sample|]. split; [reflexivity|].
  exact (proj2 (insert_then_select_keeps_first "U" "users" unique_store unique_world
                  (VObj [("id", VNum 3); ("email", VStr "a@x")]) VUndefined (KNum 3)
                  holds_unique_sample eq_refl) Ht).
Defined.

(** X7 (count after insert). [count] with no query after an [insert] is
    the number of records the collection held before, plus one exactly when
    the insert was accepted: its key was new, and the record does not
    repeat, on a uniqueness-constrained index, the value of another record.
    In both modules, for part_000 on a collection with a non-empty name. *)
Theorem insert_then_count (n t : string) (st : store) (w : world)
    (v k : value) (pk : key) :
  holds w n t st ->
  Engine.primary_key st v (key_arg k) = Some pk ->
  let total := Z.of_nat (size (st_records st))
               + match st_records st !! pk with
                 | Some _ => 0
                 | None => if Engine.unique_conflict st pk v then 0 else 1
                 end in
  then_settles Idb.deliver (Idb.client_insert (VDb n) (VStr t) v k)
    (Idb.client_count (VDb n) (VStr t) VUndefined) w (Fulfilled (VNum total)) /\
  (t <> "" ->
   then_settles Part000.deliver (Part000.client_insert (VDb n) (VStr t) v k)
     (Part000.client_count (VDb n) (VStr t) VUndefined) w (Fulfilled (VNum total))).
Proof.
  intros Hst Hpk total. split.
  - exact (insert_count n t st w Hst Idb.run_handler
             (fun _ _ _ => eq_refl) (fun _ _ _ => eq_refl) v k pk Hpk).
  - intros Ht. as_idb Ht.
    exact (insert_count n t st w Hst Part000.run_handler
             (fun _ _ _ => eq_refl) (fun _ _ _ => eq_refl) v k pk Hpk).
Qed.

Lemma insert_then_count_witness :
  holds sample_world "T" "items" sample_store /\
  Engine.primary_key sample_store (VObj [("id", VNum 2)]) (key_arg VUndefined)
  = Some (KNum 2) /\
  then_settles Idb.deliver
    (Idb.client_insert (VDb "T") (VStr "items") (VObj [("id", VNum 2)]) VUndefined)
    (Idb.client_count (VDb "T") (VStr "items") VUndefined) sample_world
    (Fulfilled (VNum 2)) /\
  holds unique_world "U" "users" unique_store /\
  Engine.primary_key unique_store (VObj [("id", VNum 3); ("email", VStr "a@x")])
    (key_arg VUndefined) = Some (KNum 3) /\
  then_settles Part000.deliver
    (Part000.client_insert (VDb "U") (VStr "users")
       (VObj [("id", VNum 3); ("email", VStr "a@x")]) VUndefined)
    (Part000.client_count (VDb "U") (VStr "users") VUndefined) unique_world
    (Fulfilled (VNum 2)).
Proof.
  assert (Ht : "users" <> "") by discriminate.
  split; [exact holds_sample|]. split; [reflexivity|]. split.
  { exact (proj1 (insert_then_count "T" "items" sample_store sample_world
                    (VObj [("id", VNum 2)]) VUndefined (KNum 2) holds_sample eq_refl)). }
  split; [exact holds_unique_sample|]. split; [reflexivity|].
  exact (proj2 (insert_then_count "U" "users" unique_store unique_world
                  (VObj [("id", VNum 3); ("email", VStr "a@x")]) VUndefined (KNum 3)
                  holds_unique_sample eq_refl) Ht).
Defined.

(** X8 (delete). [delete] under a key is fulfilled with undefined whether
    or not the collection holds a record there; [select] under that key is
    then fulfilled with undefined, and [count] is the number of records
    held before, less one exactly when there was a record; in both modules,
    for part_000 on a collection with a non-empty name. *)
Theorem delete_then_select_and_count (n t : string) (st : store) (w : world)
    (k : value) (pk : key) :
  holds w n t st ->
  to_key k = Some pk ->
  let total := Z.of_nat (size (st_records st))
               - match st_records st !! pk with Some _ => 1 | None => 0 end in
  (snd (completed Idb.deliver (Idb.client_delete (VDb n) (VStr t) k) w)
   = Some (Fulfilled VUndefined) /\
   then_settles Idb.deliver (Idb.client_delete (VDb n) (VStr t) k)
     (Idb.client_select (VDb n) (VStr t) k) w (Fulfilled VUndefined) /\
   then_settles Idb.deliver (Idb.client_delete (VDb n) (VStr t) k)
     (Idb.client_count (VDb n) (VStr t) VUndefined) w (Fulfilled (VNum total))) /\
  (t <> "" ->
   snd (completed Part000.deliver (Part000.client_delete (VDb n) (VStr t) k) w)
   = Some (Fulfilled VUndefined) /\
   then_settles Part000.deliver (Part000.client_delete (VDb n) (VStr t) k)
     (Part000.client_select (VDb n) (VStr t) k) w (Fulfilled VUndefined) /\
   then_settles Part000.deliver (Part000.client_delete (VDb n) (VStr t) k)
     (Part000.client_count (VDb n) (VStr t) VUndefined) w (Fulfilled (VNum total))).
Proof.
  intros Hst Hk total. split.
  - exact (delete_select n t st w Hst Idb.run_handler
             (fun _ _ _ => eq_refl) (fun _ _ _ => eq_refl) k pk Hk).
  - intros Ht.
    destruct (delete_select n t st w Hst Part000.run_handler
                (fun _ _ _ => eq_refl) (fun _ _ _ => eq_refl) k pk Hk) as (H1 & H2 & H3).
    split; [|split].
    + rewrite (completed_ext _ _ (Idb.client_delete (VDb n) (VStr t) k)); [exact H1|].
      apply client_delete_same. by apply valid_name_str.
    + as_idb Ht. exact H2.
    + as_idb Ht. exact H3.
Qed.

Lemma delete_then_select_and_count_witness :
  holds sample_world "T" "items" sample_store /\
  to_key (VNum 7) = Some (KNum 7) /\
  snd (completed Idb.deliver (Idb.client_delete (VDb "T") (VStr "items") (VNum 7))
         sample_world) = Some (Fulfilled VUndefined).
Proof.
  split; [exact holds_sample|]. split; [reflexivity|].
  exact (proj1 (proj1 (delete_then_select_and_count "T" "items" sample_store sample_world
                         (VNum 7) (KNum 7) holds_sample eq_refl))).
Defined.

(** X9 (clear). After [clear], [count] with no query is fulfilled with 0
    and [select] under any key with undefined, whatever the collection
    held; in both modules, for part_000 on a collection with a non-empty
    name. *)
Theorem clear_then_count_and_select (n t : string) (st : store) (w : world)
    (k : value) (pk : key) :
  holds w n t st ->
  to_key k = Some pk ->
  (then_settles Idb.deliver (Idb.client_clear (VDb n) (VStr t))
     (Idb.client_count (VDb n) (VStr t) VUndefined) w (Fulfilled (VNum 0)) /\
   then_settles Idb.deliver (Idb.client_clear (VDb n) (VStr t))
     (Idb.client_select (VDb n) (VStr t) k) w (Fulfilled VUndefined)) /\
  (t <> "" ->
   then_settles Part000.deliver (Part000.client_clear (VDb n) (VStr t))
     (Part000.client_count (VDb n) (VStr t) VUndefined) w (Fulfilled (VNum 0)) /\
   then_settles Part000.deliver (Part000.client_clear (VDb n) (VStr t))
     (Part000.client_select (VDb n) (VStr t) k) w (Fulfilled VUndefined)).
Proof.
  intros Hst Hk. split.
  - exact (clear_count n t st w Hst Idb.run_handler
             (fun _ _ _ => eq_refl) (fun _ _ _ => eq_refl) k pk Hk).
  - intros Ht.
    destruct (clear_count n t st w Hst Part000.run_handler
                (fun _ _ _ => eq_refl) (fun _ _ _ => eq_refl) k pk Hk) as (H1 & H2).
    split; as_idb Ht; assumption.
Qed.

Lemma clear_then_count_and_select_witness :
  holds sample_world "T" "items" sample_store /\
  to_key (VNum 1) = Some (KNum 1) /\
  then_settles Idb.deliver (Idb.client_clear (VDb "T") (VStr "items"))
    (Idb.client_select (VDb "T") (VStr "items") (VNum 1)) sample_world
    (Fulfilled VUndefined).
Proof.
  split; [exact holds_sample|]. split; [reflexivity|].
  exact (proj2 (proj1 (clear_then_count_and_select "T" "items" sample_store sample_world
                         (VNum 1) (KNum 1) holds_sample eq_refl))).
Defined.

(** ** What the upgrade callback leaves in place *)

Section Preserved.

Variable R : world -> world -> Prop.
Hypothesis R_refl : forall w, R w w.
Hypothesis R_trans : forall a b c, R a b -> R b c -> R a c.

Lemma preserves_ret {A} (a : A) : preserves R (ret a).
Proof. intros w w' o [= <- _]. apply R_refl. Qed.

Lemma preserves_throw {A} e : preserves R (@throw A e).
Proof. intros w w' o [= <- _]. apply R_refl. Qed.

Lemma preserves_get_world : preserves R get_world.
Proof. intros w w' o [= <- _]. apply R_refl. Qed.

Lemma preserves_bind {A B} (c : M A) (k : A -> M B) :
  preserves R c -> (forall a, preserves R (k a)) -> preserves R (bind c k).
Proof.
  intros Hc Hk w w' o H. unfold bind in H.
  destruct (c w) as [w1 [a|e]] eqn:E.
  - eapply R_trans; [by eapply Hc | by eapply Hk].
  - injection H as <- <-. by eapply Hc.
Qed.

Lemma preserves_for_each {A} (l : list A) (f : A -> M unit) :
  (forall a, preserves R (f a)) -> preserves R (for_each l f).
Proof.
  intros Hf. induction l as [|a l IH]; simpl.
  - apply preserves_ret.
  - apply preserves_bind; [apply Hf | intros _; apply IH].
Qed.

End Preserved.

Lemma requests_kept_refl w : requests_kept w w.
Proof. exists []. by rewrite app_nil_r. Qed.

Lemma requests_kept_trans a b c :
  requests_kept a b -> requests_kept b c -> requests_kept a c.
Proof. intros [x Hx] [y Hy]. exists (x ++ y). by rewrite Hy, Hx, app_assoc. Qed.

Lemma requests_kept_same w w' : w_reqs w' = w_reqs w -> requests_kept w w'.
Proof. intros H. exists []. by rewrite app_nil_r. Qed.

Lemma onerror_kept_refl w : onerror_kept w w.
Proof. intros n d H. by exists d. Qed.

Lemma onerror_kept_trans a b c :
  onerror_kept a b -> onerror_kept b c -> onerror_kept a c.
Proof.
  intros H1 H2 n d H. destruct (H1 _ _ H) as (d1 & Hd1 & E1).
  destruct (H2 _ _ Hd1) as (d2 & Hd2 & E2). exists d2. split; [done|congruence].
Qed.

Lemma onerror_kept_same w w' : w_dbs w' = w_dbs w -> onerror_kept w w'.
Proof. intros H n d Hd. exists d. by rewrite H. Qed.

Lemma onerror_kept_alter (f : database -> database) n w w' :
  w_dbs w' = alter f n (w_dbs w) ->
  (forall d, db_onerror (f d) = db_onerror d) ->
  onerror_kept w w'.
Proof.
  intros H Hf m d Hd. rewrite H. destruct (decide (n = m)) as [->|Hne].
  - exists (f d). by rewrite lookup_alter_eq, Hd.
  - exists d. by rewrite lookup_alter_ne.
Qed.

Lemma unshift_requests l x w : w_reqs (unshift l x w) = w_reqs w.
Proof. unfold unshift. by destruct (w_heap w !! l). Qed.

Lemma unshift_dbs l x w : w_dbs (unshift l x w) = w_dbs w.
Proof. unfold unshift. by destruct (w_heap w !! l). Qed.

(** Closes the leaves of an engine step run case by case. *)
Ltac kept_leaf :=
  first
    [ apply requests_kept_same; first [reflexivity | apply unshift_requests]
    | apply onerror_kept_same; first [reflexivity | apply unshift_dbs]
    | eapply onerror_kept_alter; [reflexivity | done] ].

Ltac kept_prim f :=
  let H := fresh in
  intros ? ? ? H; unfold f in H; run_step H; kept_leaf.

Lemma quiet_requests_kept {A} (c : M A) : quiet c -> preserves requests_kept c.
Proof. intros Hc w w' o H. apply requests_kept_same. by destruct (Hc _ _ _ H). Qed.

Lemma promised_requests_kept (c : M nat) : promised c -> preserves requests_kept c.
Proof.
  intros Hc w w' o H. pose proof (Hc _ _ _ H) as Ho. destruct o.
  - destruct Ho as (_ & _ & c0 & Hr). by eexists.
  - apply requests_kept_same. by destruct Ho.
Qed.

Section Kept.

Variable R : world -> world -> Prop.
Hypothesis R_cases : R = requests_kept \/ R = onerror_kept.

Lemma kept_refl w : R w w.
Proof. destruct R_cases as [-> | ->]; [apply requests_kept_refl | apply onerror_kept_refl]. Qed.

Lemma kept_trans a b c : R a b -> R b c -> R a c.
Proof.
  destruct R_cases as [-> | ->]; [apply requests_kept_trans | apply onerror_kept_trans].
Qed.

Lemma kept_createObjectStore db table options :
  preserves R (Engine.createObjectStore db table options).
Proof. destruct R_cases as [-> | ->]; kept_prim Engine.createObjectStore. Qed.

Lemma kept_createIndex sh args : preserves R (Engine.createIndex sh args).
Proof. destruct R_cases as [-> | ->]; kept_prim Engine.createIndex. Qed.

Lemma kept_deleteObjectStore db table : preserves R (Engine.deleteObjectStore db table).
Proof. destruct R_cases as [-> | ->]; kept_prim Engine.deleteObjectStore. Qed.

Lemma kept_close db : preserves R (Engine.close db).
Proof. destruct R_cases as [-> | ->]; kept_prim Engine.close. Qed.

Lemma kept_object_keys o : preserves R (object_keys o).
Proof. destruct R_cases as [-> | ->]; kept_prim object_keys. Qed.

Lemma kept_get_prop o k : preserves R (get_prop o k).
Proof. destruct R_cases as [-> | ->]; kept_prim get_prop. Qed.

Lemma kept_call_unshift a x : preserves R (call_unshift a x).
Proof. destruct R_cases as [-> | ->]; kept_prim call_unshift. Qed.

Lemma kept_spread a : preserves R (spread a).
Proof. destruct R_cases as [-> | ->]; kept_prim spread. Qed.

Lemma kept_assertName name label : preserves R (Part000.assertName name label).
Proof. destruct R_cases as [-> | ->]; kept_prim Part000.assertName. Qed.

End Kept.

Lemma onerror_transaction db tables mode :
  preserves onerror_kept (Engine.transaction db tables mode).
Proof. kept_prim Engine.transaction. Qed.

Lemma onerror_objectStore tx table : preserves onerror_kept (Engine.objectStore tx table).
Proof. kept_prim Engine.objectStore. Qed.

Lemma onerror_index sh name : preserves onerror_kept (Engine.index sh name).
Proof. kept_prim Engine.index. Qed.

Lemma onerror_get sh k : preserves onerror_kept (Engine.get sh k).
Proof. kept_prim Engine.get. Qed.

Lemma onerror_getAll sh q c : preserves onerror_kept (Engine.getAll sh q c).
Proof. kept_prim Engine.getAll. Qed.

Lemma onerror_getAllKeys sh q c : preserves onerror_kept (Engine.getAllKeys sh q c).
Proof. kept_prim Engine.getAllKeys. Qed.

Lemma onerror_index_get ih k : preserves onerror_kept (Engine.index_get ih k).
Proof. kept_prim Engine.index_get. Qed.

Lemma onerror_delete sh k : preserves onerror_kept (Engine.delete sh k).
Proof. kept_prim Engine.delete. Qed.

Lemma onerror_add sh v k : preserves onerror_kept (Engine.add sh v k).
Proof. kept_prim Engine.add. Qed.

Lemma onerror_put sh v k : preserves onerror_kept (Engine.put sh v k).
Proof. kept_prim Engine.put. Qed.

Lemma onerror_clear sh : preserves onerror_kept (Engine.clear sh).
Proof. kept_prim Engine.clear. Qed.

Lemma onerror_count sh q : preserves onerror_kept (Engine.count sh q).
Proof. kept_prim Engine.count. Qed.

Lemma onerror_promisify r : preserves onerror_kept (Idb.promisify r).
Proof.
  intros w w' o H. rewrite promisify_spec_idb in H. injection H as <- _.
  by apply onerror_kept_same.
Qed.

Create HintDb kept.

#[local] Hint Resolve kept_createObjectStore kept_createIndex kept_deleteObjectStore kept_close
  kept_object_keys kept_get_prop kept_call_unshift kept_spread kept_assertName
  onerror_transaction onerror_objectStore onerror_index onerror_get onerror_getAll
  onerror_getAllKeys onerror_index_get onerror_delete onerror_add onerror_put
  onerror_clear onerror_count onerror_promisify : kept.

(** Breaks a computation into its steps; [Hc] names the relation kept. *)
Ltac kept_step Hc :=
  match goal with
  | |- preserves _ (bind _ _) => apply (preserves_bind _ (kept_trans _ Hc)); [| intros ?]
  | |- preserves _ (for_each _ _) =>
      apply (preserves_for_each _ (kept_refl _ Hc) (kept_trans _ Hc)); intros ?
  | |- preserves _ (ret _) => apply (preserves_ret _ (kept_refl _ Hc))
  | |- preserves _ (throw _) => apply (preserves_throw _ (kept_refl _ Hc))
  | |- preserves _ get_world => apply (preserves_get_world _ (kept_refl _ Hc))
  | |- preserves _ (match ?x with _ => _ end) => destruct x
  | |- preserves _ (if ?b then _ else _) => destruct b
  | |- preserves _ _ => solve [eauto with kept]
  | |- _ \/ _ => exact Hc
  end.

Ltac kept_solve Hc := repeat kept_step Hc.

Section KeptUpgrade.

Variable R : world -> world -> Prop.
Hypothesis R_cases : R = requests_kept \/ R = onerror_kept.

Lemma kept_upgrade_create_idb db table options schema :
  preserves R (Idb.upgrade_create db table options schema).
Proof. unfold Idb.upgrade_create. kept_solve R_cases. Qed.

Lemma kept_upgrade_create_part000 db table options schema :
  preserves R (Part000.upgrade_create db table options schema).
Proof. unfold Part000.upgrade_create. kept_solve R_cases. Qed.

Lemma kept_upgrade_delete_idb db table : preserves R (Idb.upgrade_delete db table).
Proof. unfold Idb.upgrade_delete. kept_solve R_cases. Qed.

Lemma kept_upgrade_delete_part000 db table : preserves R (Part000.upgrade_delete db table).
Proof. unfold Part000.upgrade_delete. kept_solve R_cases. Qed.

End KeptUpgrade.

#[local] Hint Resolve kept_upgrade_create_idb kept_upgrade_create_part000
  kept_upgrade_delete_idb kept_upgrade_delete_part000 : kept.

Lemma requests_case : requests_kept = requests_kept \/ requests_kept = onerror_kept.
Proof. by left. Qed.

Lemma onerror_case : onerror_kept = requests_kept \/ onerror_kept = onerror_kept.
Proof. by right. Qed.

Lemma onerror_invoke_idb m db args : preserves onerror_kept (Idb.invoke m db args).
Proof.
  unfold Idb.invoke; destruct m;
    unfold Idb.client_select, Idb.client_selectAll, Idb.client_selectAllKeys,
      Idb.client_selectIndex, Idb.client_delete, Idb.client_insert,
      Idb.client_update, Idb.client_clear, Idb.client_count, Idb.client_close;
    kept_solve onerror_case.
Qed.

Lemma onerror_invoke_part000 m db args : preserves onerror_kept (Part000.invoke m db args).
Proof.
  unfold Part000.invoke; destruct m;
    unfold Part000.client_select, Part000.client_selectAll,
      Part000.client_selectAllKeys, Part000.client_selectIndex,
      Part000.client_delete, Part000.client_insert, Part000.client_update,
      Part000.client_clear, Part000.client_count, Part000.client_close;
    kept_solve onerror_case.
Qed.

Lemma requests_invoke_idb m db args : preserves requests_kept (Idb.invoke m db args).
Proof.
  destruct (data_method m) eqn:Hm.
  - destruct (promised_data_idb m db args Hm) as (c & Hc & ->).
    apply (preserves_bind _ requests_kept_trans); [by apply promised_requests_kept|].
    intros p. apply (preserves_ret _ requests_kept_refl).
  - destruct m; try discriminate; unfold Idb.invoke, Idb.client_close;
      kept_solve requests_case.
Qed.

Lemma requests_invoke_part000 m db args :
  preserves requests_kept (Part000.invoke m db args).
Proof.
  destruct (data_method m) eqn:Hm.
  - destruct (promised_data_part000 m db args Hm) as (c & Hc & ->).
    apply (preserves_bind _ requests_kept_trans); [by apply promised_requests_kept|].
    intros p. apply (preserves_ret _ requests_kept_refl).
  - destruct m; try discriminate; unfold Part000.invoke, Part000.client_close;
      kept_solve requests_case.
Qed.

#[local] Hint Resolve onerror_invoke_idb onerror_invoke_part000
  requests_invoke_idb requests_invoke_part000 : kept.

Section KeptCall.

Variable R : world -> world -> Prop.
Hypothesis R_cases : R = requests_kept \/ R = onerror_kept.

Lemma kept_invoke_idb m db args : preserves R (Idb.invoke m db args).
Proof. destruct R_cases as [-> | ->]; auto with kept. Qed.

Lemma kept_invoke_part000 m db args : preserves R (Part000.invoke m db args).
Proof. destruct R_cases as [-> | ->]; auto with kept. Qed.

Lemma kept_call_function_idb fn e db : preserves R (Idb.call_function fn e db).
Proof.
  pose proof kept_invoke_idb.
  unfold Idb.call_function. destruct fn; kept_solve R_cases.
  unfold Idb.run_action, Idb.call_method. kept_solve R_cases.
Qed.

Lemma kept_call_function_part000 fn e db : preserves R (Part000.call_function fn e db).
Proof.
  pose proof kept_invoke_part000.
  unfold Part000.call_function. destruct fn; kept_solve R_cases.
  unfold Part000.run_action, Part000.call_method. kept_solve R_cases.
Qed.

End KeptCall.

(** ** The promise of [open] *)

Lemma idb_open_log w name version fn :
  w_log (fst (Idb.idb_open name version fn w)) = w_log w ++ [COpen name (version_of version)] /\
  w_dbs (fst (Idb.idb_open name version fn w)) = w_dbs w.
Proof. unfold Idb.idb_open, Engine.open, version_of. by cbn. Qed.

Section OpenSettles.

Variable run_handler : handler -> value -> world -> world.
Variable call_function : value -> value -> value -> M unit.

Hypothesis handler_reject : forall p ev w, run_handler (HReject p) ev w = reject p ev w.
Hypothesis handler_client : forall p t r w,
  run_handler (HResolveClient p) (VEvent t (VReq r)) w
  = resolve p (VClient (request_result w r)) w.
Hypothesis handler_upgrade : forall p fn t r w n,
  request_result w r = VDb n ->
  run_handler (HUpgradeNeeded p fn) (VEvent t (VReq r)) w =
    match call_function fn (VEvent t (VReq r)) (VDb n) (set_db_onerror n (HReject p) w) with
    | (w2, Return _) => w2
    | (w2, Throw err) => reject p err w2
    end.
Hypothesis call_function_mono : forall fn e db, mono (call_function fn e db).
Hypothesis call_function_requests : forall fn e db,
  preserves requests_kept (call_function fn e db).
Hypothesis call_function_onerror : forall fn e db,
  preserves onerror_kept (call_function fn e db).
Hypothesis run_handler_stable : forall h ev w, stable w (run_handler h ev w).

Variables (w : world) (name version fn : value) (n : string).

Let r := length (w_reqs w).
Let p := length (w_promises w).
Let w1 := fst (Idb.idb_open name version fn w).

(** The success notification on a handle that still carries the handlers
    of [open], while the promise is pending. *)
Lemma success_resolves w0 q :
  w_reqs w0 !! r = Some q -> r_onsuccess q = Some (HResolveClient p) ->
  w_promises w0 !! p = Some Pending ->
  let w2 := notify_with run_handler (NSuccess r (VDb n)) w0 in
  promise_state w2 p = Some (Fulfilled (VClient (VDb n))) /\
  w_dbs w2 = w_dbs w0 /\ w_log w2 = w_log w0.
Proof.
  intros Hq Hs Hp. cbn zeta. unfold notify_with.
  pose proof (lookup_set_result r (VDb n) w0 _ Hq) as Hq'.
  set (w0' := set_result r (VDb n) w0) in *.
  rewrite Hq'. simpl. rewrite Hs. simpl. rewrite handler_client.
  assert (Hres : request_result w0' r = VDb n).
  { unfold request_result. by rewrite Hq'. }
  rewrite Hres. unfold resolve. split; [|split].
  - apply settle_pending. exact Hp.
  - by rewrite dbs_settle.
  - unfold settle. by destruct (w_promises w0' !! p) as [[]|].
Qed.

Lemma opened_success :
  let w2 := notify_with run_handler (NSuccess r (VDb n)) w1 in
  promise_state w2 p = Some (Fulfilled (VClient (VDb n))) /\
  w_dbs w2 = w_dbs w /\
  w_log w2 = w_log w ++ [COpen name (version_of version)].
Proof.
  destruct (idb_open_world_idb w name version fn) as (_ & Hq & Hp).
  destruct (idb_open_log w name version fn) as [Hl Hd].
  cbn zeta in Hq, Hp. fold w1 r p in Hq, Hp, Hl, Hd.
  destruct (success_resolves w1 _ Hq eq_refl) as (H1 & H2 & H3).
  { rewrite Hp. apply lookup_fresh_promise. }
  cbn zeta. by rewrite H2, H3, Hl, Hd.
Qed.

Variables (ver : Z) (wu : world).

Let ev := VEvent "upgradeneeded" (VReq r).
Let ws := upgrade_start name version fn n ver w.

(** The world the upgrade notification leaves when the callback returns. *)
Lemma upgrade_returns :
  call_function (callback_of version fn) ev (VDb n) ws = (wu, Return tt) ->
  notify_with run_handler (NUpgradeNeeded r n ver) w1 = wu /\
  (exists q, w_reqs wu !! r = Some q /\ r_onsuccess q = Some (HResolveClient p)) /\
  w_promises wu !! p = Some Pending /\
  (exists d, w_dbs wu !! n = Some d /\ db_onerror d = Some (HReject p)).
Proof.
  intros Hcall.
  destruct (idb_open_world_idb w name version fn) as (_ & Hq & Hp).
  cbn zeta in Hq, Hp. fold w1 r p in Hq, Hp.
  assert (Hq0 : w_reqs (ensure_database n ver w1) !! r = Some (open_handle p version fn)).
  { by rewrite reqs_ensure_database. }
  pose proof (lookup_set_result r (VDb n) _ _ Hq0) as Hq'.
  set (w' := set_result r (VDb n) (ensure_database n ver w1)) in *.
  assert (Hws : ws = set_db_onerror n (HReject p) w') by reflexivity.
  split; [|split; [|split]].
  - unfold notify_with. fold w'. rewrite Hq'. simpl.
    rewrite (handler_upgrade _ _ _ _ _ n) by (unfold request_result; by rewrite Hq').
    fold ev. rewrite <- Hws, Hcall. reflexivity.
  - destruct (call_function_requests _ _ _ _ _ _ Hcall) as [extra Hr].
    eexists. split.
    + rewrite Hr. apply lookup_app_l_Some. rewrite Hws. exact Hq'.
    + reflexivity.
  - destruct (call_function_mono _ _ _ _ _ _ Hcall) as [extra Hx].
    rewrite Hx. apply lookup_app_l_Some. rewrite Hws. simpl.
    unfold w'. simpl. rewrite promises_ensure_database, Hp. apply lookup_fresh_promise.
  - assert (Hd : exists d, w_dbs ws !! n = Some d /\ db_onerror d = Some (HReject p)).
    { rewrite Hws. unfold set_db_onerror. simpl.
      assert (He : is_Some (w_dbs (ensure_database n ver w1) !! n)).
      { unfold ensure_database. destruct (w_dbs w1 !! n); simpl; by rewrite lookup_insert_eq. }
      destruct He as [d0 Hd0]. eexists. rewrite lookup_alter_eq.
      change (w_dbs w') with (w_dbs (ensure_database n ver w1)).
      rewrite Hd0. simpl. split; reflexivity. }
    destruct Hd as (d & Hd & Ho).
    destruct (call_function_onerror _ _ _ _ _ _ Hcall n d Hd) as (d' & Hd' & Ho').
    exists d'. split; [done|congruence].
Qed.

Lemma upgraded_success :
  call_function (callback_of version fn) ev (VDb n) ws = (wu, Return tt) ->
  let w2 := run_with run_handler [NUpgradeNeeded r n ver; NSuccess r (VDb n)] w1 in
  promise_state w2 p = Some (Fulfilled (VClient (VDb n))) /\
  w_dbs w2 = w_dbs wu.
Proof.
  intros Hcall. destruct (upgrade_returns Hcall) as (Hn & (q & Hq & Hs) & Hp & _).
  cbn zeta.
  change (run_with run_handler [NUpgradeNeeded r n ver; NSuccess r (VDb n)] w1)
    with (notify_with run_handler (NSuccess r (VDb n))
            (notify_with run_handler (NUpgradeNeeded r n ver) w1)).
  rewrite Hn.
  destruct (success_resolves wu q Hq Hs Hp) as (H1 & H2 & _). by split.
Qed.

Lemma upgraded_error e ns :
  call_function (callback_of version fn) ev (VDb n) ws = (wu, Return tt) ->
  promise_state
    (run_with run_handler (NUpgradeNeeded r n ver :: NDbError n e :: ns) w1) p
  = Some (Rejected e).
Proof.
  intros Hcall. destruct (upgrade_returns Hcall) as (Hn & _ & Hp & (d & Hd & Ho)).
  change (run_with run_handler (NUpgradeNeeded r n ver :: NDbError n e :: ns) w1)
    with (run_with run_handler ns
            (notify_with run_handler (NDbError n e)
               (notify_with run_handler (NUpgradeNeeded r n ver) w1))).
  apply (stable_run _ run_handler_stable ns); [|reflexivity].
  rewrite Hn. unfold notify_with. rewrite Hd. simpl. rewrite Ho. simpl.
  rewrite handler_reject. by apply settle_pending.
Qed.

End OpenSettles.

Lemma upgrade_handler_idb p fn t r w n :
  request_result w r = VDb n ->
  Idb.run_handler (HUpgradeNeeded p fn) (VEvent t (VReq r)) w =
    match Idb.call_function fn (VEvent t (VReq r)) (VDb n) (set_db_onerror n (HReject p) w) with
    | (w2, Return _) => w2
    | (w2, Throw err) => reject p err w2
    end.
Proof. intros Hres. simpl. by rewrite Hres. Qed.

Lemma upgrade_handler_part000 p fn t r w n :
  request_result w r = VDb n ->
  Part000.run_handler (HUpgradeNeeded p fn) (VEvent t (VReq r)) w =
    match Part000.call_function fn (VEvent t (VReq r)) (VDb n)
            (set_db_onerror n (HReject p) w) with
    | (w2, Return _) => w2
    | (w2, Throw err) => reject p err w2
    end.
Proof. intros Hres. simpl. by rewrite Hres. Qed.

(** X10 (open, no upgrade). When the engine opens the connection with no
    upgrade, the promise of [open] is fulfilled with the client facade of
    that connection, whatever was passed as version and callback: the
    callback is not called, the only call made is [indexedDB.open] with the
    name and the version (1 when none was given or the callback stands in
    its place), and no collection is touched.  In both modules, for
    part_000 with a name it accepts. *)
Theorem open_without_upgrade_resolves_with_facade
    (w : world) (name version fn : value) (n : string) :
  let r := length (w_reqs w) in
  let p := length (w_promises w) in
  let opened (res : world * outcome nat) (notify : notification -> world -> world) :=
    let w2 := notify (NSuccess r (VDb n)) (fst res) in
    snd res = Return p /\
    promise_state w2 p = Some (Fulfilled (VClient (VDb n))) /\
    w_dbs w2 = w_dbs w /\
    w_log w2 = w_log w ++ [COpen name (version_of version)] in
  opened (Idb.idb_open name version fn w) Idb.notify /\
  (valid_name name = true -> opened (Part000.idb_open name version fn w) Part000.notify).
Proof.
  intros r p opened. split.
  - split; [apply idb_open_world_idb|].
    apply (opened_success Idb.run_handler). reflexivity.
  - intros Hn. rewrite idb_open_same by done.
    split; [apply idb_open_world_idb|].
    apply (opened_success Part000.run_handler). reflexivity.
Qed.

Lemma open_without_upgrade_resolves_with_facade_witness :
  valid_name (VStr "T") = true /\
  promise_state
    (Part000.notify (NSuccess 0 (VDb "T"))
       (fst (Part000.idb_open (VStr "T") (VFun [UThrow VNull]) VNull empty_world))) 0
  = Some (Fulfilled (VClient (VDb "T"))).
Proof.
  split; [reflexivity|].
  exact (proj1 (proj2 (proj2 (open_without_upgrade_resolves_with_facade empty_world
                  (VStr "T") (VFun [UThrow VNull]) VNull "T") eq_refl))).
Defined.

(** X11 (open, upgrade, success). When the engine enters the upgrade of the
    connection, the callback of [open] (calls on the upgrade facade it is
    given) returns, and the engine then reports success, the promise of
    [open] is fulfilled with the client facade of that connection, and the
    connection holds what the callback left.  In both modules, for part_000
    with a name it accepts. *)
Theorem open_after_upgrade_resolves_with_facade
    (w wu : world) (name version fn : value) (n : string) (ver : Z) :
  let r := length (w_reqs w) in
  let p := length (w_promises w) in
  let ev := VEvent "upgradeneeded" (VReq r) in
  let ws := upgrade_start name version fn n ver w in
  let opened (w2 : world) :=
    promise_state w2 p = Some (Fulfilled (VClient (VDb n))) /\ w_dbs w2 = w_dbs wu in
  (Idb.call_function (callback_of version fn) ev (VDb n) ws = (wu, Return tt) ->
   opened (Idb.run [NUpgradeNeeded r n ver; NSuccess r (VDb n)]
             (fst (Idb.idb_open name version fn w)))) /\
  (valid_name name = true ->
   Part000.call_function (callback_of version fn) ev (VDb n) ws = (wu, Return tt) ->
   opened (Part000.run [NUpgradeNeeded r n ver; NSuccess r (VDb n)]
             (fst (Part000.idb_open name version fn w)))).
Proof.
  intros r p ev ws opened. split.
  - intros Hcall.
    apply (upgraded_success Idb.run_handler Idb.call_function); try done.
    + apply upgrade_handler_idb.
    + apply mono_call_function_idb.
    + intros. apply kept_call_function_idb. by left.
    + intros. apply kept_call_function_idb. by right.
  - intros Hn Hcall. rewrite idb_open_same by done.
    apply (upgraded_success Part000.run_handler Part000.call_function); try done.
    + apply upgrade_handler_part000.
    + apply mono_call_function_part000.
    + intros. apply kept_call_function_part000. by left.
    + intros. apply kept_call_function_part000. by right.
Qed.

Lemma open_after_upgrade_resolves_with_facade_witness :
  let fn := VFun [UCall "create" [VStr "items"; VObj [("keyPath", VStr "id")]]] in
  let ws := upgrade_start (VStr "T") (VNum 1) fn "T" 1 empty_world in
  let c := Idb.call_function (callback_of (VNum 1) fn)
             (VEvent "upgradeneeded" (VReq 0)) (VDb "T") ws in
  c = (fst c, Return tt) /\
  promise_state
    (Idb.run [NUpgradeNeeded 0 "T" 1; NSuccess 0 (VDb "T")]
       (fst (Idb.idb_open (VStr "T") (VNum 1) fn empty_world))) 0
  = Some (Fulfilled (VClient (VDb "T"))).
Proof.
  intros fn ws c.
  assert (Hc : c = (fst c, Return tt)) by (vm_compute; reflexivity).
  split; [exact Hc|].
  exact (proj1 (proj1 (open_after_upgrade_resolves_with_facade empty_world (fst c)
                         (VStr "T") (VNum 1) fn "T" 1) Hc)).
Defined.

(** X12 (error on the connection in an upgrade). Once the engine has
    entered the upgrade and the callback of [open] (calls on the upgrade
    facade it is given) has returned, an error
    event on the connection rejects the promise of [open] with that event,
    and the promise stays rejected whatever the engine reports next, a
    success of the open request included.  In both modules, for part_000
    with a name it accepts. *)
Theorem connection_error_after_upgrade_rejects_open
    (w wu : world) (name version fn e : value) (n : string) (ver : Z)
    (ns : list notification) :
  let r := length (w_reqs w) in
  let p := length (w_promises w) in
  let ev := VEvent "upgradeneeded" (VReq r) in
  let ws := upgrade_start name version fn n ver w in
  (Idb.call_function (callback_of version fn) ev (VDb n) ws = (wu, Return tt) ->
   promise_state
     (Idb.run (NUpgradeNeeded r n ver :: NDbError n e :: ns)
        (fst (Idb.idb_open name version fn w))) p
   = Some (Rejected e)) /\
  (valid_name name = true ->
   Part000.call_function (callback_of version fn) ev (VDb n) ws = (wu, Return tt) ->
   promise_state
     (Part000.run (NUpgradeNeeded r n ver :: NDbError n e :: ns)
        (fst (Part000.idb_open name version fn w))) p
   = Some (Rejected e)).
Proof.
  intros r p ev ws. split.
  - intros Hcall.
    apply (upgraded_error Idb.run_handler Idb.call_function) with (wu := wu); try done.
    + apply upgrade_handler_idb.
    + apply mono_call_function_idb.
    + intros. apply kept_call_function_idb. by left.
    + intros. apply kept_call_function_idb. by right.
    + apply stable_run_handler_idb.
  - intros Hn Hcall. rewrite idb_open_same by done.
    apply (upgraded_error Part000.run_handler Part000.call_function) with (wu := wu);
      try done.
    + apply upgrade_handler_part000.
    + apply mono_call_function_part000.
    + intros. apply kept_call_function_part000. by left.
    + intros. apply kept_call_function_part000. by right.
    + apply stable_run_handler_part000.
Qed.

Lemma connection_error_after_upgrade_rejects_open_witness :
  let fn := VFun [UCall "create" [VStr "items"; VObj [("keyPath", VStr "id")]]] in
  let ws := upgrade_start (VStr "T") (VNum 1) fn "T" 1 empty_world in
  let c := Idb.call_function (callback_of (VNum 1) fn)
             (VEvent "upgradeneeded" (VReq 0)) (VDb "T") ws in
  c = (fst c, Return tt) /\
  promise_state
    (Idb.run [NUpgradeNeeded 0 "T" 1; NDbError "T" (VEvent "error" (VDb "T"));
              NSuccess 0 (VDb "T")]
       (fst (Idb.idb_open (VStr "T") (VNum 1) fn empty_world))) 0
  = Some (Rejected (VEvent "error" (VDb "T"))).
Proof.
  intros fn ws c.
  assert (Hc : c = (fst c, Return tt)) by (vm_compute; reflexivity).
  split; [exact Hc|].
  exact (proj1 (connection_error_after_upgrade_rejects_open empty_world (fst c)
                  (VStr "T") (VNum 1) fn (VEvent "error" (VDb "T")) "T" 1
                  [NSuccess 0 (VDb "T")]) Hc).
Defined.

(** X13 (a callback that is no function). [open] takes any value as its
    callback: only [undefined] is replaced by the empty callback.  With a
    value that is no function, [open] returns as usual, and when the engine
    enters an upgrade the promise of [open] is rejected with a [TypeError],
    and stays rejected whatever the engine reports next.  In both modules,
    for part_000 with a name it accepts. *)
Theorem open_with_non_function_callback
    (w : world) (name version fn : value) (n : string) (ver : Z)
    (ns : list notification) :
  is_function (callback_of version fn) = false ->
  let r := length (w_reqs w) in
  let p := length (w_promises w) in
  let refused (res : world * outcome nat) (run : list notification -> world -> world) :=
    snd res = Return p /\
    exists message,
      promise_state (run (NUpgradeNeeded r n ver :: ns) (fst res)) p
      = Some (Rejected (type_error message)) in
  refused (Idb.idb_open name version fn w) Idb.run /\
  (valid_name name = true -> refused (Part000.idb_open name version fn w) Part000.run).
Proof.
  intros Hfn r p refused.
  destruct (idb_open_world_idb w name version fn) as (Hr & Hq & Hp).
  cbn zeta in Hq, Hp.
  assert (Hpend : promise_state (fst (Idb.idb_open name version fn w)) p = Some Pending).
  { unfold promise_state. rewrite Hp. apply lookup_fresh_promise. }
  split.
  - split; [exact Hr|]. exists "fn is not a function".
    apply (upgrade_throws Idb.run_handler Idb.call_function)
      with (q := open_handle p version fn) (fn := callback_of version fn); try done.
    + apply upgrade_handler_idb.
    + apply mono_call_function_idb.
    + apply stable_run_handler_idb.
    + unfold open_handle. simpl r_onupgradeneeded.
      destruct (callback_of version fn); try discriminate; reflexivity.
  - intros Hn. rewrite idb_open_same by done.
    split; [exact Hr|]. exists "fn is not a function".
    apply (upgrade_throws Part000.run_handler Part000.call_function)
      with (q := open_handle p version fn) (fn := callback_of version fn); try done.
    + apply upgrade_handler_part000.
    + apply mono_call_function_part000.
    + apply stable_run_handler_part000.
    + unfold open_handle. simpl r_onupgradeneeded.
      destruct (callback_of version fn); try discriminate; reflexivity.
Qed.

Lemma open_with_non_function_callback_witness :
  is_function (callback_of (VNum 2) VNull) = false /\
  exists message,
    promise_state
      (Idb.run [NUpgradeNeeded 0 "T" 2; NSuccess 0 (VDb "T")]
         (fst (Idb.idb_open (VStr "T") (VNum 2) VNull empty_world))) 0
    = Some (Rejected (type_error message)).
Proof.
  split; [reflexivity|].
  exact (proj2 (proj1 (open_with_non_function_callback empty_world (VStr "T") (VNum 2)
                         VNull "T" 2 [NSuccess 0 (VDb "T")] eq_refl))).
Defined.

(** ** The upgrade facade: collections that exist, deletion, bad schemas *)

Lemma createObjectStore_existing w n d table options st :
  w_dbs w !! n = Some d -> db_stores d !! to_string table = Some st ->
  Engine.createObjectStore (VDb n) table options w
  = (set_log (w_log w ++ [CCreateObjectStore n table options]) w,
     Throw (dom_exception "ConstraintError")).
Proof.
  intros Hd Hs. unfold Engine.createObjectStore, log_call, modify, get_world, bind.
  simpl. rewrite Hd, Hs. reflexivity.
Qed.

Lemma deleteObjectStore_existing w n d table st :
  w_dbs w !! n = Some d -> db_stores d !! to_string table = Some st ->
  Engine.deleteObjectStore (VDb n) table w = (store_dropped n table w, Return tt).
Proof.
  intros Hd Hs. unfold Engine.deleteObjectStore, log_call, modify, get_world, bind.
  simpl. rewrite Hd, Hs. reflexivity.
Qed.

Lemma deleteObjectStore_missing w n d table :
  w_dbs w !! n = Some d -> db_stores d !! to_string table = None ->
  Engine.deleteObjectStore (VDb n) table w
  = (set_log (w_log w ++ [CDeleteObjectStore n table]) w,
     Throw (dom_exception "NotFoundError")).
Proof.
  intros Hd Hs. unfold Engine.deleteObjectStore, log_call, modify, get_world, bind.
  simpl. rewrite Hd, Hs. reflexivity.
Qed.

Lemma drop_store_put t s d :
  drop_store t (Engine.set_stores (<[t := s]> (db_stores d)) d) = drop_store t d.
Proof. unfold drop_store, Engine.set_stores. simpl. by rewrite delete_insert_eq. Qed.

Lemma drop_store_fresh t d : db_stores d !! t = None -> drop_store t d = d.
Proof.
  intros H. unfold drop_store, Engine.set_stores. rewrite delete_id by done.
  by destruct d.
Qed.

Lemma dropped_put_store n t s w :
  alter (drop_store t) n (w_dbs (Engine.put_store n t s w))
  = alter (drop_store t) n (w_dbs w).
Proof.
  unfold Engine.put_store. simpl. apply map_eq. intros m.
  destruct (decide (n = m)) as [<-|Hne].
  - rewrite !lookup_alter_eq. destruct (w_dbs w !! n) as [d|]; [|done]. simpl.
    by rewrite drop_store_put.
  - by rewrite !lookup_alter_ne.
Qed.

Lemma dropped_create_round n t w e :
  alter (drop_store t) n (w_dbs (create_round n t w e))
  = alter (drop_store t) n (w_dbs w).
Proof.
  unfold create_round. cbv zeta.
  set (w2 := set_log _ _).
  assert (H2 : w_dbs w2 = w_dbs w).
  { unfold w2. simpl. apply unshift_dbs. }
  destruct (Engine.lookup_store w2 n t).
  - by rewrite dropped_put_store, H2.
  - by rewrite H2.
Qed.

Lemma dropped_rounds n t entries : forall w,
  alter (drop_store t) n (w_dbs (fold_left (create_round n t) entries w))
  = alter (drop_store t) n (w_dbs w).
Proof.
  induction entries as [|e entries IH]; intros w; simpl; [done|].
  by rewrite IH, dropped_create_round.
Qed.

Lemma dropped_fresh n t d w :
  w_dbs w !! n = Some d -> db_stores d !! t = None ->
  alter (drop_store t) n (w_dbs w) = w_dbs w.
Proof.
  intros Hd Hs. apply map_eq. intros m. destruct (decide (n = m)) as [<-|Hne].
  - rewrite lookup_alter_eq, Hd. simpl. by rewrite (drop_store_fresh t d Hs).
  - by rewrite lookup_alter_ne.
Qed.

Lemma for_each_app {A} (l1 l2 : list A) (f : A -> M unit) w :
  for_each (l1 ++ l2) f w
  = match for_each l1 f w with
    | (w1, Return _) => for_each l2 f w1
    | (w1, Throw e) => (w1, Throw e)
    end.
Proof.
  revert w. induction l1 as [|a l1 IH]; intros w; [reflexivity|].
  simpl. unfold bind. destruct (f a w) as [w1 [[]|e]]; [apply IH | reflexivity].
Qed.

Lemma get_field_app_l k fields rest :
  k ∈ fst <$> fields -> get_field k (fields ++ rest) = get_field k fields.
Proof.
  induction fields as [|[k' v] fields IH]; intros Hin.
  - by apply elem_of_nil in Hin.
  - simpl in *. destruct (String.eqb_spec k k') as [->|Hne]; [done|].
    apply IH. by apply elem_of_cons in Hin as [?|?].
Qed.

Lemma get_field_app_r k fields rest :
  k ∉ fst <$> fields -> get_field k (fields ++ rest) = get_field k rest.
Proof.
  induction fields as [|[k' v] fields IH]; intros Hin; [done|].
  simpl in *. apply not_elem_of_cons in Hin as [Hne Hin].
  destruct (String.eqb_spec k k') as [->|_]; [done|]. by apply IH.
Qed.

Lemma schema_fields_keys entries : fst <$> schema_fields entries = fst <$> entries.
Proof. unfold schema_fields. rewrite <- list_fmap_compose. by apply list_fmap_ext. Qed.

(** [create] on a schema whose entry [k] holds a value without [unshift]:
    the entries before it are served, then the call of [unshift] fails. *)
Lemma upgrade_create_stops w n d table options good k bad rest :
  w_dbs w !! n = Some d -> db_stores d !! to_string table = None ->
  NoDup (fst <$> good) -> k ∉ fst <$> good ->
  (forall k' l, (k', l) ∈ good -> exists x xs, read_array w l = Some (x :: xs)) ->
  has_unshift bad = false ->
  exists message,
    Idb.upgrade_create (VDb n) table options (VObj (schema_fields good ++ (k, bad) :: rest)) w
    = (fold_left (create_round n (to_string table)) good (store_created n table options w),
       Throw (type_error message)).
Proof.
  intros Hd Hs Hnk Hk Ha Hbad.
  set (fields := schema_fields good ++ (k, bad) :: rest).
  assert (Hloop :
    for_each (fst <$> good) (fun k =>
      let! a := get_prop (VObj fields) k in
      call_unshift a (VStr k) ;;;
      let! a' := get_prop (VObj fields) k in
      let! args := spread a' in
      Engine.createIndex (upgrade_store n (to_string table)) args)
      (store_created n table options w)
    = (fold_left (create_round n (to_string table)) good (store_created n table options w),
       Return tt)).
  { apply (loop_runs n (to_string table) fields good (store_created n table options w)
             {| st_options := options; st_records := ∅; st_indexes := ∅ |}); try done.
    - intros k' l Hin. unfold fields. rewrite get_field_app_l.
      + by apply get_field_schema.
      + rewrite schema_fields_keys. apply list_elem_of_fmap. by exists (k', l).
    - by eapply store_created_lookup. }
  assert (Hget : get_field k fields = bad).
  { unfold fields. rewrite get_field_app_r by (by rewrite schema_fields_keys).
    simpl. by rewrite String.eqb_refl. }
  exists (match bad with
          | VUndefined | VNull => "Cannot read properties of undefined"
          | _ => "unshift is not a function"
          end).
  unfold Idb.upgrade_create. unfold bind at 1.
  rewrite (createObjectStore_fresh w n d table options Hd Hs).
  cbn [truthy]. unfold object_keys. unfold bind at 1. unfold bind at 1. unfold ret at 1.
  fold fields.
  assert (Hkeys : fst <$> fields = (fst <$> good) ++ k :: (fst <$> rest)).
  { unfold fields. by rewrite fmap_app, schema_fields_keys. }
  rewrite Hkeys, for_each_app, Hloop.
  cbn [for_each]. unfold bind at 1. unfold bind at 1. unfold get_prop at 1.
  unfold ret at 1. rewrite Hget. unfold bind at 1.
  destruct bad; try discriminate; reflexivity.
Qed.

(** X14 (create on a name in use). [create] on the name of a collection
    the connection has throws the engine's [ConstraintError] at once: the
    only call made is [createObjectStore], and whatever the schema is, no
    array of it is modified and no index is created.  In both modules, for
    part_000 with a name it accepts. *)
Theorem create_on_existing_collection
    (w : world) (n : string) (d : database) (table options schema : value) (st : store) :
  w_dbs w !! n = Some d ->
  db_stores d !! to_string table = Some st ->
  let refused (res : world * outcome value) :=
    res = (set_log (w_log w ++ [CCreateObjectStore n table options]) w,
           Throw (dom_exception "ConstraintError")) in
  refused (Idb.upgrade_create (VDb n) table options schema w) /\
  (valid_name table = true ->
   refused (Part000.upgrade_create (VDb n) table options schema w)).
Proof.
  intros Hd Hs refused.
  assert (H : refused (Idb.upgrade_create (VDb n) table options schema w)).
  { unfold refused, Idb.upgrade_create. unfold bind at 1.
    by rewrite (createObjectStore_existing w n d table options st Hd Hs). }
  split; [exact H|]. intros Hn. by rewrite upgrade_create_same.
Qed.

Lemma create_on_existing_collection_witness :
  w_dbs sample_world !! "T" = Some sample_db /\
  db_stores sample_db !! to_string (VStr "items") = Some sample_store /\
  Idb.upgrade_create (VDb "T") (VStr "items") VUndefined (schema_of [("byName", 0%nat)])
    sample_world
  = (set_log (w_log sample_world ++ [CCreateObjectStore "T" (VStr "items") VUndefined])
       sample_world,
     Throw (dom_exception "ConstraintError")).
Proof.
  split; [reflexivity|]. split; [reflexivity|].
  exact (proj1 (create_on_existing_collection sample_world "T" sample_db (VStr "items")
                  VUndefined (schema_of [("byName", 0%nat)]) sample_store
                  eq_refl eq_refl)).
Defined.

(** X15 (create, then delete). On a connection without a collection of
    that name, [create] with a schema of arrays followed by [delete] of the
    same name leaves every connection as it was before the two calls, and
    [delete] returns undefined; the arrays of the schema keep the names
    that [create] put in front.  In both modules, for part_000 with a name
    it accepts. *)
Theorem create_then_delete_restores_connection
    (w : world) (n : string) (d : database) (table options : value)
    (entries : list (string * loc)) :
  w_dbs w !! n = Some d -> db_stores d !! to_string table = None ->
  NoDup (fst <$> entries) -> NoDup (snd <$> entries) ->
  (forall k l, (k, l) ∈ entries -> exists x xs, read_array w l = Some (x :: xs)) ->
  let restored (created deleted : world -> world * outcome value) :=
    let res := deleted (fst (created w)) in
    snd res = Return VUndefined /\
    w_dbs (fst res) = w_dbs w /\
    (forall k l, (k, l) ∈ entries ->
       read_array (fst res) l = Some (VStr k :: entry_array w (k, l))) in
  restored (Idb.upgrade_create (VDb n) table options (schema_of entries))
           (Idb.upgrade_delete (VDb n) table) /\
  (valid_name table = true ->
   restored (Part000.upgrade_create (VDb n) table options (schema_of entries))
            (Part000.upgrade_delete (VDb n) table)).
Proof.
  intros Hd Hs Hnk Hnl Ha restored.
  assert (H : restored (Idb.upgrade_create (VDb n) table options (schema_of entries))
                       (Idb.upgrade_delete (VDb n) table)).
  { unfold restored. cbv zeta.
    destruct (created_facts w n d table options entries Hd Hs Hnk Hnl Ha)
      as (Hheap & _ & (st' & Hst' & _) & _).
    pose proof (upgrade_create_world w n d table options entries Hd Hs Hnk Ha) as Hw.
    set (wc := fst (Idb.upgrade_create (VDb n) table options (schema_of entries) w)) in *.
    assert (Hwc : wc = fold_left (create_round n (to_string table)) entries
                         (store_created n table options w)).
    { unfold wc. by rewrite Hw. }
    unfold Engine.lookup_store in Hst'.
    destruct (w_dbs wc !! n) as [d'|] eqn:Hd'; [|discriminate].
    assert (Hdel : Idb.upgrade_delete (VDb n) table wc
                   = (store_dropped n table wc, Return VUndefined)).
    { unfold Idb.upgrade_delete. unfold bind.
      by rewrite (deleteObjectStore_existing wc n d' table st' Hd' Hst'). }
    rewrite Hdel. split; [reflexivity|]. split.
    - simpl. rewrite Hwc, dropped_rounds. unfold store_created.
      rewrite dropped_put_store. simpl. by apply (dropped_fresh n _ d).
    - intros k l Hin. exact (Hheap k l Hin). }
  split; [exact H|]. intros Hn. unfold restored.
  rewrite upgrade_create_same, upgrade_delete_same by done. exact H.
Qed.

Lemma create_then_delete_restores_connection_witness :
  let d := {| db_version := 1; db_stores := ∅; db_closed := false; db_onerror := None |} in
  let created := Idb.upgrade_create (VDb "T") (VStr "items") VUndefined
                   (schema_of [("byName", 0%nat)]) in
  let res := Idb.upgrade_delete (VDb "T") (VStr "items") (fst (created sample_heap_world)) in
  w_dbs sample_heap_world !! "T" = Some d /\
  db_stores d !! to_string (VStr "items") = None /\
  NoDup (fst <$> [("byName", 0%nat)]) /\ NoDup (snd <$> [("byName", 0%nat)]) /\
  (forall k l, (k, l) ∈ [("byName", 0%nat)] ->
     exists x xs, read_array sample_heap_world l = Some (x :: xs)) /\
  w_dbs (fst res) = w_dbs sample_heap_world.
Proof.
  intros d created res.
  assert (Hk : NoDup (fst <$> [("byName", 0%nat)])) by (apply NoDup_singleton).
  assert (Hl : NoDup (snd <$> [("byName", 0%nat)])) by (apply NoDup_singleton).
  assert (Ha : forall k l, (k, l) ∈ [("byName", 0%nat)] ->
                 exists x xs, read_array sample_heap_world l = Some (x :: xs)).
  { intros k l Hin. apply list_elem_of_singleton in Hin. injection Hin as -> ->.
    by eexists _, _. }
  split; [reflexivity|]. split; [reflexivity|]. split; [exact Hk|]. split; [exact Hl|].
  split; [exact Ha|].
  exact (proj1 (proj2 (proj1 (create_then_delete_restores_connection sample_heap_world
                         "T" d (VStr "items") VUndefined [("byName", 0%nat)]
                         eq_refl eq_refl Hk Hl Ha)))).
Defined.

(** X16 (a schema entry that is no array). On a connection without a
    collection of that name, and a schema whose first entries hold arrays
    and whose next entry holds a value that is no array (and no object
    with an [unshift] of its own), [create] throws a [TypeError] when it
    reaches that entry, and what it did before stays:
    the collection exists, with one index for each entry before the bad
    one, and the arrays of those entries have their names in front.  The
    entries after the bad one are not looked at.  In both modules, for
    part_000 with a name it accepts. *)
Theorem create_stops_at_entry_without_array
    (w : world) (n : string) (d : database) (table options : value)
    (good : list (string * loc)) (k : string) (bad : value)
    (rest : list (string * value)) :
  w_dbs w !! n = Some d -> db_stores d !! to_string table = None ->
  NoDup (fst <$> good) -> NoDup (snd <$> good) -> k ∉ fst <$> good ->
  (forall k' l, (k', l) ∈ good -> exists x xs, read_array w l = Some (x :: xs)) ->
  has_unshift bad = false ->
  let t := to_string table in
  let schema := VObj (schema_fields good ++ (k, bad) :: rest) in
  let stopped (res : world * outcome value) :=
    (exists message, snd res = Throw (type_error message)) /\
    fst res = fold_left (create_round n t) good (store_created n table options w) /\
    (exists st, Engine.lookup_store (fst res) n t = Some st /\
       st_options st = options /\
       (forall k' l, (k', l) ∈ good ->
          st_indexes st !! k' = Some (index_of_args (VStr k' :: entry_array w (k', l)))) /\
       (forall k', k' ∉ fst <$> good -> st_indexes st !! k' = None)) /\
    (forall k' l, (k', l) ∈ good ->
       read_array (fst res) l = Some (VStr k' :: entry_array w (k', l))) in
  stopped (Idb.upgrade_create (VDb n) table options schema w) /\
  (valid_name table = true ->
   stopped (Part000.upgrade_create (VDb n) table options schema w)).
Proof.
  intros Hd Hs Hnk Hnl Hk Ha Hbad t schema stopped.
  assert (H : stopped (Idb.upgrade_create (VDb n) table options schema w)).
  { destruct (upgrade_create_stops w n d table options good k bad rest Hd Hs Hnk Hk Ha Hbad)
      as [message Hm].
    unfold stopped, schema. rewrite Hm. simpl fst. simpl snd.
    split; [by exists message|]. split; [reflexivity|].
    pose proof (store_created_lookup w n d table options Hd) as Hst0.
    assert (Ha0 : forall k' l, (k', l) ∈ good ->
                   is_Some (read_array (store_created n table options w) l)).
    { intros k' l Hin. destruct (Ha k' l Hin) as (x & xs & Hx).
      change (read_array (store_created n table options w) l) with (read_array w l).
      rewrite Hx. eauto. }
    destruct (loop_facts n t good (store_created n table options w) _ Hnk Hnl Ha0 Hst0)
      as (Hheap & _ & (st' & Hst' & Hopt & _ & Hin & Hout) & _).
    split; [|exact Hheap].
    exists st'. split; [exact Hst'|]. split; [exact Hopt|]. split; [exact Hin|].
    intros k' Hk'. rewrite Hout by done. simpl. apply lookup_empty. }
  split; [exact H|]. intros Hn. by rewrite upgrade_create_same.
Qed.

Lemma create_stops_at_entry_without_array_witness :
  let d := {| db_version := 1; db_stores := ∅; db_closed := false; db_onerror := None |} in
  let schema := VObj (schema_fields [("byName", 0%nat)] ++ [("byAge", VStr "age")]) in
  let res := Idb.upgrade_create (VDb "T") (VStr "items") VUndefined schema
               sample_heap_world in
  w_dbs sample_heap_world !! "T" = Some d /\
  db_stores d !! to_string (VStr "items") = None /\
  NoDup (fst <$> [("byName", 0%nat)]) /\ NoDup (snd <$> [("byName", 0%nat)]) /\
  ("byAge" ∉ fst <$> [("byName", 0%nat)]) /\
  (forall k l, (k, l) ∈ [("byName", 0%nat)] ->
     exists x xs, read_array sample_heap_world l = Some (x :: xs)) /\
  has_unshift (VStr "age") = false /\
  exists message, snd res = Throw (type_error message).
Proof.
  intros d schema res.
  assert (Hk : NoDup (fst <$> [("byName", 0%nat)])) by (apply NoDup_singleton).
  assert (Hl : NoDup (snd <$> [("byName", 0%nat)])) by (apply NoDup_singleton).
  assert (Hn : "byAge" ∉ fst <$> [("byName", 0%nat)]).
  { intros Hin. apply list_elem_of_singleton in Hin. discriminate. }
  assert (Ha : forall k l, (k, l) ∈ [("byName", 0%nat)] ->
                 exists x xs, read_array sample_heap_world l = Some (x :: xs)).
  { intros k l Hin. apply list_elem_of_singleton in Hin. injection Hin as -> ->.
    by eexists _, _. }
  split; [reflexivity|]. split; [reflexivity|]. split; [exact Hk|]. split; [exact Hl|].
  split; [exact Hn|]. split; [exact Ha|]. split; [reflexivity|].
  exact (proj1 (proj1 (create_stops_at_entry_without_array sample_heap_world "T" d
                         (VStr "items") VUndefined [("byName", 0%nat)] "byAge"
                         (VStr "age") [] eq_refl eq_refl Hk Hl Hn Ha eq_refl))).
Defined.

(** ** Deleting a database *)

Lemma idb_delete_log name w :
  w_log (fst (Idb.idb_delete name w)) = w_log w ++ [CDeleteDatabase name] /\
  w_dbs (fst (Idb.idb_delete name w)) = delete (to_string name) (w_dbs w).
Proof. unfold Idb.idb_delete, Engine.deleteDatabase. by cbn. Qed.

(** X17 (delete of a database). [idb.delete] makes one call,
    [deleteDatabase] with the name, and returns a new pending promise
    around the request; the engine's notification for that request settles
    the promise, fulfilled with the request's result or rejected with the
    request's error, and no other promise.  In both modules, for part_000
    with a name it accepts. *)
Theorem idb_delete_settles_with_request (name : value) (w : world) :
  let p := length (w_promises w) in
  let r := length (w_reqs w) in
  let spec (res : world * outcome nat) (deliver : nat -> world -> world) :=
    snd res = Return p /\
    w_log (fst res) = w_log w ++ [CDeleteDatabase name] /\
    promise_state (fst res) p = Some Pending /\
    exists c0,
      (w_reqs (fst res) !! r ≫= r_pending) = Some c0 /\
      let w2 := deliver r (fst res) in
      promise_state w2 p = Some (state_of c0) /\
      (forall q, q <> p -> promise_state w2 q = promise_state w q) /\
      w_dbs w2 = w_dbs (fst res) in
  spec (Idb.idb_delete name w) Idb.deliver /\
  (valid_name name = true -> spec (Part000.idb_delete name w) Part000.deliver).
Proof.
  intros p r spec.
  assert (Hgen : forall run_handler,
            (forall p r w, run_handler (HResolveResult p r) (VEvent "success" (VReq r)) w
                           = resolve p (request_result w r) w) ->
            (forall p r w, run_handler (HRejectError p r) (VEvent "error" (VReq r)) w
                           = reject p (request_error w r) w) ->
            spec (Idb.idb_delete name w) (deliver_with run_handler)).
  { intros run_handler H1 H2. unfold spec.
    destruct (Idb.idb_delete name w) as [w' o] eqn:E.
    assert (Ho : o = Return p) by (by injection E as _ <-).
    subst o.
    destruct (promised_then_delivered run_handler H1 H2 _ w w' p
                (promised_idb_delete name) E)
      as (_ & Hpend & c0 & Hq & Hd & Hoth & Hdbs & _).
    split; [reflexivity|]. split.
    { pose proof (proj1 (idb_delete_log name w)) as Hl. by rewrite E in Hl. }
    split; [exact Hpend|]. exists c0. split; [exact Hq|]. cbn zeta. by repeat split. }
  split.
  - by apply (Hgen Idb.run_handler).
  - intros Hn. rewrite idb_delete_same by done. by apply (Hgen Part000.run_handler).
Qed.

Lemma idb_delete_settles_with_request_witness :
  valid_name (VStr "T") = true /\
  snd (Part000.idb_delete (VStr "T") sample_world) = Return 0%nat.
Proof.
  split; [reflexivity|].
  exact (proj1 (proj2 (idb_delete_settles_with_request (VStr "T") sample_world) eq_refl)).
Defined.

(** ** From [open] to the first record *)

Lemma unique_conflict_no_index st pk v :
  st_indexes st = ∅ -> Engine.unique_conflict st pk v = false.
Proof. intros H. unfold Engine.unique_conflict. by rewrite H, map_to_list_empty. Qed.

Lemma upgrade_start_connection name version fn n ver w t :
  Engine.lookup_store w n t = None ->
  exists d, w_dbs (upgrade_start name version fn n ver w) !! n = Some d /\
            db_stores d !! t = None /\ db_closed d = false.
Proof.
  intros Hs.
  set (w1 := fst (Idb.idb_open name version fn w)).
  assert (Hd : w_dbs w1 = w_dbs w) by apply idb_open_log.
  assert (He : exists d0, w_dbs (ensure_database n ver w1) !! n = Some d0 /\
                          db_stores d0 !! t = None /\ db_closed d0 = false).
  { unfold Engine.lookup_store in Hs. unfold ensure_database. rewrite Hd.
    destruct (w_dbs w !! n) as [d|] eqn:E; simpl; rewrite lookup_insert_eq;
      eexists; (split; [reflexivity|]); simpl; by split. }
  destruct He as (d0 & Hd0 & Hs0 & Hc0).
  assert (Hdbs : w_dbs (upgrade_start name version fn n ver w)
                 = alter (fun d =>
                     {| db_version := db_version d; db_stores := db_stores d;
                        db_closed := db_closed d;
                        db_onerror := Some (HReject (length (w_promises w))) |}) n
                     (w_dbs (ensure_database n ver w1))) by reflexivity.
  rewrite Hdbs, lookup_alter_eq, Hd0. simpl. eexists. split; [reflexivity|]. by split.
Qed.

Lemma holds_store_created n t options w d :
  w_dbs w !! n = Some d -> db_closed d = false ->
  holds (store_created n (VStr t) options w) n t
    {| st_options := options; st_records := ∅; st_indexes := ∅ |}.
Proof.
  intros Hd Hc. unfold holds, store_created, Engine.put_store. simpl.
  rewrite lookup_alter_eq, Hd. simpl. eexists. split; [reflexivity|]. simpl.
  split; [exact Hc|]. by rewrite lookup_insert_eq.
Qed.

Lemma call_create_idb n t options e w d :
  w_dbs w !! n = Some d -> db_stores d !! t = None ->
  Idb.call_function (VFun [UCall "create" [VStr t; options]]) e (VDb n) w
  = (store_created n (VStr t) options w, Return tt).
Proof.
  intros Hd Hs. unfold Idb.call_function. cbn [for_each]. unfold Idb.run_action.
  change (Idb.call_method (Idb.upgrade (VDb n)) "create" [VStr t; options])
    with (Idb.upgrade_create (VDb n) (VStr t) options VUndefined).
  unfold bind. by rewrite (upgrade_create_no_schema w n d (VStr t) options Hd Hs).
Qed.

Lemma call_create_part000 n t options e w d :
  t <> "" ->
  w_dbs w !! n = Some d -> db_stores d !! t = None ->
  Part000.call_function (VFun [UCall "create" [VStr t; options]]) e (VDb n) w
  = (store_created n (VStr t) options w, Return tt).
Proof.
  intros Ht Hd Hs. unfold Part000.call_function. cbn [for_each]. unfold Part000.run_action.
  change (Part000.call_method (Part000.upgrade (VDb n)) "create" [VStr t; options])
    with (Part000.upgrade_create (VDb n) (VStr t) options VUndefined).
  unfold bind. rewrite upgrade_create_same by (by apply valid_name_str).
  by rewrite (upgrade_create_no_schema w n d (VStr t) options Hd Hs).
Qed.

(** X18 (from open to the first record). [open] with a callback that
    creates the collection [t], on a name whose database has no such
    collection: once the engine has run the upgrade and reported success,
    the promise of [open] is fulfilled with the client facade of the
    connection, the connection is open and holds [t], empty, with the
    options given, and a record inserted through the facade is the one
    [select] then reads under its key.  In both modules, for part_000 with
    names it accepts. *)
Theorem open_create_insert_select
    (w : world) (n t : string) (options : value) (ver : Z) :
  Engine.lookup_store w n t = None ->
  let fn := VFun [UCall "create" [VStr t; options]] in
  let r := length (w_reqs w) in
  let p := length (w_promises w) in
  let st0 := {| st_options := options; st_records := ∅; st_indexes := ∅ |} in
  let ready (w2 : world) (deliver : nat -> world -> world)
            (insert : value -> value -> M nat) (select : value -> M nat) :=
    promise_state w2 p = Some (Fulfilled (VClient (VDb n))) /\
    holds w2 n t st0 /\
    (forall v k pk, Engine.primary_key st0 v (key_arg k) = Some pk ->
       then_settles deliver (insert v k) (select (key_value pk)) w2 (Fulfilled v)) in
  ready (Idb.run [NUpgradeNeeded r n ver; NSuccess r (VDb n)]
           (fst (Idb.idb_open (VStr n) (VNum ver) fn w)))
        Idb.deliver (Idb.client_insert (VDb n) (VStr t)) (Idb.client_select (VDb n) (VStr t)) /\
  (n <> "" -> t <> "" ->
   ready (Part000.run [NUpgradeNeeded r n ver; NSuccess r (VDb n)]
            (fst (Part000.idb_open (VStr n) (VNum ver) fn w)))
         Part000.deliver (Part000.client_insert (VDb n) (VStr t))
         (Part000.client_select (VDb n) (VStr t))).
Proof.
  intros Hs fn r p st0 ready.
  destruct (upgrade_start_connection (VStr n) (VNum ver) fn n ver w t Hs)
    as (d & Hd & Hst & Hc).
  set (ws := upgrade_start (VStr n) (VNum ver) fn n ver w) in *.
  pose proof (holds_store_created n t options ws d Hd Hc) as Hh.
  split.
  - destruct (upgraded_success Idb.run_handler Idb.call_function
                (fun _ _ _ _ => eq_refl) upgrade_handler_idb mono_call_function_idb
                (fun fn e db => kept_call_function_idb _ requests_case fn e db)
                (fun fn e db => kept_call_function_idb _ onerror_case fn e db)
                w (VStr n) (VNum ver) fn n ver (store_created n (VStr t) options ws)
                (call_create_idb n t options _ ws d Hd Hst)) as [Hp Hdbs].
    split; [exact Hp|].
    assert (Hh2 : holds (Idb.run [NUpgradeNeeded r n ver; NSuccess r (VDb n)]
                           (fst (Idb.idb_open (VStr n) (VNum ver) fn w))) n t st0).
    { by apply (holds_same_dbs (store_created n (VStr t) options ws)). }
    split; [exact Hh2|].
    intros v k pk Hpk.
    pose proof (insert_select n t st0 _ Hh2 Idb.run_handler
                  (fun _ _ _ => eq_refl) (fun _ _ _ => eq_refl) v k pk Hpk) as Hrt.
    by rewrite (unique_conflict_no_index st0 pk v eq_refl) in Hrt.
  - intros Hn Ht. rewrite idb_open_same by (by apply valid_name_str).
    destruct (upgraded_success Part000.run_handler Part000.call_function
                (fun _ _ _ _ => eq_refl) upgrade_handler_part000 mono_call_function_part000
                (fun fn e db => kept_call_function_part000 _ requests_case fn e db)
                (fun fn e db => kept_call_function_part000 _ onerror_case fn e db)
                w (VStr n) (VNum ver) fn n ver (store_created n (VStr t) options ws)
                (call_create_part000 n t options _ ws d Ht Hd Hst)) as [Hp Hdbs].
    split; [exact Hp|].
    assert (Hh2 : holds (Part000.run [NUpgradeNeeded r n ver; NSuccess r (VDb n)]
                           (fst (Idb.idb_open (VStr n) (VNum ver) fn w))) n t st0).
    { by apply (holds_same_dbs (store_created n (VStr t) options ws)). }
    split; [exact Hh2|].
    intros v k pk Hpk.
    eapply then_settles_ext;
      [ intro; apply client_insert_same; by apply valid_name_str
      | intro; apply client_select_same; by apply valid_name_str |].
    pose proof (insert_select n t st0 _ Hh2 Part000.run_handler
                  (fun _ _ _ => eq_refl) (fun _ _ _ => eq_refl) v k pk Hpk) as Hrt.
    by rewrite (unique_conflict_no_index st0 pk v eq_refl) in Hrt.
Qed.

Lemma open_create_insert_select_witness :
  let fn := VFun [UCall "create" [VStr "items"; VObj [("keyPath", VStr "id")]]] in
  let w2 := Idb.run [NUpgradeNeeded 0 "T" 1; NSuccess 0 (VDb "T")]
              (fst (Idb.idb_open (VStr "T") (VNum 1) fn empty_world)) in
  Engine.lookup_store empty_world "T" "items" = None /\
  then_settles Idb.deliver
    (Idb.client_insert (VDb "T") (VStr "items") sample_record VUndefined)
    (Idb.client_select (VDb "T") (VStr "items") (VNum 1)) w2 (Fulfilled sample_record).
Proof.
  intros fn w2. split; [reflexivity|].
  exact (proj2 (proj2 (proj1 (open_create_insert_select empty_world "T" "items"
                                (VObj [("keyPath", VStr "id")]) 1 eq_refl)))
           sample_record VUndefined (KNum 1) eq_refl).
Defined.
